(** * merge_transcripts.py: timestamp-based merge of audio transcripts into a chat log

    A shallow embedding of [src/merge_transcripts.py] and the properties of
    its alignment walk.

    Conventions of the embedding.
    - A Python [str] is a Rocq [string]; a character is an [ascii], read as
      the code point of that number (0..255).  The character tables of the
      Python runtime ([\d], [\w], [str.lower], [str.strip],
      [str.splitlines]) are written out for that range.
    - An exception is a value [Raise e] of the type [result]; [try]/[except]
      is a [match] on it.
    - A value whose type the program does not check (what [yaml.safe_load]
      returns) is an [object].  The parser of PyYAML is an argument
      [safe_load] of the program: every theorem holds for every parser.
    - The file system is an explicit value [fs] that the run reads; the
      final [open(..., "w")] truncates the output file and the write
      fills it, wholly or, when the write fails, up to some character.
    - [pathlib] is the one of CPython 3.11.
    - Integers are [Z]; indexes into lists are [nat]. *)

From Stdlib Require Import String Ascii List ZArith NArith Bool Lia Arith.
From Stdlib Require Import Permutation Sorted.
Import ListNotations.

Local Open Scope string_scope.
Local Open Scope Z_scope.

(* ===================================================================== *)
(** * Python runtime: exceptions, characters and strings                  *)
(* ===================================================================== *)

Module Py.

Inductive exn : Type :=
| ValueError
| OSError
| IndexError
| AttributeError
| TypeError
| YAMLError.

Inductive result (A : Type) : Type :=
| Ok (a : A)
| Raise (e : exn).
Arguments Ok {A} a.
Arguments Raise {A} e.

Definition bind {A B : Type} (r : result A) (f : A -> result B) : result B :=
  match r with
  | Ok a => f a
  | Raise e => Raise e
  end.

(** A value of any type.  The program looks at such a value in four ways:
    is it a [dict] (then at its items, in insertion order), is it a [str]
    (then at its characters), does it have [lower()], and what does
    [str()] print of it.  [Bytes] has [lower()] and is no [str]; [Other]
    is every value that is none of these ([None], a number, a list, a
    date); for a value that is no [str] the text that [str()] prints of
    it is part of the value. *)
#[warnings="-register-all"] Inductive object : Type :=
| Str (s : string)
| Dict (items : list (object * object)) (text : string)
| Bytes (text : string)
| Other (text : string).

(** [str(v)], also what [f"{v}"] prints. *)
Definition py_str (v : object) : string :=
  match v with
  | Str s => s
  | Dict _ text | Bytes text | Other text => text
  end.

Definition code (c : ascii) : N := N_of_ascii c.

Definition in_range (lo hi : N) (c : ascii) : bool :=
  ((lo <=? code c) && (code c <=? hi))%N.

(** [\d] and [str.isdecimal] below code point 256: the ten ASCII digits. *)
Definition is_digit (c : ascii) : bool := in_range 48 57 c.

(** [\w]: alphanumeric characters and the underscore. *)
Definition is_word (c : ascii) : bool :=
  in_range 48 57 c || in_range 65 90 c || in_range 95 95 c
  || in_range 97 122 c
  || in_range 170 170 c || in_range 178 179 c || in_range 181 181 c
  || in_range 185 186 c || in_range 188 190 c
  || in_range 192 214 c || in_range 216 246 c || in_range 248 255 c.

(** [str.isspace], the characters removed by [str.strip()] and matched by
    [\s]. *)
Definition is_space (c : ascii) : bool :=
  in_range 9 13 c || in_range 28 32 c || in_range 133 133 c
  || in_range 160 160 c.

(** The line boundaries of [str.splitlines]. *)
Definition is_linebreak (c : ascii) : bool :=
  in_range 10 13 c || in_range 28 30 c || in_range 133 133 c.

Definition LF : ascii := ascii_of_N 10.
Definition CR : ascii := ascii_of_N 13.

(** [.] of a regular expression (without DOTALL). *)
Definition is_dot (c : ascii) : bool := negb (Ascii.eqb c LF).

Definition lower_char (c : ascii) : ascii :=
  if in_range 65 90 c || in_range 192 214 c || in_range 216 222 c
  then ascii_of_N (code c + 32)
  else c.

(** [s.lower()] *)
Fixpoint lower (s : string) : string :=
  match s with
  | EmptyString => EmptyString
  | String c s' => String (lower_char c) (lower s')
  end.

(** [needle in hay] *)
Fixpoint contains (needle hay : string) : bool :=
  if prefix needle hay then true
  else match hay with
       | EmptyString => false
       | String _ hay' => contains needle hay'
       end.

Fixpoint lstrip (s : string) : string :=
  match s with
  | EmptyString => EmptyString
  | String c s' => if is_space c then lstrip s' else s
  end.

Fixpoint rstrip (s : string) : string :=
  match s with
  | EmptyString => EmptyString
  | String c s' =>
      match rstrip s' with
      | EmptyString => if is_space c then EmptyString else String c EmptyString
      | r => String c r
      end
  end.

(** [s.strip()] *)
Definition strip (s : string) : string := rstrip (lstrip s).

(** [s.splitlines()]: a line ends at a line boundary, [\r\n] counts as one
    boundary, and no empty last line is produced after a final boundary. *)
Fixpoint splitlines (s : string) : list string :=
  match s with
  | EmptyString => []
  | String c s' =>
      if is_linebreak c then
        match s' with
        | String c' s'' =>
            if Ascii.eqb c CR && Ascii.eqb c' LF
            then EmptyString :: splitlines s''
            else EmptyString :: splitlines s'
        | EmptyString => [EmptyString]
        end
      else
        match splitlines s' with
        | [] => [String c EmptyString]
        | l :: ls => String c l :: ls
        end
  end.

(** ["\n".join(lines)] *)
Definition join_lines (lines : list string) : string :=
  String.concat (String LF EmptyString) lines.

(** [int(s)] for ASCII digits with white space around them. *)
Fixpoint int_of_digits_from (acc : Z) (s : string) : Z :=
  match s with
  | EmptyString => acc
  | String c s' => int_of_digits_from (acc * 10 + (Z.of_N (code c) - 48)) s'
  end.

Definition int (s : string) : Z := int_of_digits_from 0 (strip s).

Definition digit_char (n : Z) : ascii := ascii_of_N (Z.to_N (48 + n)).

(** A number 0..99 on two digits, as [%H] and [%M] of [strftime] print. *)
Definition two_digits (n : Z) : string :=
  String (digit_char (n / 10)) (String (digit_char (n mod 10)) EmptyString).

(** Comparison of two [str] values: by code point, shorter first. *)
Fixpoint str_leb (a b : string) : bool :=
  match a, b with
  | EmptyString, _ => true
  | String _ _, EmptyString => false
  | String x a', String y b' =>
      if (code x <? code y)%N then true
      else if (code y <? code x)%N then false
      else str_leb a' b'
  end.

End Py.

Import Py.

(* ===================================================================== *)
(** * Regular expressions: the fragment of [re] the program uses          *)
(* ===================================================================== *)

Module Re.

(** Patterns.  [Cls p] is one character of a class, [Plus p] is [class+],
    [Opt] is [(...)?], [Alt] is [|], [Grp n] is capturing group [n] and
    [Eos] is [$]. *)
Inductive re : Type :=
| Eps
| Cls (p : ascii -> bool)
| Cat (a b : re)
| Alt (a b : re)
| Opt (a : re)
| Plus (p : ascii -> bool)
| Grp (n : nat) (a : re)
| Eos.

(** The groups captured so far, the latest first. *)
Definition caps : Type := list (nat * string).

Fixpoint group (n : nat) (m : caps) : option string :=
  match m with
  | [] => None
  | (i, w) :: m' => if Nat.eqb i n then Some w else group n m'
  end.

(** The part of [s] that was consumed when [rest] is what remains. *)
Definition consumed (s rest : string) : string :=
  substring 0 (String.length s - String.length rest) s.

Section Exec.
Context {R : Type}.

(** Greedy [class*] with backtracking: the longest run first, then
    shorter ones while the continuation fails. *)
Fixpoint star (p : ascii -> bool) (s : string) (k : string -> option R)
  : option R :=
  match s with
  | String c s' =>
      if p c then
        match star p s' k with
        | Some r => Some r
        | None => k s
        end
      else k s
  | EmptyString => k s
  end.

(** The backtracking matcher, in continuation-passing style: [k] is the
    rest of the pattern; alternatives are tried in the order of the
    [re] module (left alternative first, greedy repetition). *)
Fixpoint exec (r : re) (s : string) (m : caps)
         (k : string -> caps -> option R) : option R :=
  match r with
  | Eps => k s m
  | Cls p =>
      match s with
      | String c s' => if p c then k s' m else None
      | EmptyString => None
      end
  | Cat a b => exec a s m (fun s' m' => exec b s' m' k)
  | Alt a b =>
      match exec a s m k with
      | Some x => Some x
      | None => exec b s m k
      end
  | Opt a =>
      match exec a s m k with
      | Some x => Some x
      | None => k s m
      end
  | Plus p =>
      match s with
      | String c s' => if p c then star p s' (fun s'' => k s'' m) else None
      | EmptyString => None
      end
  | Grp n a => exec a s m (fun s' m' => k s' ((n, consumed s s') :: m'))
  | Eos =>
      match s with
      | EmptyString => k s m
      | String c EmptyString => if Ascii.eqb c LF then k s m else None
      | _ => None
      end
  end.
End Exec.

(** [re.match(r, s)]: a match at the start of [s]; the result is the
    groups and what follows the match. *)
Definition re_match (r : re) (s : string) : option (caps * string) :=
  exec r s [] (fun rest m => Some (m, rest)).

(** [re.search(r, s)]: the match at the leftmost position that has one. *)
Fixpoint re_search (r : re) (s : string) : option (caps * string) :=
  match re_match r s with
  | Some x => Some x
  | None =>
      match s with
      | EmptyString => None
      | String _ s' => re_search r s'
      end
  end.

(** Building blocks. *)
Definition chr (c : ascii) : re := Cls (Ascii.eqb c).
Definition digit : re := Cls is_digit.
Definition one_of (cs : string) : re :=
  Cls (fun c => existsb (Ascii.eqb c) (list_ascii_of_string cs)).
Definition between (lo hi : ascii) : re := Cls (in_range (code lo) (code hi)).

Fixpoint lit (s : string) : re :=
  match s with
  | EmptyString => Eps
  | String c s' => Cat (chr c) (lit s')
  end.

Fixpoint times (n : nat) (r : re) : re :=
  match n with
  | O => Eps
  | S n' => Cat r (times n' r)
  end.

End Re.

Import Re.

Declare Scope re_scope.
Delimit Scope re_scope with re.
Bind Scope re_scope with re.
Infix ";;" := Cat (at level 61, right associativity) : re_scope.
Infix "<|>" := Alt (at level 63, left associativity) : re_scope.

(* ===================================================================== *)
(** * [datetime]: the operations the program uses                         *)
(* ===================================================================== *)

Module Datetime.

Record datetime : Type := mk_datetime {
  year : Z; month : Z; day : Z;
  hour : Z; minute : Z; second : Z
}.

Definition is_leap (y : Z) : bool :=
  (y mod 4 =? 0) && (negb (y mod 100 =? 0) || (y mod 400 =? 0)).

Definition days_in_month (y m : Z) : Z :=
  if m =? 2 then (if is_leap y then 29 else 28)
  else if (m =? 4) || (m =? 6) || (m =? 9) || (m =? 11) then 30
  else 31.

(** [datetime(y, mo, d, h, mi, s)]: the constructor checks every field
    and raises [ValueError] on one out of range. *)
Definition datetime_new (y mo d h mi s : Z) : result datetime :=
  if (1 <=? y) && (y <=? 9999) && (1 <=? mo) && (mo <=? 12)
     && (1 <=? d) && (d <=? days_in_month y mo)
     && (0 <=? h) && (h <=? 23) && (0 <=? mi) && (mi <=? 59)
     && (0 <=? s) && (s <=? 59)
  then Ok (mk_datetime y mo d h mi s)
  else Raise ValueError.

Definition days_before_year (y : Z) : Z :=
  let y' := y - 1 in y' * 365 + y' / 4 - y' / 100 + y' / 400.

Fixpoint days_before_month_from (y : Z) (n : nat) : Z :=
  match n with
  | O => 0
  | S n' => days_before_month_from y n' + days_in_month y (Z.of_nat n)
  end.

Definition days_before_month (y m : Z) : Z :=
  days_before_month_from y (Z.to_nat (m - 1)).

(** [d.toordinal()] *)
Definition toordinal (t : datetime) : Z :=
  days_before_year (year t) + days_before_month (year t) (month t) + day t.

Definition seconds_of_day (t : datetime) : Z :=
  hour t * 3600 + minute t * 60 + second t.

(** [(a - b).total_seconds()] *)
Definition sub_total_seconds (a b : datetime) : Z :=
  (toordinal a - toordinal b) * 86400 + (seconds_of_day a - seconds_of_day b).

(** [t.replace(year=y, month=mo, day=d)] with the date of another
    [datetime]: the fields are in range, the constructor does not raise. *)
Definition replace_date (t : datetime) (y mo d : Z) : datetime :=
  mk_datetime y mo d (hour t) (minute t) (second t).

(** [t.strftime('%H:%M')] *)
Definition strftime_HM (t : datetime) : string :=
  two_digits (hour t) ++ ":" ++ two_digits (minute t).

(** [a <= b]: the fields compared in order, year first. *)
Definition fields (t : datetime) : list Z :=
  [year t; month t; day t; hour t; minute t; second t].

Fixpoint lex_leb (a b : list Z) : bool :=
  match a, b with
  | x :: a', y :: b' =>
      if x <? y then true else if y <? x then false else lex_leb a' b'
  | _, _ => true
  end.

Definition dt_leb (a b : datetime) : bool := lex_leb (fields a) (fields b).

(** The pattern of one directive of a [strptime] format, as the table of
    [_strptime.TimeRE] gives it; the group is numbered by the directive's
    letter. *)
Definition key (d : ascii) : nat := nat_of_ascii d.

Definition directive (d : ascii) : option re :=
  let G := Grp (key d) in
  if Ascii.eqb d "Y" then Some (G (times 4 digit))
  else if Ascii.eqb d "m" then
    Some (G ((chr "1" ;; between "0" "2") <|> (chr "0" ;; between "1" "9")
             <|> between "1" "9"))%re
  else if Ascii.eqb d "d" then
    Some (G ((chr "3" ;; between "0" "1") <|> (between "1" "2" ;; digit)
             <|> (chr "0" ;; between "1" "9") <|> between "1" "9"
             <|> (chr " " ;; between "1" "9")))%re
  else if Ascii.eqb d "H" then
    Some (G ((chr "2" ;; between "0" "3") <|> (between "0" "1" ;; digit)
             <|> digit))%re
  else if Ascii.eqb d "M" then
    Some (G ((between "0" "5" ;; digit) <|> digit))%re
  else if Ascii.eqb d "S" then
    Some (G ((chr "6" ;; between "0" "1") <|> (between "0" "5" ;; digit)
             <|> digit))%re
  else None.

(** The pattern of a format: a directive gives its pattern, white space
    gives [\s+], any other character stands for itself.  (The formats of
    the program have no two adjacent spaces.) *)
Fixpoint format_regex (fmt : string) : option re :=
  match fmt with
  | EmptyString => Some Eps
  | String c fmt' =>
      if Ascii.eqb c "%" then
        match fmt' with
        | String d fmt'' =>
            match directive d, format_regex fmt'' with
            | Some r, Some r' => Some (r ;; r')%re
            | _, _ => None
            end
        | EmptyString => None
        end
      else
        match format_regex fmt' with
        | Some r' => Some ((if is_space c then Plus is_space else chr c) ;; r')%re
        | None => None
        end
  end.

(** [datetime.strptime(data, fmt)]: the data must match the pattern of the
    format from its start, nothing may remain after the match, and the
    fields must make a [datetime]; otherwise [ValueError].  A field the
    format does not have takes its default (1900-01-01 00:00:00). *)
Definition strptime (data fmt : string) : result datetime :=
  match format_regex fmt with
  | None => Raise ValueError
  | Some r =>
      match re_match r data with
      | None => Raise ValueError
      | Some (m, EmptyString) =>
          let field d default :=
            match group (key d) m with
            | Some w => int w
            | None => default
            end in
          datetime_new (field "Y"%char 1900) (field "m"%char 1)
                       (field "d"%char 1) (field "H"%char 0)
                       (field "M"%char 0) (field "S"%char 0)
      | Some (_, String _ _) => Raise ValueError
      end
  end.

End Datetime.

Import Datetime.

(* ===================================================================== *)
(** * The program                                                         *)
(* ===================================================================== *)

(** ** Timestamp parsers and speaker resolver *)

(** [m.group(n)] of a group that took part in the match. *)
Definition group_str (n : nat) (m : caps) : string :=
  match group n m with
  | Some w => w
  | None => EmptyString
  end.

(** [(\d{4}-\d{2}-\d{2})[ _-](\d{2})-(\d{2})(?:-(\d{2}))?] *)
Definition transcript_pattern : re :=
  (Grp 1 (times 4 digit ;; chr "-" ;; times 2 digit ;; chr "-" ;; times 2 digit)
   ;; one_of " _-"
   ;; Grp 2 (times 2 digit) ;; chr "-" ;; Grp 3 (times 2 digit)
   ;; Opt (chr "-" ;; Grp 4 (times 2 digit)))%re.

Definition parse_transcript_timestamp (filename : string)
  : result (option datetime) :=
  match re_search transcript_pattern filename with
  | None => Ok None
  | Some (m, _) =>
      let date_part := group_str 1 m in
      let hour := group_str 2 m in
      let minute := group_str 3 m in
      let second := match group 4 m with
                    | Some w => w
                    | None => "00"
                    end in
      match strptime (date_part ++ " " ++ hour ++ ":" ++ minute ++ ":" ++ second)
                     "%Y-%m-%d %H:%M:%S" with
      | Ok t => Ok (Some t)
      | Raise ValueError => Ok None
      | Raise e => Raise e
      end
  end.

(** The mapping is a [dict]; its items are visited in insertion order. *)
Definition mapping_t : Type := list (string * string).

Fixpoint first_hit (lower_name : string) (mapping : mapping_t)
  : option string :=
  match mapping with
  | [] => None
  | (key, val) :: rest =>
      if contains (lower key) lower_name then Some val
      else first_hit lower_name rest
  end.

(** [\d{4}-\d{2}-\d{2}_[\d-]+_(.+)\.txt] *)
Definition dated_name_pattern : re :=
  (times 4 digit ;; chr "-" ;; times 2 digit ;; chr "-" ;; times 2 digit
   ;; chr "_" ;; Plus (fun c => is_digit c || Ascii.eqb c "-") ;; chr "_"
   ;; Grp 1 (Plus is_dot) ;; lit ".txt")%re.

(** [_(\w+)\.txt$] *)
Definition loose_name_pattern : re :=
  (chr "_" ;; Grp 1 (Plus is_word) ;; lit ".txt" ;; Eos)%re.

Definition Unbekannt : string := "Unbekannt".

Definition infer_speaker (filename : string) (mapping : mapping_t) : string :=
  let lower_name := lower filename in
  match first_hit lower_name mapping with
  | Some val => val
  | None =>
      match re_search dated_name_pattern filename with
      | Some (m, _) => group_str 1 m
      | None =>
          match re_search loose_name_pattern filename with
          | Some (m, _) => group_str 1 m
          | None => Unbekannt
          end
      end
  end.

(** [infer_speaker] on a mapping of any type.  The annotation
    [Dict[str, str]] is not checked when the program runs, and lines 88-93
    bind [speaker_mapping] to whatever the settings document holds:
    [mapping.items()] raises [AttributeError] on a value that is no
    [dict]; [key.lower()] raises [AttributeError] on a key without that
    method, and [... in lower_name] raises [TypeError] on a [bytes] key;
    the value of the first key that occurs is returned as it is.  On a
    [dict] of [str] keys and values this is [infer_speaker] (lemma
    [infer_speaker_obj_typed]). *)
Fixpoint first_hit_obj (lower_name : string) (items : list (object * object))
  : result (option object) :=
  match items with
  | [] => Ok None
  | (key, val) :: rest =>
      match key with
      | Str k =>
          if contains (lower k) lower_name then Ok (Some val)
          else first_hit_obj lower_name rest
      | Bytes _ => Raise TypeError
      | Dict _ _ | Other _ => Raise AttributeError
      end
  end.

Definition infer_speaker_obj (filename : string) (mapping : object)
  : result object :=
  let lower_name := lower filename in
  match mapping with
  | Dict items _ =>
      bind (first_hit_obj lower_name items) (fun hit =>
      match hit with
      | Some val => Ok val
      | None =>
          match re_search dated_name_pattern filename with
          | Some (m, _) => Ok (Str (group_str 1 m))
          | None =>
              match re_search loose_name_pattern filename with
              | Some (m, _) => Ok (Str (group_str 1 m))
              | None => Ok (Str Unbekannt)
              end
          end
      end)
  | Str _ | Bytes _ | Other _ => Raise AttributeError
  end.

(** [\[(\d{1,2}:\d{2})\]] *)
Definition chat_time_pattern : re :=
  (chr "[" ;; Grp 1 (digit ;; Opt digit ;; chr ":" ;; times 2 digit)
   ;; chr "]")%re.

Definition parse_chat_line_time (line : string) : result (option datetime) :=
  match re_match chat_time_pattern line with
  | None => Ok None
  | Some (m, _) =>
      bind (strptime (group_str 1 m) "%H:%M") (fun t => Ok (Some t))
  end.

(** ** The file system

    A [Path] is the list of its parts; [name] is the last one.
    - [file_text] gives what [open(p, "r", encoding="utf-8").read()]
      returns, or [None] when opening or reading raises.  The exception
      is taken as an [OSError]; a file that is not UTF-8 raises a
      [ValueError] instead, which no handler of the program tells
      apart, since the only handler is around [strptime].
    - [dir_entries] gives the names in a directory that can be scanned, in
      the order the scan yields them, or [None] when the path is no
      directory or cannot be scanned.
    - [can_write] tells what [open(p, "w")] and the write that follows do:
      [Refused], the open raises and the file is as it was; [Granted], the
      file holds what was written; [Cut n], the open succeeds, which
      empties the file, and the write raises with the first [n]
      characters in the file.
    - [unlisted] gives the result of [os.stat] on a path that is neither a
      file that can be read nor a directory that can be scanned: [Found]
      (a file that cannot be read, a directory that cannot be scanned),
      [NotFound] (the errors [pathlib] reads as absence) or [StatError]
      (any other error, as [EACCES] below a directory that cannot be
      searched). *)

Definition Path : Type := list string.

(** [p.name] *)
Definition path_name (p : Path) : string := last p EmptyString.

(** [p / n] *)
Definition path_div (p : Path) (n : string) : Path := (p ++ [n])%list.

Definition path_eqb (p q : Path) : bool :=
  if list_eq_dec string_dec p q then true else false.

Inductive write_access : Type :=
| Refused
| Cut (n : nat)
| Granted.

Inductive stat_result : Type :=
| Found
| NotFound
| StatError.

Record fs : Type := mk_fs {
  file_text : Path -> option string;
  dir_entries : Path -> option (list string);
  can_write : Path -> write_access;
  unlisted : Path -> stat_result
}.

(** [os.stat(p)] *)
Definition stat (st : fs) (p : Path) : stat_result :=
  match file_text st p, dir_entries st p with
  | None, None => unlisted st p
  | _, _ => Found
  end.

(** [p.exists()]: an error of [stat] that is not read as absence is passed
    on ([PermissionError], a subclass of [OSError]). *)
Definition path_exists (st : fs) (p : Path) : result bool :=
  match stat st p with
  | Found => Ok true
  | NotFound => Ok false
  | StatError => Raise OSError
  end.

Definition open_read (st : fs) (p : Path) : result string :=
  match file_text st p with
  | Some text => Ok text
  | None => Raise OSError
  end.

(** The file system in which the file [p] holds [text]. *)
Definition set_text (st : fs) (p : Path) (text : string) : fs :=
  mk_fs (fun q => if path_eqb q p then Some text else file_text st q)
        (dir_entries st) (can_write st) (unlisted st).

(** Lines 138-139: [with open(p, "w", encoding="utf-8") as f:
    f.write(content)].  The result is the outcome and the file system
    that is left. *)
Definition open_write (st : fs) (p : Path) (content : string)
  : result unit * fs :=
  match can_write st p with
  | Refused => (Raise OSError, st)
  | Cut n => (Raise OSError, set_text st p (substring 0 n content))
  | Granted => (Ok tt, set_text st p content)
  end.

Definition endswith (suffix s : string) : bool :=
  let n := String.length s in
  let k := String.length suffix in
  (k <=? n)%nat && String.eqb (substring (n - k) k s) suffix.

(** [d.glob("*.txt")], drawn to its end as [sorted] does: [pathlib] first
    asks [d.is_dir()], which passes on an error of [stat] that is not read
    as absence; for a path that is no directory, and for a directory that
    cannot be scanned, it yields nothing; else it yields the entries whose
    name ends with [.txt] (letter case counts, as on POSIX), in scan
    order. *)
Definition glob_txt (st : fs) (d : Path) : result (list Path) :=
  match stat st d with
  | StatError => Raise OSError
  | Found | NotFound =>
      match dir_entries st d with
      | Some names => Ok (map (path_div d) (filter (endswith ".txt") names))
      | None => Ok []
      end
  end.

(** Order of [Path] values: part by part. *)
Fixpoint path_leb (p q : Path) : bool :=
  match p, q with
  | [], _ => true
  | _ :: _, [] => false
  | x :: p', y :: q' =>
      if String.eqb x y then path_leb p' q' else str_leb x y
  end.

(** ** Sorting

    [sorted] and [list.sort] are stable: elements that compare equal keep
    their order.  Insertion from the right is the stable sort. *)
Section Sort.
Context {A : Type} (leb : A -> A -> bool).

Fixpoint insert (x : A) (l : list A) : list A :=
  match l with
  | [] => [x]
  | y :: l' => if leb x y then x :: l else y :: insert x l'
  end.

Fixpoint sort_by (l : list A) : list A :=
  match l with
  | [] => []
  | x :: l' => insert x (sort_by l')
  end.
End Sort.

(** ** merge_transcripts *)

(** [d.get(key, default)] for a [str] key: a key of another type is not
    equal to it. *)
Fixpoint dict_get (items : list (object * object)) (key : string)
         (default : object) : object :=
  match items with
  | [] => default
  | (Str k, v) :: rest =>
      if String.eqb k key then v else dict_get rest key default
  | _ :: rest => dict_get rest key default
  end.

(** Lines 88-93: the value of [speaker_mapping] after the settings are
    read.  A [Path] is never false, so [if settings_path and ...] tests
    for [None] first. *)
Definition load_settings (safe_load : string -> result object) (st : fs)
           (settings_path : option Path) : result object :=
  let speaker_mapping := Dict [] "{}" in
  match settings_path with
  | None => Ok speaker_mapping
  | Some settings_path =>
      bind (path_exists st settings_path) (fun found =>
      if found then
        bind (open_read st settings_path) (fun f =>
        bind (safe_load f) (fun data =>
        match data with
        | Dict items _ => Ok (dict_get items "speaker_mapping" speaker_mapping)
        | Str _ | Bytes _ | Other _ => Ok speaker_mapping
        end))
      else Ok speaker_mapping)
  end.

(** [{"path": file, "timestamp": ts}] *)
Record transcript : Type := mk_transcript {
  path : Path;
  timestamp : datetime
}.

Definition ts_leb (a b : transcript) : bool :=
  dt_leb (timestamp a) (timestamp b).

(** Lines 95-99: the files of the directory, in sorted order, that have a
    timestamp ([if ts:] tests for [None]). *)
Fixpoint collect (files : list Path) : result (list transcript) :=
  match files with
  | [] => Ok []
  | file :: rest =>
      bind (parse_transcript_timestamp (path_name file)) (fun ts =>
      bind (collect rest) (fun l =>
      Ok (match ts with
          | Some t => mk_transcript file t :: l
          | None => l
          end)))
  end.

(** Lines 95-101. *)
Definition load_transcripts (st : fs) (transcript_dir : Path)
  : result (list transcript) :=
  bind (glob_txt st transcript_dir) (fun files =>
  bind (collect (sort_by path_leb files))
       (fun l => Ok (sort_by ts_leb l))).

Definition header_line (speaker time : string) : string :=
  "[Sprecher: " ++ speaker ++ " | Audio: " ++ time ++ "]".

Section Walk.
Variable st : fs.
Variable speaker_mapping : object.
Variable transcripts : list transcript.

(** Lines 118-123 and 131-136: the header line, then the lines of the
    stripped text when it is not empty. *)
Definition emit (transcript : transcript) (time : datetime)
           (result_lines : list string) : result (list string) :=
  bind (infer_speaker_obj (path_name (path transcript)) speaker_mapping)
       (fun speaker =>
  let result_lines :=
    (result_lines ++ [header_line (py_str speaker) (strftime_HM time)])%list in
  bind (open_read st (path transcript)) (fun raw =>
    let text := strip raw in
    match text with
    | EmptyString => Ok result_lines
    | _ => Ok (result_lines ++ splitlines text)%list
    end)).

(** Lines 113-126: [while idx < len(transcripts)].  The recursion is on
    [n], for which the caller passes [len(transcripts) - idx]: every
    iteration that does not [break] lowers that number by one, and at 0
    the cursor has reached [len(transcripts)] and the loop test is false
    (lemma [match_while_bound]: a larger [n] gives the same result). *)
Fixpoint match_while (n : nat) (line_time : datetime) (idx : nat)
         (result_lines : list string) : result (nat * list string) :=
  match n with
  | O => Ok (idx, result_lines)
  | S n' =>
      match nth_error transcripts idx with
      | None => Ok (idx, result_lines)
      | Some transcript =>
          let t_time := replace_date (timestamp transcript) (year line_time)
                                     (month line_time) (day line_time) in
          if Z.abs (sub_total_seconds t_time line_time) <=? 60 then
            bind (emit transcript t_time result_lines) (fun result_lines =>
            match_while n' line_time (S idx) result_lines)
          else Ok (idx, result_lines)
      end
  end.

(** Lines 109-126.  A [datetime] is never false, so [if line_time:] tests
    for [None]. *)
Fixpoint walk (chat_lines : list string) (idx : nat)
         (result_lines : list string) : result (nat * list string) :=
  match chat_lines with
  | [] => Ok (idx, result_lines)
  | line :: rest =>
      let result_lines := (result_lines ++ [line])%list in
      bind (parse_chat_line_time line) (fun line_time =>
      match line_time with
      | Some line_time =>
          bind (match_while (length transcripts - idx) line_time idx result_lines)
               (fun '(idx, result_lines) => walk rest idx result_lines)
      | None => walk rest idx result_lines
      end)
  end.

(** Lines 129-136: [for j in range(idx, len(transcripts))]. *)
Fixpoint append_remaining (js : list nat) (result_lines : list string)
  : result (list string) :=
  match js with
  | [] => Ok result_lines
  | j :: js' =>
      match nth_error transcripts j with
      | None => Raise IndexError
      | Some transcript =>
          bind (emit transcript (timestamp transcript) result_lines)
               (append_remaining js')
      end
  end.

(** Lines 103-136: the lines of the merged document. *)
Definition merged_lines (chat_txt_path : Path) : result (list string) :=
  bind (open_read st chat_txt_path) (fun content =>
  let chat_lines := splitlines content in
  bind (walk chat_lines 0%nat []) (fun '(idx, result_lines) =>
  append_remaining (seq idx (length transcripts - idx)) result_lines)).
End Walk.

(** The function.  [safe_load] is [yaml.safe_load]; [settings_path] is
    [None] when the argument is left out.  The result is the outcome and
    the file system the run leaves: every step before line 138 only
    reads. *)
Definition merge_transcripts (safe_load : string -> result object)
           (chat_txt_path transcript_dir output_path : Path)
           (settings_path : option Path) (st : fs) : result unit * fs :=
  match
    bind (load_settings safe_load st settings_path) (fun speaker_mapping =>
    bind (load_transcripts st transcript_dir) (fun transcripts =>
    merged_lines st speaker_mapping transcripts chat_txt_path))
  with
  | Ok result_lines => open_write st output_path (join_lines result_lines)
  | Raise e => (Raise e, st)
  end.

(** The script, after the arguments are parsed: exit status 0 when
    [merge_transcripts] returns, 1 when an exception reaches the top
    level. *)
Definition main (safe_load : string -> result object)
           (chat transcripts output : Path) (settings : option Path)
           (st : fs) : Z * fs :=
  match merge_transcripts safe_load chat transcripts output settings st with
  | (Ok _, st') => (0, st')
  | (Raise _, st') => (1, st')
  end.

(* ===================================================================== *)
(** * Vocabulary of the specification                                     *)
(* ===================================================================== *)

(** ** What a pattern matches

    [Matches r w rest m m']: the pattern [r] matches the word [w] when
    [rest] follows it, and the groups go from [m] to [m'].  This is the
    set of all matches, without the order in which the matcher tries
    them. *)

Fixpoint all_chars (p : ascii -> bool) (w : string) : bool :=
  match w with
  | EmptyString => true
  | String c w' => p c && all_chars p w'
  end.

Inductive Matches : re -> string -> string -> caps -> caps -> Prop :=
| M_Eps rest m :
    Matches Eps EmptyString rest m m
| M_Cls p c rest m :
    p c = true -> Matches (Cls p) (String c EmptyString) rest m m
| M_Cat a b w1 w2 rest m m1 m2 :
    Matches a w1 (w2 ++ rest) m m1 -> Matches b w2 rest m1 m2 ->
    Matches (Cat a b) (w1 ++ w2) rest m m2
| M_AltL a b w rest m m' :
    Matches a w rest m m' -> Matches (Alt a b) w rest m m'
| M_AltR a b w rest m m' :
    Matches b w rest m m' -> Matches (Alt a b) w rest m m'
| M_OptSome a w rest m m' :
    Matches a w rest m m' -> Matches (Opt a) w rest m m'
| M_OptNone a rest m :
    Matches (Opt a) EmptyString rest m m
| M_Plus p w rest m :
    w <> EmptyString -> all_chars p w = true -> Matches (Plus p) w rest m m
| M_Grp n a w rest m m' :
    Matches a w rest m m' -> Matches (Grp n a) w rest m ((n, w) :: m')
| M_Eos rest m :
    rest = EmptyString \/ rest = String LF EmptyString ->
    Matches Eos EmptyString rest m m.

(** ** Shapes of file names *)

(** [a] occurs in [b]. *)
Definition substring_of (a b : string) : Prop :=
  exists pre post, b = pre ++ a ++ post.

(** The mapping key occurs in the file name, letter case apart. *)
Definition key_occurs (key filename : string) : Prop :=
  substring_of (lower key) (lower filename).

(** [n] digits. *)
Definition digits (n : nat) (w : string) : Prop :=
  String.length w = n /\ all_chars is_digit w = true.

(** [YYYY-MM-DD] *)
Definition date_shaped (d : string) : Prop :=
  exists y mo dd, d = y ++ "-" ++ mo ++ "-" ++ dd
                  /\ digits 4 y /\ digits 2 mo /\ digits 2 dd.

(** [<date>_<digits and dashes>_<name>.txt], anywhere in the file name;
    [name] is not empty and has no line feed. *)
Definition dated_shape (filename name : string) : Prop :=
  exists pre d t post,
    filename = pre ++ d ++ "_" ++ t ++ "_" ++ name ++ ".txt" ++ post
    /\ date_shaped d
    /\ t <> EmptyString
    /\ all_chars (fun c => is_digit c || Ascii.eqb c "-") t = true
    /\ name <> EmptyString /\ all_chars is_dot name = true.





(** ** The merged document *)

(** The time of the transcript on the date of the chat line. *)
Definition projected (line_time : datetime) (tr : transcript) : datetime :=
  replace_date (timestamp tr) (year line_time) (month line_time) (day line_time).

(** Seconds from the chat line's time to the projected transcript time. *)
Definition projected_diff (line_time : datetime) (tr : transcript) : Z :=
  sub_total_seconds (projected line_time tr) line_time.

Definition in_tolerance (line_time : datetime) (tr : transcript) : bool :=
  Z.abs (projected_diff line_time tr) <=? 60.

(** The seconds between the time of day of the transcript and the time of
    the chat line. *)
Definition seconds_apart (line_time : datetime) (tr : transcript) : Z :=
  Z.abs (seconds_of_day (timestamp tr) - seconds_of_day line_time).

Definition readable (st : fs) (tr : transcript) : Prop :=
  exists raw, file_text st (path tr) = Some raw.

(** The resolver returns a speaker for the file name of the transcript. *)
Definition resolves (mapping : object) (tr : transcript) : Prop :=
  exists speaker, infer_speaker_obj (path_name (path tr)) mapping = Ok speaker.

(** The block of the transcript can be written: its speaker resolves and
    its file can be read. *)
Definition renderable (st : fs) (mapping : object) (tr : transcript) : Prop :=
  resolves mapping tr /\ readable st tr.

(** A [dict] whose keys are all [str]. *)
Definition str_keys (mapping : object) : Prop :=
  exists items text,
    mapping = Dict items text
    /\ Forall (fun kv => exists k, fst kv = Str k) items.

(** The [dict] of a mapping of [str] keys and values. *)
Definition str_items (mapping : mapping_t) : list (object * object) :=
  map (fun kv => (Str (fst kv), Str (snd kv))) mapping.

(** The name of the speaker as the header shows it. *)
Definition speaker_text (mapping : object) (filename : string) : string :=
  match infer_speaker_obj filename mapping with
  | Ok speaker => py_str speaker
  | Raise _ => EmptyString
  end.

(** [HH:MM] *)
Definition clock (t : datetime) : string :=
  two_digits (hour t) ++ ":" ++ two_digits (minute t).

(** The header line of a transcript: it names the speaker and the time. *)
Definition header_text (mapping : object) (tr : transcript) : string :=
  "[Sprecher: " ++ speaker_text mapping (path_name (path tr))
  ++ " | Audio: " ++ clock (timestamp tr) ++ "]".

(** The lines of the text of a transcript. *)
Definition body_lines (st : fs) (tr : transcript) : list string :=
  match file_text st (path tr) with
  | Some raw =>
      match strip raw with
      | EmptyString => []
      | text => splitlines text
      end
  | None => []
  end.

(** The block of a transcript: its header line, then its text. *)
Definition block (st : fs) (mapping : object) (tr : transcript)
  : list string :=
  header_text mapping tr :: body_lines st tr.

Definition blocks (st : fs) (mapping : object) (trs : list transcript)
  : list string :=
  concat (map (block st mapping) trs).

(** A chat line followed by the blocks of the transcripts attached to it,
    for each chat line; then the blocks of the tail. *)
Definition render_inline (st : fs) (mapping : object)
           (segs : list (string * list transcript)) : list string :=
  concat (map (fun seg => fst seg :: blocks st mapping (snd seg)) segs).

Definition render (st : fs) (mapping : object)
           (segs : list (string * list transcript)) (tail : list transcript)
  : list string :=
  (render_inline st mapping segs ++ blocks st mapping tail)%list.

(** The text of a document given by its lines: one line feed between two
    lines, none after the last. *)
Fixpoint lines_text (lines : list string) : string :=
  match lines with
  | [] => EmptyString
  | [l] => l
  | l :: ls => l ++ String LF (lines_text ls)
  end.

(** The lines of a text, cut at the line feeds and nowhere else; a final
    line feed ends the last line. *)
Fixpoint text_lines (s : string) : list string :=
  match s with
  | EmptyString => []
  | String c s' =>
      if Ascii.eqb c LF then EmptyString :: text_lines s'
      else match text_lines s' with
           | [] => [String c EmptyString]
           | l :: ls => String c l :: ls
           end
  end.

(** ** The plan of the merge

    The merge in the words of the specification.  The chat lines are
    walked in order with the sorted list of transcripts; a chat line
    without a time takes no transcript; a chat line with a time takes the
    transcripts from the head of the list as long as they are within
    tolerance of it, and leaves the list from the first one that is not
    to the lines that follow.  What is left after the last chat line is
    the tail. *)

(** The time of a chat line that carries a valid one. *)
Definition chat_time (line : string) : option datetime :=
  match parse_chat_line_time line with
  | Ok (Some t) => Some t
  | _ => None
  end.

(** The transcripts at the head of [trs] within tolerance of the time,
    and the rest of the list. *)
Fixpoint span_tolerated (line_time : datetime) (trs : list transcript)
  : list transcript * list transcript :=
  match trs with
  | [] => ([], [])
  | tr :: trs' =>
      if in_tolerance line_time tr then
        (tr :: fst (span_tolerated line_time trs'),
         snd (span_tolerated line_time trs'))
      else ([], trs)
  end.

Fixpoint plan (chat_lines : list string) (trs : list transcript)
  : list (string * list transcript) * list transcript :=
  match chat_lines with
  | [] => ([], trs)
  | line :: rest =>
      let cut := match chat_time line with
                 | Some line_time => span_tolerated line_time trs
                 | None => ([], trs)
                 end in
      ((line, fst cut) :: fst (plan rest (snd cut)), snd (plan rest (snd cut)))
  end.

(** The document of the plan. *)
Definition planned_text (st : fs) (mapping : object)
           (chat_lines : list string) (trs : list transcript) : string :=
  lines_text (render st mapping (fst (plan chat_lines trs))
                     (snd (plan chat_lines trs))).

(** Ascending timestamps. *)
Definition ascending (trs : list transcript) : Prop :=
  Sorted (fun a b => ts_leb a b = true) trs.

(** A date and time as one number: the fields in the order year, month,
    day, hour, minute, second, two decimal places for each field after
    the year.  For calendar dates and times of day the number grows with
    time. *)
Definition time_key (t : datetime) : Z :=
  ((((year t * 100 + month t) * 100 + day t) * 100 + hour t) * 100
   + minute t) * 100 + second t.

(** No transcript is earlier than the one before it. *)
Definition chronological (trs : list transcript) : Prop :=
  Sorted (fun a b => time_key (timestamp a) <= time_key (timestamp b)) trs.

(** The file name gives a timestamp. *)
Definition has_timestamp (p : Path) : bool :=
  match parse_transcript_timestamp (path_name p) with
  | Ok (Some _) => true
  | _ => false
  end.

(** The timestamp of the item is the one its file name gives. *)
Definition stamped (tr : transcript) : Prop :=
  parse_transcript_timestamp (path_name (path tr)) = Ok (Some (timestamp tr)).

(** The chat line has no time token, or a valid one. *)
Definition line_parses (line : string) : Prop :=
  exists t, parse_chat_line_time line = Ok t.

(** The transcripts attached to a chat line are within tolerance of its
    time; a chat line without a time has none. *)
Definition attached (seg : string * list transcript) : Prop :=
  match parse_chat_line_time (fst seg) with
  | Ok (Some line_time) =>
      Forall (fun tr => in_tolerance line_time tr = true) (snd seg)
  | _ => snd seg = []
  end.

(** The transcript at the head of [trs], if any, is out of tolerance. *)
Definition stops_at (line_time : datetime) (trs : list transcript) : Prop :=
  match trs with
  | [] => True
  | tr :: _ => in_tolerance line_time tr = false
  end.

(** ** Line separators *)

(** The only line boundary in [s] is the line feed. *)
Definition only_LF_breaks (s : string) : Prop :=
  all_chars (fun c => negb (is_linebreak c) || Ascii.eqb c LF) s = true.

Fixpoint ends_with_LF (s : string) : bool :=
  match s with
  | EmptyString => false
  | String c EmptyString => Ascii.eqb c LF
  | String _ s' => ends_with_LF s'
  end.

(** ** Dates, times and file names *)

(** The fields are those of a calendar date and a time of day. *)
Definition valid_datetime (t : datetime) : Prop :=
  1 <= year t <= 9999 /\ 1 <= month t <= 12
  /\ 1 <= day t <= days_in_month (year t) (month t)
  /\ 0 <= hour t <= 23 /\ 0 <= minute t <= 59 /\ 0 <= second t <= 59.

(** A number 0..9999 on four digits. *)
Definition four_digits (n : Z) : string :=
  String (digit_char (n / 1000))
    (String (digit_char ((n / 100) mod 10))
       (String (digit_char ((n / 10) mod 10))
          (String (digit_char (n mod 10)) EmptyString))).

(** [YYYY-MM-DD<sep>HH-MM-SS], the fields of [t] with leading zeros. *)
Definition stamp_name (t : datetime) (sep : ascii) : string :=
  four_digits (year t) ++ "-" ++ two_digits (month t) ++ "-"
  ++ two_digits (day t) ++ String sep (two_digits (hour t) ++ "-"
  ++ two_digits (minute t) ++ "-" ++ two_digits (second t)).

(** [[HH:MM]] *)
Definition time_token (h mi : Z) : string :=
  "[" ++ two_digits h ++ ":" ++ two_digits mi ++ "]".

(** The groups a pattern can set. *)
Fixpoint groups_of (r : re) : list nat :=
  match r with
  | Cat a b | Alt a b => groups_of a ++ groups_of b
  | Opt a => groups_of a
  | Grp n a => n :: groups_of a
  | _ => []
  end.

(** The entries of the directory that become transcripts: the name ends
    in [.txt] and gives a timestamp. *)
Definition is_transcript_name (dir : Path) (n : string) : bool :=
  endswith ".txt" n && has_timestamp (path_div dir n).

(** The order of the sorted list of transcripts: by timestamp, and by
    path among equal timestamps. *)
Definition stamp_then_path (a b : transcript) : Prop :=
  ts_leb a b = true
  /\ (ts_leb b a = true -> path_leb (path a) (path b) = true).



(* ===================================================================== *)
(** * Example file systems                                                *)
(* ===================================================================== *)

Fixpoint lookup {B : Type} (p : Path) (l : list (Path * B)) : option B :=
  match l with
  | [] => None
  | (q, b) :: l' => if path_eqb p q then Some b else lookup p l'
  end.

(** The files and directories listed and nothing else; every path can be
    written. *)
Definition fs_of (files : list (Path * string))
           (dirs : list (Path * list string)) : fs :=
  mk_fs (fun p => lookup p files) (fun p => lookup p dirs)
        (fun _ => Granted) (fun _ => NotFound).

Definition nl : string := String LF EmptyString.

Definition chat_txt : Path := ["chat.txt"].
Definition tr_dir : Path := ["tr"].
Definition out_txt : Path := ["out.txt"].
Definition settings_yml : Path := ["settings.yml"].
Definition list_yml : Path := ["list.yml"].

Definition max_10 : Path := ["tr"; "2024-06-28_14-05-10_Max.txt"].
Definition max_40 : Path := ["tr"; "2024-06-28_14-05-40_Max.txt"].
Definition eva_0730 : Path := ["tr"; "2024-06-28_14-07-30_Eva.txt"].
Definition voice_note : Path := ["tr"; "voice_note.txt"].

(** The settings documents of the examples and what [yaml.safe_load]
    returns on them; no other text is given to this function. *)
Definition settings_max : string :=
  "speaker_mapping:" ++ nl ++ "  max: Maximilian" ++ nl.

Definition settings_list : string :=
  "speaker_mapping: [max, eva]" ++ nl.

Definition safe_load_examples (document : string) : result object :=
  if String.eqb document settings_max then
    Ok (Dict [(Str "speaker_mapping",
               Dict [(Str "max", Str "Maximilian")] "{'max': 'Maximilian'}")]
             "{'speaker_mapping': {'max': 'Maximilian'}}")
  else if String.eqb document settings_list then
    Ok (Dict [(Str "speaker_mapping", Other "['max', 'eva']")]
             "{'speaker_mapping': ['max', 'eva']}")
  else Raise YAMLError.

(** The mapping of a run without settings. *)
Definition no_mapping : object := Dict [] "{}".

(** Two transcripts within a minute of the first chat line, one that no
    chat line tolerates, and one file without a timestamp. *)
Definition fs_cluster : fs :=
  fs_of
    [ (chat_txt, "[14:05] Hallo!" ++ nl ++ "Wie gehts?" ++ nl ++ "[14:10] Gut");
      (max_10, "Erster");
      (max_40, "  Hi zurueck" ++ nl ++ "zweite Zeile" ++ nl ++ nl);
      (eva_0730, "Spaet");
      (voice_note, "Sprachnotiz");
      (settings_yml, settings_max);
      (list_yml, settings_list) ]
    [ (tr_dir, ["voice_note.txt"; "2024-06-28_14-07-30_Eva.txt";
                "2024-06-28_14-05-40_Max.txt"; "2024-06-28_14-05-10_Max.txt"]) ].

(** The document of [fs_cluster] without settings. *)
Definition cluster_document : string :=
  "[14:05] Hallo!" ++ nl
  ++ "[Sprecher: Max | Audio: 14:05]" ++ nl ++ "Erster" ++ nl
  ++ "[Sprecher: Max | Audio: 14:05]" ++ nl ++ "Hi zurueck" ++ nl
  ++ "zweite Zeile" ++ nl
  ++ "Wie gehts?" ++ nl
  ++ "[14:10] Gut" ++ nl
  ++ "[Sprecher: Eva | Audio: 14:07]" ++ nl ++ "Spaet".

Definition t_max_10 : transcript :=
  mk_transcript max_10 (mk_datetime 2024 6 28 14 5 10).
Definition t_max_40 : transcript :=
  mk_transcript max_40 (mk_datetime 2024 6 28 14 5 40).
Definition t_eva_0730 : transcript :=
  mk_transcript eva_0730 (mk_datetime 2024 6 28 14 7 30).

(** [14:05] as [strptime] returns it. *)
Definition at_14_05 : datetime := mk_datetime 1900 1 1 14 5 0.

(** One transcript exactly 60 seconds after the chat line, one 61. *)
Definition t_0600 : transcript :=
  mk_transcript ["tr"; "2024-06-28_14-06-00_Max.txt"] (mk_datetime 2024 6 28 14 6 0).
Definition t_0601 : transcript :=
  mk_transcript ["tr"; "2024-06-28_14-06-01_Eva.txt"] (mk_datetime 2024 6 28 14 6 1).

Definition fs_boundary : fs :=
  fs_of
    [ (chat_txt, "[14:05] Hallo!");
      (path t_0600, "genau");
      (path t_0601, "knapp daneben") ]
    [ (tr_dir, ["2024-06-28_14-06-00_Max.txt"; "2024-06-28_14-06-01_Eva.txt"]) ].

(** The directory lists a transcript that cannot be read. *)
Definition fs_unreadable : fs :=
  fs_of
    [ (chat_txt, "[14:05] Hallo!") ]
    [ (tr_dir, ["2024-06-28_14-05-30_Max.txt"]) ].

(** There is no transcript directory. *)
Definition fs_no_dir : fs :=
  fs_of [ (chat_txt, "[14:05] Hallo!") ] [].

(** The transcript directory lies below a directory that cannot be
    searched: [stat] on it raises. *)
Definition fs_denied : fs :=
  mk_fs (fun p => lookup p [ (chat_txt, "[14:05] Hallo!"); (out_txt, "alt") ])
        (fun _ => None) (fun _ => Granted)
        (fun p => if path_eqb p tr_dir then StatError else NotFound).

(** The output file holds an earlier document and the device takes five
    characters of a new one. *)
Definition fs_full : fs :=
  mk_fs (fun p => lookup p [ (chat_txt, "[14:05] Hallo!"); (out_txt, "alt") ])
        (fun p => lookup p [ (tr_dir, @nil string) ])
        (fun _ => Cut 5) (fun _ => NotFound).

(** An empty directory; the chat file ends with a line feed. *)
Definition fs_final_newline : fs :=
  fs_of [ (chat_txt, "Hallo" ++ nl) ] [ (tr_dir, []) ].

(** An empty directory; the chat file has no final line feed. *)
Definition fs_plain : fs :=
  fs_of [ (chat_txt, "Hallo" ++ nl ++ "Welt") ] [ (tr_dir, []) ].

(** An empty directory; the only chat line holds a form feed. *)
Definition two_pages : string :=
  "[14:05] Seite 1" ++ String (ascii_of_N 12) "Seite 2".

Definition fs_form_feed : fs :=
  fs_of [ (chat_txt, two_pages) ] [ (tr_dir, []) ].

(** The earliest transcript is far from the only chat line; the second
    one is within ten seconds of it. *)
Definition t_early : transcript :=
  mk_transcript ["tr"; "2024-06-28_13-00-00_Eva.txt"] (mk_datetime 2024 6 28 13 0 0).

Definition fs_blocked : fs :=
  fs_of
    [ (chat_txt, "[14:05] Hallo!");
      (path t_early, "Frueh");
      (max_10, "Erster") ]
    [ (tr_dir, ["2024-06-28_14-05-10_Max.txt"; "2024-06-28_13-00-00_Eva.txt"]) ].

(** The earliest transcript is far from both chat lines; the second one
    is exactly 60 seconds after the first chat line. *)
Definition fs_behind : fs :=
  fs_of
    [ (chat_txt, "[14:05] Hallo!" ++ nl ++ "[15:00] Bis dann");
      (path t_early, "Frueh");
      (path t_0600, "genau") ]
    [ (tr_dir, ["2024-06-28_13-00-00_Eva.txt"; "2024-06-28_14-06-00_Max.txt"]) ].

(** Two transcripts that no chat line tolerates; the order of their
    paths is not the order of their timestamps. *)
Definition t_anna_1830 : transcript :=
  mk_transcript ["tr"; "Anna_2024-06-28_18-30-00.txt"] (mk_datetime 2024 6 28 18 30 0).
Definition t_max_1700 : transcript :=
  mk_transcript ["tr"; "Max_2024-06-28_17-00-00.txt"] (mk_datetime 2024 6 28 17 0 0).

Definition fs_late : fs :=
  fs_of
    [ (chat_txt, "[14:05] Hallo!" ++ nl ++ "Bis dann");
      (max_10, "Erster");
      (path t_anna_1830, "Abends");
      (path t_max_1700, "Nachmittags") ]
    [ (tr_dir, ["Anna_2024-06-28_18-30-00.txt"; "Max_2024-06-28_17-00-00.txt";
                "2024-06-28_14-05-10_Max.txt"]) ].

(* ===================================================================== *)
(** * Strings                                                             *)
(* ===================================================================== *)

Lemma sapp_assoc (a b c : string) : (a ++ b) ++ c = a ++ b ++ c.
Proof. induction a as [|x a IH]; simpl; [reflexivity | now rewrite IH]. Qed.

Lemma sapp_nil_r (a : string) : a ++ EmptyString = a.
Proof. induction a as [|x a IH]; simpl; [reflexivity | now rewrite IH]. Qed.

Lemma slength_app (a b : string) :
  String.length (a ++ b) = (String.length a + String.length b)%nat.
Proof. induction a as [|x a IH]; simpl; [reflexivity | now rewrite IH]. Qed.

Lemma substring_whole_prefix (w rest : string) :
  substring 0 (String.length w) (w ++ rest) = w.
Proof.
  induction w as [|x w IH]; simpl.
  - destruct rest; reflexivity.
  - now rewrite IH.
Qed.

Lemma consumed_app (w rest : string) : consumed (w ++ rest) rest = w.
Proof.
  unfold consumed. rewrite slength_app.
  replace (String.length w + String.length rest - String.length rest)%nat
    with (String.length w) by lia.
  apply substring_whole_prefix.
Qed.

Lemma prefix_iff (a b : string) :
  prefix a b = true <-> exists post, b = a ++ post.
Proof.
  revert b. induction a as [|x a IH]; intros b.
  - split; [intros _; now exists b | intros _; now destruct b].
  - destruct b as [|y b]; simpl.
    + split; [discriminate | intros [post H]; discriminate].
    + destruct (ascii_dec x y) as [->|Hne].
      * rewrite IH. split; intros [post H]; exists post; [now subst | now inversion H].
      * split; [discriminate | intros [post H]; congruence].
Qed.

Lemma contains_iff (needle hay : string) :
  contains needle hay = true <-> substring_of needle hay.
Proof.
  unfold substring_of. induction hay as [|c hay IH].
  - cbn [contains]. destruct (prefix needle EmptyString) eqn:E.
    + apply prefix_iff in E. destruct E as [post E].
      split; [intros _; now exists EmptyString, post | reflexivity].
    + split; [discriminate|]. intros [pre [post H]].
      destruct pre; simpl in H; [|discriminate].
      assert (prefix needle EmptyString = true) by (apply prefix_iff; now exists post).
      congruence.
  - cbn [contains]. destruct (prefix needle (String c hay)) eqn:E.
    + apply prefix_iff in E. destruct E as [post E].
      split; [intros _; now exists EmptyString, post | reflexivity].
    + rewrite IH. split.
      * intros [pre [post H]]. exists (String c pre), post. simpl. now rewrite H.
      * intros [pre [post H]]. destruct pre as [|x pre]; simpl in H.
        -- assert (prefix needle (String c hay) = true)
             by (apply prefix_iff; now exists post).
           congruence.
        -- inversion H; subst. now exists pre, post.
Qed.

(* ===================================================================== *)
(** * The matcher finds exactly the matches                               *)
(* ===================================================================== *)

Section MatcherCorrect.
Context {R : Type}.

Lemma star_sound (p : ascii -> bool) (s : string) (k : string -> option R) x :
  star p s k = Some x ->
  exists w rest, s = w ++ rest /\ all_chars p w = true /\ k rest = Some x.
Proof.
  induction s as [|c s IH]; simpl.
  - intros H. now exists EmptyString, EmptyString.
  - destruct (p c) eqn:Hp.
    + destruct (star p s k) as [r|] eqn:E.
      * intros [= <-]. destruct (IH eq_refl) as [w [rest [-> [Hw Hk]]]].
        exists (String c w), rest. simpl. now rewrite Hp, Hw.
      * intros H. now exists EmptyString, (String c s).
    + intros H. now exists EmptyString, (String c s).
Qed.

Lemma star_stays (p : ascii -> bool) (s : string) (k : string -> option R) :
  k s <> None -> star p s k <> None.
Proof.
  destruct s as [|c s]; simpl; [easy|].
  destruct (p c); [|easy]. now destruct (star p s k).
Qed.

Lemma star_complete (p : ascii -> bool) (w rest : string)
      (k : string -> option R) :
  all_chars p w = true -> k rest <> None -> star p (w ++ rest) k <> None.
Proof.
  induction w as [|c w IH]; simpl; intros Hw Hk.
  - now apply star_stays.
  - apply andb_prop in Hw. destruct Hw as [Hc Hw]. rewrite Hc.
    specialize (IH Hw Hk). now destruct (star p (w ++ rest) k).
Qed.

Lemma exec_sound (r : re) :
  forall s m (k : string -> caps -> option R) x,
    exec r s m k = Some x ->
    exists w rest m',
      s = w ++ rest /\ Matches r w rest m m' /\ k rest m' = Some x.
Proof.
  induction r as [|p|a IHa b IHb|a IHa b IHb|a IHa|p|n a IHa|];
    intros s m k x; simpl.
  - intros H. exists EmptyString, s, m. repeat split; [constructor | easy].
  - destruct s as [|c s]; [discriminate|].
    destruct (p c) eqn:Hp; [|discriminate].
    intros H. exists (String c EmptyString), s, m.
    repeat split; [now constructor | easy].
  - intros H. apply IHa in H. destruct H as [w1 [r1 [m1 [-> [Ha H]]]]].
    apply IHb in H. destruct H as [w2 [rest [m2 [-> [Hb H]]]]].
    exists (w1 ++ w2), rest, m2. rewrite sapp_assoc.
    repeat split; [econstructor; eassumption | easy].
  - destruct (exec a s m k) as [y|] eqn:E.
    + intros [= <-]. apply IHa in E. destruct E as [w [rest [m' [-> [Ha H]]]]].
      exists w, rest, m'. repeat split; [now apply M_AltL | easy].
    + intros H. apply IHb in H. destruct H as [w [rest [m' [-> [Hb H]]]]].
      exists w, rest, m'. repeat split; [now apply M_AltR | easy].
  - destruct (exec a s m k) as [y|] eqn:E.
    + intros [= <-]. apply IHa in E. destruct E as [w [rest [m' [-> [Ha H]]]]].
      exists w, rest, m'. repeat split; [now apply M_OptSome | easy].
    + intros H. exists EmptyString, s, m. repeat split; [apply M_OptNone | easy].
  - destruct s as [|c s]; [discriminate|].
    destruct (p c) eqn:Hp; [|discriminate].
    intros H. apply star_sound in H. destruct H as [w [rest [-> [Hw H]]]].
    exists (String c w), rest, m. repeat split; [|easy].
    apply M_Plus; [discriminate | simpl; now rewrite Hp, Hw].
  - intros H. apply IHa in H. destruct H as [w [rest [m' [-> [Ha H]]]]].
    rewrite consumed_app in H.
    exists w, rest, ((n, w) :: m'). repeat split; [now constructor | easy].
  - destruct s as [|c [|c' s]].
    + intros H. exists EmptyString, EmptyString, m.
      repeat split; [constructor; now left | easy].
    + destruct (Ascii.eqb c LF) eqn:E; [|discriminate].
      apply Ascii.eqb_eq in E. subst c.
      intros H. exists EmptyString, (String LF EmptyString), m.
      repeat split; [constructor; now right | easy].
    + discriminate.
Qed.

Lemma exec_complete (r : re) (w rest : string) (m m' : caps) :
  Matches r w rest m m' ->
  forall k : string -> caps -> option R,
    k rest m' <> None -> exec r (w ++ rest) m k <> None.
Proof.
  induction 1 as [rest m|p c rest m Hp|a b w1 w2 rest m m1 m2 _ IH1 _ IH2
                 |a b w rest m m' _ IH|a b w rest m m' _ IH
                 |a w rest m m' _ IH|a rest m|p w rest m Hne Hw
                 |n a w rest m m' _ IH|rest m Hrest];
    intros k Hk; simpl.
  - easy.
  - now rewrite Hp.
  - rewrite sapp_assoc. apply IH1. now apply IH2.
  - specialize (IH k Hk). now destruct (exec a (w ++ rest) m k).
  - specialize (IH k Hk). now destruct (exec a (w ++ rest) m k).
  - specialize (IH k Hk). now destruct (exec a (w ++ rest) m k).
  - now destruct (exec a rest m k).
  - destruct w as [|c w]; [contradiction|]. simpl in Hw |- *.
    apply andb_prop in Hw. destruct Hw as [Hc Hw]. rewrite Hc.
    now apply star_complete.
  - apply IH. now rewrite consumed_app.
  - destruct Hrest as [->| ->]; simpl; easy.
Qed.
End MatcherCorrect.

Lemma re_match_sound (r : re) (s rest : string) (m : caps) :
  re_match r s = Some (m, rest) ->
  exists w, s = w ++ rest /\ Matches r w rest [] m.
Proof.
  unfold re_match. intros H. apply exec_sound in H.
  destruct H as [w [rest' [m' [-> [HM [= -> ->]]]]]]. now exists w.
Qed.

Lemma re_match_complete (r : re) (w rest : string) (m : caps) :
  Matches r w rest [] m -> re_match r (w ++ rest) <> None.
Proof.
  intros H. unfold re_match. now apply (exec_complete r w rest [] m H).
Qed.

Lemma re_search_sound (r : re) (s rest : string) (m : caps) :
  re_search r s = Some (m, rest) ->
  exists pre w, s = pre ++ w ++ rest /\ Matches r w rest [] m.
Proof.
  induction s as [|c s IH]; simpl.
  - destruct (re_match r EmptyString) as [[m0 r0]|] eqn:E; [|discriminate].
    intros [= -> ->]. apply re_match_sound in E. destruct E as [w [E HM]].
    now exists EmptyString, w.
  - destruct (re_match r (String c s)) as [[m0 r0]|] eqn:E.
    + intros [= -> ->]. apply re_match_sound in E. destruct E as [w [E HM]].
      now exists EmptyString, w.
    + intros H. destruct (IH H) as [pre [w [-> HM]]].
      now exists (String c pre), w.
Qed.

Lemma re_search_complete (r : re) (pre w rest : string) (m : caps) :
  Matches r w rest [] m -> re_search r (pre ++ w ++ rest) <> None.
Proof.
  intros HM. induction pre as [|c pre IH].
  - simpl. pose proof (re_match_complete r w rest m HM) as H.
    destruct (w ++ rest); simpl; destruct (re_match r _); easy.
  - simpl. now destruct (re_match r (String c (pre ++ w ++ rest))).
Qed.

(* ===================================================================== *)
(** * What the patterns of the speaker resolver match                     *)
(* ===================================================================== *)

Lemma Matches_chr_inv (c : ascii) (w rest : string) (m m' : caps) :
  Matches (chr c) w rest m m' -> w = String c EmptyString /\ m' = m.
Proof.
  intros H. inversion H; subst.
  match goal with E : Ascii.eqb _ _ = true |- _ => apply Ascii.eqb_eq in E; subst end.
  now split.
Qed.

Lemma Matches_chr_cat (c : ascii) (b : re) (w rest : string) (m m' : caps) :
  Matches b w rest m m' -> Matches (Cat (chr c) b) (String c w) rest m m'.
Proof.
  intros H. apply (M_Cat (chr c) b (String c EmptyString) w rest m m m'); [|exact H].
  constructor. apply Ascii.eqb_refl.
Qed.

Lemma Matches_times_inv (p : ascii -> bool) (n : nat) :
  forall w rest m m',
    Matches (times n (Cls p)) w rest m m' ->
    String.length w = n /\ all_chars p w = true /\ m' = m.
Proof.
  induction n as [|n IH]; intros w rest m m' H; simpl in H.
  - inversion H; subst. now repeat split.
  - inversion H; subst.
    match goal with
    | H1 : Matches (Cls p) _ _ _ _, H2 : Matches (times n _) _ _ _ _ |- _ =>
        inversion H1; subst; apply IH in H2; destruct H2 as [Hl [Ha ->]]
    end.
    simpl. repeat split; [now rewrite Hl | ].
    apply andb_true_intro. now split.
Qed.

Lemma Matches_times_cat (p : ascii -> bool) (n : nat) (b : re) :
  forall w1 w2 rest m m',
    String.length w1 = n -> all_chars p w1 = true ->
    Matches b w2 rest m m' ->
    Matches (Cat (times n (Cls p)) b) (w1 ++ w2) rest m m'.
Proof.
  intros w1 w2 rest m m' Hl Ha Hb.
  apply (M_Cat _ _ w1 w2 rest m m m'); [|exact Hb]. clear Hb.
  revert w1 Hl Ha. induction n as [|n IH]; intros [|c w1] Hl Ha;
    simpl in Hl; try discriminate; simpl.
  - constructor.
  - simpl in Ha. apply andb_prop in Ha. destruct Ha as [Hc Ha].
    apply (M_Cat (Cls p) _ (String c EmptyString) w1 _ m m m).
    + now constructor.
    + apply IH; [lia | exact Ha].
Qed.

Lemma Matches_lit_inv (s : string) :
  forall w rest m m', Matches (lit s) w rest m m' -> w = s /\ m' = m.
Proof.
  induction s as [|c s IH]; intros w rest m m' H; simpl in H.
  - inversion H; subst. now split.
  - inversion H; subst.
    match goal with
    | H1 : Matches (chr c) _ _ _ _, H2 : Matches (lit s) _ _ _ _ |- _ =>
        apply Matches_chr_inv in H1; destruct H1 as [-> ->];
        apply IH in H2; destruct H2 as [-> ->]
    end.
    now split.
Qed.

Lemma Matches_lit_intro (s rest : string) (m : caps) :
  Matches (lit s) s rest m m.
Proof.
  induction s as [|c s IH]; simpl; [constructor | now apply Matches_chr_cat].
Qed.

Lemma Matches_Cat_inv (a b : re) (w rest : string) (m m' : caps) :
  Matches (Cat a b) w rest m m' ->
  exists w1 w2 m1,
    w = w1 ++ w2 /\ Matches a w1 (w2 ++ rest) m m1 /\ Matches b w2 rest m1 m'.
Proof. intros H. inversion H; subst. eauto 6. Qed.

Lemma Matches_Grp_inv (n : nat) (a : re) (w rest : string) (m m' : caps) :
  Matches (Grp n a) w rest m m' ->
  exists m1, m' = (n, w) :: m1 /\ Matches a w rest m m1.
Proof. intros H. inversion H; subst. eauto. Qed.

Lemma Matches_Plus_inv (p : ascii -> bool) (w rest : string) (m m' : caps) :
  Matches (Plus p) w rest m m' ->
  w <> EmptyString /\ all_chars p w = true /\ m' = m.
Proof. intros H. inversion H; subst. auto. Qed.

Lemma Matches_Eos_inv (w rest : string) (m m' : caps) :
  Matches Eos w rest m m' ->
  w = EmptyString /\ (rest = EmptyString \/ rest = String LF EmptyString) /\ m' = m.
Proof. intros H. inversion H; subst. auto. Qed.

Ltac norm_app := repeat (first [rewrite sapp_assoc | progress simpl]).

Ltac invert_matches :=
  repeat match goal with
    | H : Matches (chr _) _ _ _ _ |- _ =>
        apply Matches_chr_inv in H; destruct H as [? ?]; subst
    | H : Matches (times _ digit) _ _ _ _ |- _ =>
        apply Matches_times_inv in H; destruct H as [? [? ?]]; subst
    | H : Matches (lit _) _ _ _ _ |- _ =>
        apply Matches_lit_inv in H; destruct H as [? ?]; subst
    | H : Matches (Cat _ _) _ _ _ _ |- _ =>
        apply Matches_Cat_inv in H; destruct H as [? [? [? [? [? ?]]]]]; subst
    | H : Matches (Grp _ _) _ _ _ _ |- _ =>
        apply Matches_Grp_inv in H; destruct H as [? [? ?]]; subst
    | H : Matches (Plus _) _ _ _ _ |- _ =>
        apply Matches_Plus_inv in H; destruct H as [? [? ?]]; subst
    | H : Matches Eos _ _ _ _ |- _ =>
        apply Matches_Eos_inv in H; destruct H as [? [? ?]]; subst
    end.

Lemma dated_pattern_sound (w rest : string) (m : caps) :
  Matches dated_name_pattern w rest [] m ->
  exists d t name,
    w = d ++ "_" ++ t ++ "_" ++ name ++ ".txt"
    /\ date_shaped d /\ t <> EmptyString
    /\ all_chars (fun c => is_digit c || Ascii.eqb c "-") t = true
    /\ name <> EmptyString /\ all_chars is_dot name = true
    /\ group_str 1 m = name.
Proof.
  unfold dated_name_pattern. intros H. invert_matches.
  match goal with
  | Hy : String.length ?y = 4%nat, Hm : String.length ?mo = 2%nat,
    Hd : String.length ?dd = 2%nat, Ht : all_chars (fun c => _ || _) ?t = true,
    Hn : all_chars is_dot ?name = true |- _ =>
      exists (y ++ "-" ++ mo ++ "-" ++ dd), t, name;
      assert (Hdate : date_shaped (y ++ "-" ++ mo ++ "-" ++ dd))
        by (exists y, mo, dd; unfold digits; auto)
  end.
  split; [norm_app; reflexivity|]. auto 10.
Qed.

Lemma dated_pattern_complete (filename name : string) :
  dated_shape filename name ->
  re_search dated_name_pattern filename <> None.
Proof.
  intros [pre [d [t [post [-> [[y [mo [dd [-> [[Hy1 Hy2] [[Hm1 Hm2] [Hd1 Hd2]]]]]]]
                          [Ht0 [Ht [Hn0 Hn]]]]]]]]].
  assert (HM : Matches dated_name_pattern
                 (y ++ "-" ++ mo ++ "-" ++ dd ++ "_" ++ t ++ "_" ++ name ++ ".txt")
                 post [] [(1%nat, name)]).
  { unfold dated_name_pattern.
    apply Matches_times_cat; [assumption..|]. apply Matches_chr_cat.
    apply Matches_times_cat; [assumption..|]. apply Matches_chr_cat.
    apply Matches_times_cat; [assumption..|]. apply Matches_chr_cat.
    apply (M_Cat _ _ t ("_" ++ name ++ ".txt") post [] [] [(1%nat, name)]);
      [now apply M_Plus|].
    apply Matches_chr_cat.
    apply (M_Cat _ _ name ".txt" post [] [(1%nat, name)] [(1%nat, name)]).
    - apply M_Grp. now apply M_Plus.
    - apply Matches_lit_intro. }
  pose proof (re_search_complete dated_name_pattern pre _ post _ HM) as HS.
  replace (pre ++ (y ++ "-" ++ mo ++ "-" ++ dd) ++ "_" ++ t ++ "_" ++ name ++ ".txt" ++ post)
    with (pre ++ (y ++ "-" ++ mo ++ "-" ++ dd ++ "_" ++ t ++ "_" ++ name ++ ".txt") ++ post).
  - exact HS.
  - norm_app. reflexivity.
Qed.



Lemma first_hit_none (filename : string) (mapping : mapping_t) :
  (forall key val, In (key, val) mapping -> ~ key_occurs key filename) ->
  first_hit (lower filename) mapping = None.
Proof.
  induction mapping as [|[key val] rest IH]; intros H; simpl; [reflexivity|].
  destruct (contains (lower key) (lower filename)) eqn:E.
  - apply contains_iff in E. exfalso. apply (H key val); [now left | exact E].
  - apply IH. intros k v Hin. apply (H k v). now right.
Qed.


(* ===================================================================== *)
(** * The alignment walk                                                  *)
(* ===================================================================== *)

Lemma skipn_head {A : Type} (l : list A) (idx : nat) (x : A) (r : list A) :
  skipn idx l = x :: r -> nth_error l idx = Some x /\ skipn (S idx) l = r.
Proof.
  revert l. induction idx as [|idx IH]; intros [|y l] H; simpl in H;
    try discriminate.
  - inversion H; subst. now split.
  - destruct (IH l H) as [H1 H2]. split; [exact H1|]. exact H2.
Qed.

Lemma skipn_nth {A : Type} (l : list A) (idx : nat) (x : A) :
  nth_error l idx = Some x -> skipn idx l = x :: skipn (S idx) l.
Proof.
  revert l. induction idx as [|idx IH]; intros [|y l] H; simpl in H;
    try discriminate.
  - now inversion H.
  - rewrite skipn_cons. now apply IH.
Qed.

(** On the date of the chat line, the difference is the difference of the
    times of day. *)
Lemma projected_diff_eq (line_time : datetime) (tr : transcript) :
  projected_diff line_time tr
  = seconds_of_day (timestamp tr) - seconds_of_day line_time.
Proof.
  unfold projected_diff, projected, sub_total_seconds, toordinal,
    seconds_of_day, replace_date. simpl. lia.
Qed.

Lemma in_tolerance_apart (line_time : datetime) (tr : transcript) :
  in_tolerance line_time tr = (seconds_apart line_time tr <=? 60).
Proof. unfold in_tolerance, seconds_apart. now rewrite projected_diff_eq. Qed.

(** ** The plan *)

Lemma span_tolerated_spec (line_time : datetime) (trs : list transcript) :
  trs = (fst (span_tolerated line_time trs)
         ++ snd (span_tolerated line_time trs))%list
  /\ Forall (fun tr => in_tolerance line_time tr = true)
            (fst (span_tolerated line_time trs))
  /\ stops_at line_time (snd (span_tolerated line_time trs)).
Proof.
  induction trs as [|tr trs [IH1 [IH2 IH3]]]; simpl.
  - repeat split. constructor.
  - destruct (in_tolerance line_time tr) eqn:E; simpl.
    + repeat split; [now rewrite <- IH1 | now constructor | exact IH3].
    + repeat split; [constructor | exact E].
Qed.

Lemma span_tolerated_unique (line_time : datetime)
      (taken remaining : list transcript) :
  Forall (fun tr => in_tolerance line_time tr = true) taken ->
  stops_at line_time remaining ->
  span_tolerated line_time (taken ++ remaining) = (taken, remaining).
Proof.
  intros Hin Hstop. induction Hin as [|tr taken Htr _ IH]; simpl.
  - destruct remaining as [|tr remaining]; [reflexivity|].
    simpl in Hstop |- *. now rewrite Hstop.
  - now rewrite Htr, IH.
Qed.

Lemma plan_lines (chat_lines : list string) :
  forall trs, map fst (fst (plan chat_lines trs)) = chat_lines.
Proof.
  induction chat_lines as [|line rest IH]; intros trs; simpl;
    [reflexivity | now rewrite IH].
Qed.

Lemma plan_partition (chat_lines : list string) :
  forall trs,
    trs = (concat (map snd (fst (plan chat_lines trs)))
           ++ snd (plan chat_lines trs))%list.
Proof.
  induction chat_lines as [|line rest IH]; intros trs; simpl; [reflexivity|].
  rewrite <- app_assoc, <- IH.
  destruct (chat_time line) as [lt|]; simpl; [|reflexivity].
  apply span_tolerated_spec.
Qed.

Lemma plan_attached (chat_lines : list string) :
  forall trs, Forall attached (fst (plan chat_lines trs)).
Proof.
  induction chat_lines as [|line rest IH]; intros trs; simpl; constructor;
    [|apply IH].
  unfold attached, chat_time. simpl.
  destruct (parse_chat_line_time line) as [[lt|]|e]; simpl; try reflexivity.
  apply span_tolerated_spec.
Qed.

Lemma plan_app (before after : list string) :
  forall trs,
    plan (before ++ after) trs
    = ((fst (plan before trs) ++ fst (plan after (snd (plan before trs))))%list,
       snd (plan after (snd (plan before trs)))).
Proof.
  induction before as [|line rest IH]; intros trs; simpl.
  - now destruct (plan after trs).
  - now rewrite IH.
Qed.

Lemma blocks_app st mapping (a b : list transcript) :
  blocks st mapping (a ++ b)
  = (blocks st mapping a ++ blocks st mapping b)%list.
Proof. unfold blocks. now rewrite map_app, concat_app. Qed.

Lemma render_inline_app st mapping (a b : list (string * list transcript)) :
  render_inline st mapping (a ++ b)
  = (render_inline st mapping a ++ render_inline st mapping b)%list.
Proof. unfold render_inline. now rewrite map_app, concat_app. Qed.

Lemma render_inline_cons st mapping (line : string) (trs : list transcript)
      (segs : list (string * list transcript)) :
  render_inline st mapping ((line, trs) :: segs)
  = (line :: blocks st mapping trs ++ render_inline st mapping segs)%list.
Proof. reflexivity. Qed.

(** ** The loops follow the plan *)

Section WalkCorrect.
Variable st : fs.
Variable mapping : object.
Variable transcripts : list transcript.

Lemma blocks_cons tr trs :
  blocks st mapping (tr :: trs)
  = (block st mapping tr ++ blocks st mapping trs)%list.
Proof. reflexivity. Qed.

Lemma header_line_text tr speaker :
  infer_speaker_obj (path_name (path tr)) mapping = Ok speaker ->
  header_line (py_str speaker) (strftime_HM (timestamp tr))
  = header_text mapping tr.
Proof.
  intros H. unfold header_text, speaker_text, header_line, strftime_HM, clock.
  now rewrite H.
Qed.

Lemma emit_ok tr time acc :
  renderable st mapping tr ->
  strftime_HM time = strftime_HM (timestamp tr) ->
  emit st mapping tr time acc = Ok (acc ++ block st mapping tr)%list.
Proof.
  intros [[speaker Hs] [raw Hraw]] Htime.
  unfold emit, block, body_lines, open_read.
  rewrite Hs, Hraw, Htime. cbn [bind].
  rewrite (header_line_text tr speaker Hs).
  destruct (strip raw); [reflexivity | rewrite <- app_assoc; reflexivity].
Qed.

Lemma emit_projected tr y mo d acc :
  renderable st mapping tr ->
  emit st mapping tr (replace_date (timestamp tr) y mo d) acc
  = Ok (acc ++ block st mapping tr)%list.
Proof. intros H. now apply emit_ok. Qed.

Lemma emit_own tr acc :
  renderable st mapping tr ->
  emit st mapping tr (timestamp tr) acc = Ok (acc ++ block st mapping tr)%list.
Proof. intros H. now apply emit_ok. Qed.

Lemma emit_inv tr time acc acc' :
  emit st mapping tr time acc = Ok acc' -> renderable st mapping tr.
Proof.
  unfold emit, open_read, renderable, resolves, readable.
  destruct (infer_speaker_obj (path_name (path tr)) mapping) as [speaker|e];
    [|discriminate].
  cbn [bind].
  destruct (file_text st (path tr)) as [raw|]; [eauto | discriminate].
Qed.

(** The loop consumes the run of transcripts within tolerance that
    starts at the cursor and stops at the first one out of tolerance. *)
Lemma match_while_run line_time taken :
  forall remaining idx acc n,
    skipn idx transcripts = (taken ++ remaining)%list ->
    Forall (fun tr => in_tolerance line_time tr = true) taken ->
    Forall (renderable st mapping) taken ->
    stops_at line_time remaining ->
    (length taken + length remaining <= n)%nat ->
    match_while st mapping transcripts n line_time idx acc
    = Ok ((idx + length taken)%nat, (acc ++ blocks st mapping taken)%list).
Proof.
  induction taken as [|tr taken IH]; intros remaining idx acc n Hs Hin Hr Hstop Hn.
  - simpl in Hs. rewrite Nat.add_0_r, app_nil_r.
    destruct n as [|n]; [reflexivity|]. simpl.
    destruct remaining as [|tr remaining].
    + apply skipn_all_iff in Hs. apply nth_error_None in Hs. now rewrite Hs.
    + apply skipn_head in Hs. destruct Hs as [Hs _]. rewrite Hs.
      simpl in Hstop. unfold in_tolerance, projected_diff, projected in Hstop.
      now rewrite Hstop.
  - simpl in Hs, Hn. destruct n as [|n]; [lia|].
    apply skipn_head in Hs. destruct Hs as [Hnth Hs].
    inversion Hin as [|? ? Htol Hin']; subst.
    inversion Hr as [|? ? Hrd Hr']; subst.
    simpl. rewrite Hnth.
    unfold in_tolerance, projected_diff, projected in Htol. rewrite Htol.
    rewrite (emit_projected tr _ _ _ acc Hrd). simpl.
    rewrite (IH remaining (S idx) _ n Hs Hin' Hr' Hstop) by lia.
    rewrite blocks_cons, <- app_assoc. f_equal. f_equal. simpl. lia.
Qed.

(** Every return of the loop is of that form. *)
Lemma match_while_stops line_time n :
  forall idx acc idx' acc',
    (length transcripts - idx <= n)%nat ->
    match_while st mapping transcripts n line_time idx acc = Ok (idx', acc') ->
    idx' = (idx + length (fst (span_tolerated line_time
                                 (skipn idx transcripts))))%nat
    /\ skipn idx' transcripts
       = snd (span_tolerated line_time (skipn idx transcripts))
    /\ Forall (renderable st mapping)
              (fst (span_tolerated line_time (skipn idx transcripts)))
    /\ acc' = (acc ++ blocks st mapping
                        (fst (span_tolerated line_time
                                (skipn idx transcripts))))%list.
Proof.
  induction n as [|n IH]; intros idx acc idx' acc' Hn H; simpl in H.
  - inversion H; subst.
    assert (E : skipn idx' transcripts = []) by (apply skipn_all_iff; lia).
    rewrite E. simpl. rewrite Nat.add_0_r, app_nil_r. auto.
  - destruct (nth_error transcripts idx) as [tr|] eqn:Hnth.
    + rewrite (skipn_nth _ _ _ Hnth). cbn [span_tolerated].
      unfold in_tolerance at 1 2 3 4, projected_diff, projected.
      match type of H with
      | (if ?c then _ else _) = _ => destruct c eqn:Htol
      end.
      * destruct (emit st mapping tr _ acc) as [acc1|e] eqn:He; [|discriminate].
        simpl in H. pose proof (emit_inv _ _ _ _ He) as Hrd.
        rewrite (emit_projected tr _ _ _ acc Hrd) in He. inversion He; subst acc1.
        apply IH in H; [|lia]. destruct H as [-> [Hs [Hr ->]]].
        cbn [fst snd length].
        split; [lia|]. split; [exact Hs|]. split; [now constructor|].
        now rewrite blocks_cons, <- app_assoc.
      * inversion H; subst. cbn [fst snd length].
        rewrite Nat.add_0_r, app_nil_r.
        split; [reflexivity|]. split; [now apply skipn_nth|].
        split; [constructor | reflexivity].
    + inversion H; subst.
      assert (E : skipn idx' transcripts = []).
      { apply skipn_all_iff. now apply nth_error_None. }
      rewrite E. simpl. rewrite Nat.add_0_r, app_nil_r. auto.
Qed.

(** The bound [n] never ends the loop early. *)
Lemma match_while_bound line_time n :
  forall idx acc,
    (length transcripts - idx <= n)%nat ->
    match_while st mapping transcripts n line_time idx acc
    = match_while st mapping transcripts (length transcripts - idx)
                  line_time idx acc.
Proof.
  induction n as [|n IH]; intros idx acc Hn.
  - now replace (length transcripts - idx)%nat with 0%nat by lia.
  - destruct (length transcripts - idx)%nat as [|k] eqn:Hk.
    + simpl. assert (H : nth_error transcripts idx = None)
        by (apply nth_error_None; lia).
      now rewrite H.
    + simpl. destruct (nth_error transcripts idx) as [tr|]; [|reflexivity].
      match goal with |- context [if ?c then _ else _] => destruct c end;
        [|reflexivity].
      destruct (emit st mapping tr _ acc) as [acc1|e]; [|reflexivity].
      simpl. rewrite IH by lia. f_equal. lia.
Qed.

Lemma match_while_span line_time idx acc :
  Forall (renderable st mapping)
         (fst (span_tolerated line_time (skipn idx transcripts))) ->
  match_while st mapping transcripts (length transcripts - idx) line_time
              idx acc
  = Ok ((idx + length (fst (span_tolerated line_time
                              (skipn idx transcripts))))%nat,
        (acc ++ blocks st mapping
                  (fst (span_tolerated line_time
                          (skipn idx transcripts))))%list).
Proof.
  intros Hr.
  destruct (span_tolerated_spec line_time (skipn idx transcripts))
    as [Hs [Hin Hstop]].
  apply (match_while_run line_time _ _ idx acc _ Hs Hin Hr Hstop).
  rewrite <- length_app, <- Hs, length_skipn. lia.
Qed.

(** The walk over the chat lines writes the inline part of the plan and
    leaves the cursor before the tail of the plan. *)
Lemma walk_inv chat_lines :
  forall idx acc idx' acc',
    walk st mapping transcripts chat_lines idx acc = Ok (idx', acc') ->
    Forall line_parses chat_lines
    /\ Forall (renderable st mapping)
              (concat (map snd (fst (plan chat_lines (skipn idx transcripts)))))
    /\ skipn idx' transcripts = snd (plan chat_lines (skipn idx transcripts))
    /\ acc' = (acc ++ render_inline st mapping
                        (fst (plan chat_lines (skipn idx transcripts))))%list.
Proof.
  induction chat_lines as [|line rest IH]; intros idx acc idx' acc' H;
    simpl in H.
  - inversion H; subst. simpl. rewrite app_nil_r. auto.
  - cbn [plan]. unfold chat_time.
    destruct (parse_chat_line_time line) as [[lt|]|e] eqn:Hp; simpl in H;
      [| |discriminate].
    + destruct (match_while st mapping transcripts _ lt idx _)
        as [[idx1 acc1]|e] eqn:Hm; [|discriminate].
      simpl in H. apply match_while_stops in Hm; [|lia].
      destruct Hm as [_ [Hs [Hr ->]]].
      apply IH in H. rewrite Hs in H. destruct H as [Hl [Hr' [Hs' ->]]].
      cbn [fst snd map concat].
      split; [constructor; [now exists (Some lt) | exact Hl]|].
      split; [apply Forall_app; now split|].
      split; [exact Hs'|].
      rewrite render_inline_cons, <- !app_assoc. reflexivity.
    + apply IH in H. destruct H as [Hl [Hr' [Hs' ->]]].
      cbn [fst snd map concat app].
      split; [constructor; [now exists None | exact Hl]|].
      split; [exact Hr'|]. split; [exact Hs'|].
      rewrite render_inline_cons, <- !app_assoc. reflexivity.
Qed.

Lemma walk_run chat_lines :
  forall idx acc,
    Forall line_parses chat_lines ->
    Forall (renderable st mapping)
           (concat (map snd (fst (plan chat_lines (skipn idx transcripts))))) ->
    exists idx',
      walk st mapping transcripts chat_lines idx acc
      = Ok (idx', (acc ++ render_inline st mapping
                            (fst (plan chat_lines (skipn idx transcripts))))%list)
      /\ skipn idx' transcripts
         = snd (plan chat_lines (skipn idx transcripts)).
Proof.
  induction chat_lines as [|line rest IH]; intros idx acc Hl Hr.
  - exists idx. simpl. rewrite app_nil_r. auto.
  - inversion Hl as [|? ? [t Ht] Hl']; subst.
    revert Hr. cbn [plan walk]. unfold chat_time. rewrite Ht. cbn [bind].
    destruct t as [lt|]; cbn [fst snd map concat]; intros Hr.
    + apply Forall_app in Hr. destruct Hr as [Hr1 Hr2].
      rewrite (match_while_span lt idx _ Hr1). cbn [bind].
      assert (Hs : skipn (idx + length (fst (span_tolerated lt
                                               (skipn idx transcripts))))
                         transcripts
                   = snd (span_tolerated lt (skipn idx transcripts))).
      { destruct (span_tolerated_spec lt (skipn idx transcripts)) as [E _].
        rewrite Nat.add_comm, <- skipn_skipn. rewrite E at 2.
        now rewrite skipn_app, skipn_all, Nat.sub_diag. }
      rewrite <- Hs in Hr2 |- *.
      destruct (IH _ ((acc ++ [line]) ++ blocks st mapping
                        (fst (span_tolerated lt (skipn idx transcripts))))%list
                  Hl' Hr2) as [idx' [Hw Hs']].
      exists idx'. rewrite Hw. split; [|exact Hs'].
      rewrite render_inline_cons, <- !app_assoc. reflexivity.
    + simpl in Hr.
      destruct (IH idx (acc ++ [line])%list Hl' Hr) as [idx' [Hw Hs']].
      exists idx'. rewrite Hw. split; [|exact Hs'].
      rewrite render_inline_cons, <- !app_assoc. reflexivity.
Qed.

Lemma append_remaining_run k :
  forall idx acc,
    length (skipn idx transcripts) = k ->
    Forall (renderable st mapping) (skipn idx transcripts) ->
    append_remaining st mapping transcripts (seq idx k) acc
    = Ok (acc ++ blocks st mapping (skipn idx transcripts))%list.
Proof.
  induction k as [|k IH]; intros idx acc Hk Hr; simpl.
  - apply length_zero_iff_nil in Hk. rewrite Hk. simpl. now rewrite app_nil_r.
  - destruct (skipn idx transcripts) as [|tr r] eqn:Hs; [discriminate|].
    apply skipn_head in Hs. destruct Hs as [Hnth Hs]. rewrite Hnth.
    inversion Hr as [|? ? Hrd Hr']; subst.
    rewrite (emit_own tr acc Hrd). simpl.
    rewrite IH; [|now inversion Hk|exact Hr'].
    now rewrite blocks_cons, <- app_assoc.
Qed.

Lemma append_remaining_inv k :
  forall idx acc acc',
    length (skipn idx transcripts) = k ->
    append_remaining st mapping transcripts (seq idx k) acc = Ok acc' ->
    Forall (renderable st mapping) (skipn idx transcripts).
Proof.
  induction k as [|k IH]; intros idx acc acc' Hk H; simpl in H.
  - apply length_zero_iff_nil in Hk. rewrite Hk. constructor.
  - destruct (skipn idx transcripts) as [|tr r] eqn:Hs; [discriminate|].
    apply skipn_head in Hs. destruct Hs as [Hnth Hs]. rewrite Hnth in H.
    destruct (emit st mapping tr _ acc) as [acc1|e] eqn:He; [|discriminate].
    simpl in H. constructor; [now apply emit_inv in He|].
    subst r. apply (IH (S idx) acc1 acc'); [now inversion Hk | exact H].
Qed.

(** Lines 103-136 return the lines of the plan, or raise. *)
Lemma merged_lines_cases chat :
  (exists e, merged_lines st mapping transcripts chat = Raise e)
  \/ (exists content,
        file_text st chat = Some content
        /\ Forall line_parses (splitlines content)
        /\ Forall (renderable st mapping) transcripts
        /\ merged_lines st mapping transcripts chat
           = Ok (render st mapping
                        (fst (plan (splitlines content) transcripts))
                        (snd (plan (splitlines content) transcripts)))).
Proof.
  unfold merged_lines, open_read.
  destruct (file_text st chat) as [content|]; cbn [bind]; [|eauto].
  destruct (walk st mapping transcripts (splitlines content) 0 [])
    as [[idx acc]|e] eqn:Hw; cbn [bind]; [|eauto].
  apply walk_inv in Hw. cbn [skipn] in Hw. destruct Hw as [Hl [Hr [Hs ->]]].
  destruct (append_remaining st mapping transcripts _ _) as [lines|e] eqn:Ha;
    [|eauto].
  right. exists content.
  pose proof (append_remaining_inv _ idx _ _ (length_skipn idx transcripts) Ha)
    as Hrt.
  rewrite (append_remaining_run _ idx _ (length_skipn idx transcripts) Hrt) in Ha.
  inversion Ha; subst lines. rewrite Hs in Hrt |- *.
  repeat split; auto.
  rewrite (plan_partition (splitlines content) transcripts).
  apply Forall_app. now split.
Qed.

Lemma merged_lines_run chat content :
  file_text st chat = Some content ->
  Forall line_parses (splitlines content) ->
  Forall (renderable st mapping) transcripts ->
  merged_lines st mapping transcripts chat
  = Ok (render st mapping (fst (plan (splitlines content) transcripts))
               (snd (plan (splitlines content) transcripts))).
Proof.
  intros Hc Hl Hr. unfold merged_lines, open_read. rewrite Hc. cbn [bind].
  pose proof (plan_partition (splitlines content) transcripts) as Hp.
  rewrite Hp in Hr. apply Forall_app in Hr. destruct Hr as [Hr1 Hr2].
  destruct (walk_run (splitlines content) 0 [] Hl Hr1) as [idx [Hw Hs]].
  cbn [skipn] in Hw, Hs. rewrite Hw. cbn [bind].
  rewrite <- Hs in Hr2.
  rewrite (append_remaining_run _ idx _ (length_skipn idx transcripts) Hr2).
  now rewrite Hs.
Qed.
End WalkCorrect.

(* ===================================================================== *)
(** * Sorting and the list of transcripts                                 *)
(* ===================================================================== *)

Section SortCorrect.
Context {A : Type} (leb : A -> A -> bool).
Hypothesis leb_total : forall a b, leb a b = true \/ leb b a = true.

Lemma insert_perm (x : A) (l : list A) : Permutation (insert leb x l) (x :: l).
Proof.
  induction l as [|y l IH]; simpl; [reflexivity|].
  destruct (leb x y); [reflexivity|].
  rewrite IH. apply perm_swap.
Qed.

Lemma sort_by_perm (l : list A) : Permutation (sort_by leb l) l.
Proof.
  induction l as [|x l IH]; simpl; [reflexivity|].
  rewrite insert_perm. now constructor.
Qed.

Lemma insert_sorted (x : A) (l : list A) :
  Sorted (fun a b => leb a b = true) l ->
  Sorted (fun a b => leb a b = true) (insert leb x l).
Proof.
  induction 1 as [|y l Hs IH Hhd]; simpl; [repeat constructor|].
  destruct (leb x y) eqn:E.
  - constructor; [now constructor | now constructor].
  - constructor; [exact IH|].
    destruct l as [|z l]; simpl.
    + constructor. destruct (leb_total x y); congruence.
    + destruct (leb x z).
      * constructor. destruct (leb_total x y); congruence.
      * constructor. now inversion Hhd.
Qed.

Lemma sort_by_sorted (l : list A) :
  Sorted (fun a b => leb a b = true) (sort_by leb l).
Proof.
  induction l as [|x l IH]; simpl; [constructor | now apply insert_sorted].
Qed.
End SortCorrect.

Lemma Sorted_app_r {A : Type} (R : A -> A -> Prop) (a b : list A) :
  Sorted R (a ++ b) -> Sorted R b.
Proof.
  induction a as [|x a IH]; simpl; [easy|].
  intros H. inversion H; subst. now apply IH.
Qed.

Lemma Sorted_app_l {A : Type} (R : A -> A -> Prop) (a b : list A) :
  Sorted R (a ++ b) -> Sorted R a.
Proof.
  induction a as [|x a IH]; simpl; [constructor|].
  intros H. inversion H as [|? ? Hs Hhd]; subst. constructor; [now apply IH|].
  destruct a; simpl in *; [constructor | inversion Hhd; now constructor].
Qed.

Lemma Sorted_skipn {A : Type} (R : A -> A -> Prop) (n : nat) (l : list A) :
  Sorted R l -> Sorted R (skipn n l).
Proof.
  intros H. rewrite <- (firstn_skipn n l) in H. now apply Sorted_app_r in H.
Qed.

Lemma filter_perm {A : Type} (f : A -> bool) (l l' : list A) :
  Permutation l l' -> Permutation (filter f l) (filter f l').
Proof.
  induction 1 as [|x l l' _ IH|x y l|l l' l'' _ IH1 _ IH2]; simpl.
  - constructor.
  - destruct (f x); [now constructor | exact IH].
  - destruct (f x), (f y); try reflexivity. apply perm_swap.
  - now rewrite IH1.
Qed.

Lemma lex_leb_total (a b : list Z) : lex_leb a b = true \/ lex_leb b a = true.
Proof.
  revert b. induction a as [|x a IH]; intros [|y b]; simpl; auto.
  destruct (x <? y) eqn:E1, (y <? x) eqn:E2; auto.
Qed.

Lemma ts_leb_total (a b : transcript) : ts_leb a b = true \/ ts_leb b a = true.
Proof. apply lex_leb_total. Qed.

Lemma strptime_raises_ValueError (data fmt : string) (e : exn) :
  strptime data fmt = Raise e -> e = ValueError.
Proof.
  unfold strptime, datetime_new.
  destruct (format_regex fmt); [|congruence].
  destruct (re_match _ data) as [[m [|c rest]]|]; [|congruence..].
  match goal with |- context [if ?c then _ else _] => destruct c end; congruence.
Qed.

(** The parser of file names returns for every file name. *)
Lemma parse_transcript_timestamp_total (filename : string) :
  exists o, parse_transcript_timestamp filename = Ok o.
Proof.
  unfold parse_transcript_timestamp.
  destruct (re_search transcript_pattern filename) as [[m rest]|]; [|eauto].
  match goal with |- context [strptime ?d ?f] =>
    destruct (strptime d f) as [t|e] eqn:E
  end; [eauto|].
  apply strptime_raises_ValueError in E. subst e. eauto.
Qed.

Lemma datetime_new_valid (y mo d h mi s : Z) (t : datetime) :
  datetime_new y mo d h mi s = Ok t ->
  t = mk_datetime y mo d h mi s /\ valid_datetime t.
Proof.
  unfold datetime_new.
  match goal with |- context [if ?c then _ else _] => destruct c eqn:E end;
    [|discriminate].
  intros [= <-]. split; [reflexivity|].
  repeat (apply andb_prop in E; destruct E as [E ?]).
  unfold valid_datetime. simpl. lia.
Qed.

Lemma strptime_valid (data fmt : string) (t : datetime) :
  strptime data fmt = Ok t -> valid_datetime t.
Proof.
  unfold strptime. destruct (format_regex fmt); [|discriminate].
  destruct (re_match _ data) as [[m [|c rest]]|]; [|discriminate..].
  intros H. now apply datetime_new_valid in H.
Qed.

Lemma valid_day_le_31 (t : datetime) : valid_datetime t -> 1 <= day t <= 31.
Proof.
  intros (_ & _ & Hd & _). unfold days_in_month in Hd.
  repeat match type of Hd with
         | context [if ?c then _ else _] => destruct c
         end; lia.
Qed.

Lemma stamped_valid (tr : transcript) :
  stamped tr -> valid_datetime (timestamp tr).
Proof.
  unfold stamped, parse_transcript_timestamp.
  destruct (re_search transcript_pattern (path_name (path tr)))
    as [[m rest]|]; [|discriminate].
  match goal with |- context [strptime ?d ?f] =>
    destruct (strptime d f) as [t'|e] eqn:E
  end.
  - intros [= <-]. now apply strptime_valid in E.
  - destruct e; discriminate.
Qed.

(** On calendar dates and times of day the comparison of [datetime]
    values is the order of time. *)
Lemma dt_leb_time_key (a b : datetime) :
  valid_datetime a -> valid_datetime b ->
  dt_leb a b = true -> time_key a <= time_key b.
Proof.
  intros Ha Hb.
  pose proof (valid_day_le_31 a Ha) as Hda.
  pose proof (valid_day_le_31 b Hb) as Hdb.
  destruct Ha as (Hy & Hmo & _ & Hh & Hmi & Hs).
  destruct Hb as (Hy' & Hmo' & _ & Hh' & Hmi' & Hs').
  unfold dt_leb, fields, time_key. cbn [lex_leb].
  repeat match goal with
         | |- context [?x <? ?y] =>
             let E := fresh "E" in
             destruct (x <? y) eqn:E;
             [apply Z.ltb_lt in E | apply Z.ltb_ge in E]
         end; intros H; try discriminate; lia.
Qed.

Lemma ascending_chronological (trs : list transcript) :
  Forall stamped trs -> ascending trs -> chronological trs.
Proof.
  unfold ascending, chronological.
  induction trs as [|a trs IH]; intros Hst Hs; [constructor|].
  inversion Hst as [|? ? Ha Hst']; subst.
  inversion Hs as [|? ? Hs' Hhd]; subst.
  constructor; [now apply IH|].
  destruct trs as [|b trs]; constructor.
  inversion Hhd; subst. inversion Hst' as [|? ? Hb _]; subst.
  apply dt_leb_time_key; [now apply stamped_valid | now apply stamped_valid|].
  assumption.
Qed.

Lemma collect_spec (files : list Path) :
  exists l, collect files = Ok l
            /\ map path l = filter has_timestamp files
            /\ Forall stamped l.
Proof.
  induction files as [|file rest [l [Hc [Hm Hs]]]]; simpl.
  - exists []. auto.
  - unfold has_timestamp.
    destruct (parse_transcript_timestamp_total (path_name file)) as [o Ho].
    rewrite Ho, Hc. simpl. destruct o as [t|].
    + exists (mk_transcript file t :: l). simpl. rewrite Hm.
      repeat split; auto.
    + exists l. auto.
Qed.

(** Lines 95-101 return the items with a timestamp, each once, in
    ascending order of timestamp. *)
Lemma load_transcripts_spec (st : fs) (transcript_dir : Path)
      (files : list Path) :
  glob_txt st transcript_dir = Ok files ->
  exists transcripts,
    load_transcripts st transcript_dir = Ok transcripts
    /\ ascending transcripts
    /\ Permutation (map path transcripts) (filter has_timestamp files)
    /\ Forall stamped transcripts.
Proof.
  intros Hg. unfold load_transcripts. rewrite Hg. cbn [bind].
  destruct (collect_spec (sort_by path_leb files)) as [l [Hc [Hm Hs]]].
  rewrite Hc. simpl. exists (sort_by ts_leb l). split; [reflexivity|].
  split; [apply sort_by_sorted, ts_leb_total|]. split.
  - rewrite (Permutation_map path (sort_by_perm ts_leb l)), Hm.
    apply filter_perm, sort_by_perm.
  - apply (Permutation_Forall (Permutation_sym (sort_by_perm ts_leb l)) Hs).
Qed.

Lemma load_transcripts_inv (st : fs) (dir : Path)
      (transcripts : list transcript) :
  load_transcripts st dir = Ok transcripts ->
  exists files,
    glob_txt st dir = Ok files
    /\ ascending transcripts
    /\ Permutation (map path transcripts) (filter has_timestamp files)
    /\ Forall stamped transcripts.
Proof.
  intros H. destruct (glob_txt st dir) as [files|e] eqn:Hg.
  - destruct (load_transcripts_spec st dir files Hg) as [l [Hl Hspec]].
    rewrite Hl in H. inversion H; subst. now exists files.
  - unfold load_transcripts in H. rewrite Hg in H. discriminate.
Qed.

Lemma load_transcripts_chronological (st : fs) (dir : Path)
      (transcripts : list transcript) :
  load_transcripts st dir = Ok transcripts -> chronological transcripts.
Proof.
  intros H. apply load_transcripts_inv in H.
  destruct H as [files [_ [Ha [_ Hs]]]]. now apply ascending_chronological.
Qed.

Lemma load_transcripts_raises (st : fs) (dir : Path) (e : exn) :
  load_transcripts st dir = Raise e -> stat st dir = StatError.
Proof.
  intros H. unfold load_transcripts, glob_txt in H.
  destruct (stat st dir); [| |reflexivity];
    (destruct (dir_entries st dir) as [names|]; cbn [bind] in H;
     [destruct (collect_spec (sort_by path_leb
                   (map (path_div dir) (filter (endswith ".txt") names))))
        as [l [Hc _]]; rewrite Hc in H
     |]; discriminate).
Qed.

(* ===================================================================== *)
(** * Line separators                                                     *)
(* ===================================================================== *)

Lemma join_lines_text (lines : list string) :
  join_lines lines = lines_text lines.
Proof.
  unfold join_lines. induction lines as [|l ls IH]; [reflexivity|].
  destruct ls as [|l' ls]; [reflexivity|].
  cbn [String.concat lines_text]. cbn [String.concat] in IH.
  now rewrite IH.
Qed.

Lemma splitlines_nonempty (c : ascii) (s : string) :
  splitlines (String c s) <> [].
Proof.
  simpl. destruct (is_linebreak c).
  - destruct s as [|c' s]; [discriminate|].
    destruct (Ascii.eqb c CR && Ascii.eqb c' LF); discriminate.
  - destruct (splitlines s); discriminate.
Qed.

Lemma join_lines_cons_char (c : ascii) (l : string) (ls : list string) :
  join_lines (String c l :: ls) = String c (join_lines (l :: ls)).
Proof. unfold join_lines. simpl. now destruct ls. Qed.

Lemma join_lines_cons_empty (l : string) (ls : list string) :
  join_lines (EmptyString :: l :: ls) = String LF (join_lines (l :: ls)).
Proof. reflexivity. Qed.

(** Joining the lines of a text gives the text back when the line feed is
    its only line boundary and it does not end with one. *)
Lemma join_splitlines (s : string) :
  only_LF_breaks s -> ends_with_LF s = false -> join_lines (splitlines s) = s.
Proof.
  unfold only_LF_breaks.
  induction s as [|c s IH]; intros Hb He; [reflexivity|].
  simpl in Hb. apply andb_prop in Hb. destruct Hb as [Hc Hb].
  assert (He' : s <> EmptyString -> ends_with_LF s = false).
  { intros Hs. destruct s; [contradiction | exact He]. }
  cbn [splitlines]. destruct (is_linebreak c) eqn:Hlb.
  - simpl in Hc. apply Ascii.eqb_eq in Hc. subst c.
    destruct s as [|c' s]; [discriminate|].
    replace (Ascii.eqb LF CR) with false by reflexivity. cbn [andb].
    specialize (IH Hb (He' ltac:(discriminate))).
    pose proof (splitlines_nonempty c' s) as Hne.
    destruct (splitlines (String c' s)) as [|l ls]; [contradiction|].
    rewrite join_lines_cons_empty, IH. reflexivity.
  - destruct s as [|c' s]; [reflexivity|].
    specialize (IH Hb (He' ltac:(discriminate))).
    pose proof (splitlines_nonempty c' s) as Hne.
    destruct (splitlines (String c' s)) as [|l ls]; [contradiction|].
    rewrite join_lines_cons_char, IH. reflexivity.
Qed.

(** When the line feed is the only line boundary of a text, the lines the
    program cuts it into are its lines. *)
Lemma splitlines_text_lines (s : string) :
  only_LF_breaks s -> splitlines s = text_lines s.
Proof.
  unfold only_LF_breaks.
  induction s as [|c s IH]; intros Hb; [reflexivity|].
  simpl in Hb. apply andb_prop in Hb. destruct Hb as [Hc Hb].
  specialize (IH Hb). cbn [splitlines text_lines].
  destruct (is_linebreak c) eqn:Hlb.
  - simpl in Hc. rewrite Hc. apply Ascii.eqb_eq in Hc. subst c.
    destruct s as [|c' s]; [reflexivity|].
    replace (Ascii.eqb LF CR) with false by reflexivity. cbn [andb].
    now rewrite IH.
  - assert (E : Ascii.eqb c LF = false).
    { destruct (Ascii.eqb c LF) eqn:E; [|reflexivity].
      apply Ascii.eqb_eq in E. subst c. discriminate. }
    rewrite E, IH. reflexivity.
Qed.

(* ===================================================================== *)
(** * Runs of merge_transcripts                                           *)
(* ===================================================================== *)

Lemma path_eqb_refl (p : Path) : path_eqb p p = true.
Proof. unfold path_eqb. now destruct (list_eq_dec string_dec p p). Qed.

Lemma set_text_at (st : fs) (p : Path) (text : string) :
  file_text (set_text st p text) p = Some text.
Proof. simpl. now rewrite path_eqb_refl. Qed.

Lemma open_write_ok (st st' : fs) (p : Path) (content : string) :
  open_write st p content = (Ok tt, st') ->
  can_write st p = Granted /\ st' = set_text st p content.
Proof.
  unfold open_write. destruct (can_write st p); [discriminate..|].
  intros [= <-]. now split.
Qed.

Lemma open_write_raises (st st' : fs) (p : Path) (content : string) (e : exn) :
  open_write st p content = (Raise e, st') ->
  (can_write st p = Refused /\ st' = st)
  \/ (exists n, can_write st p = Cut n
                /\ st' = set_text st p (substring 0 n content)).
Proof.
  unfold open_write. destruct (can_write st p) as [|n|]; intros [= <- <-];
    [now left | right; now exists n].
Qed.

Lemma readable_paths (st : fs) (files : list Path) (trs : list transcript) :
  Permutation (map path trs) (filter has_timestamp files) ->
  (forall p, In p files -> has_timestamp p = true -> file_text st p <> None) ->
  Forall (readable st) trs.
Proof.
  intros Hp H. apply Forall_forall. intros tr Hin.
  assert (Hin' : In (path tr) (filter has_timestamp files)).
  { apply (Permutation_in _ Hp). now apply in_map. }
  apply filter_In in Hin'. destruct Hin' as [Hf Ht].
  specialize (H _ Hf Ht). unfold readable.
  destruct (file_text st (path tr)) as [raw|]; [eauto | contradiction].
Qed.

(** Every run either raises before line 138, and then leaves the file
    system as it was, or reads all it needs and ends with the write of
    the document of the plan. *)
Lemma merge_cases safe_load chat dir out settings st :
  (exists e, merge_transcripts safe_load chat dir out settings st = (Raise e, st))
  \/ (exists mapping content transcripts,
        load_settings safe_load st settings = Ok mapping
        /\ load_transcripts st dir = Ok transcripts
        /\ file_text st chat = Some content
        /\ Forall line_parses (splitlines content)
        /\ Forall (renderable st mapping) transcripts
        /\ merge_transcripts safe_load chat dir out settings st
           = open_write st out
               (planned_text st mapping (splitlines content) transcripts)).
Proof.
  unfold merge_transcripts.
  destruct (load_settings safe_load st settings) as [mapping|e];
    cbn [bind]; [|eauto].
  destruct (load_transcripts st dir) as [transcripts|e]; cbn [bind]; [|eauto].
  destruct (merged_lines_cases st mapping transcripts chat)
    as [[e He]|[content [Hc [Hl [Hr He]]]]]; rewrite He; [eauto|].
  right. exists mapping, content, transcripts.
  repeat split; auto. now rewrite join_lines_text.
Qed.

Lemma merge_run safe_load chat dir out settings st mapping content transcripts :
  load_settings safe_load st settings = Ok mapping ->
  load_transcripts st dir = Ok transcripts ->
  file_text st chat = Some content ->
  Forall line_parses (splitlines content) ->
  Forall (renderable st mapping) transcripts ->
  merge_transcripts safe_load chat dir out settings st
  = open_write st out (planned_text st mapping (splitlines content) transcripts).
Proof.
  intros Hs Hl Hc Hp Hr. unfold merge_transcripts.
  rewrite Hs, Hl. cbn [bind].
  rewrite (merged_lines_run st mapping transcripts chat content Hc Hp Hr).
  now rewrite join_lines_text.
Qed.

(** Every run that returns has read all it needs and has written the
    document of the plan. *)
Lemma merge_ok_inv safe_load chat dir out settings st st' :
  merge_transcripts safe_load chat dir out settings st = (Ok tt, st') ->
  exists mapping content transcripts,
    load_settings safe_load st settings = Ok mapping
    /\ load_transcripts st dir = Ok transcripts
    /\ file_text st chat = Some content
    /\ Forall line_parses (splitlines content)
    /\ Forall (renderable st mapping) transcripts
    /\ can_write st out = Granted
    /\ st' = set_text st out
               (planned_text st mapping (splitlines content) transcripts).
Proof.
  intros H.
  destruct (merge_cases safe_load chat dir out settings st)
    as [[e He]|[mapping [content [transcripts [Hs [Hl [Hc [Hp [Hr He]]]]]]]]];
    rewrite He in H; [discriminate|].
  apply open_write_ok in H. destruct H as [Hw ->].
  exists mapping, content, transcripts. auto 10.
Qed.

(** A run that raises leaves the file system as it was, unless it is the
    final write that fails after the output file was opened. *)
Lemma merge_raise_inv safe_load chat dir out settings st st' e :
  merge_transcripts safe_load chat dir out settings st = (Raise e, st') ->
  st' = st
  \/ exists n mapping content transcripts,
       can_write st out = Cut n
       /\ load_settings safe_load st settings = Ok mapping
       /\ load_transcripts st dir = Ok transcripts
       /\ file_text st chat = Some content
       /\ Forall (renderable st mapping) transcripts
       /\ st' = set_text st out
                  (substring 0 n (planned_text st mapping (splitlines content)
                                               transcripts)).
Proof.
  intros H.
  destruct (merge_cases safe_load chat dir out settings st)
    as [[e' He]|[mapping [content [transcripts [Hs [Hl [Hc [Hp [Hr He]]]]]]]]];
    rewrite He in H.
  - left. congruence.
  - apply open_write_raises in H. destruct H as [[_ ->]|[n [Hw ->]]];
      [now left|].
    right. exists n, mapping, content, transcripts. auto 10.
Qed.

(* ===================================================================== *)
(** * Properties of the merged document                                   *)
(* ===================================================================== *)

Lemma plan_pair (chat_lines : list string) (trs : list transcript) :
  plan chat_lines trs = (fst (plan chat_lines trs), snd (plan chat_lines trs)).
Proof. apply surjective_pairing. Qed.

(** C1, as the claim states it, fails: the directory of [fs_cluster] has
    the item [voice_note.txt], whose name gives no timestamp; the run
    returns and the text of the item is nowhere in the document. *)
Lemma untimestamped_item_dropped :
  glob_txt fs_cluster tr_dir = Ok [voice_note; eva_0730; max_40; max_10]
  /\ file_text fs_cluster voice_note = Some "Sprachnotiz"
  /\ merge_transcripts safe_load_examples chat_txt tr_dir out_txt None fs_cluster
     = (Ok tt, set_text fs_cluster out_txt cluster_document)
  /\ contains "Sprachnotiz" cluster_document = false.
Proof. repeat split; vm_compute; reflexivity. Qed.

(** C1 (amended).  In every run that returns, every item of the transcript
    directory whose file name gives a timestamp appears exactly once in
    the output document, either after a chat line whose time it is within
    tolerance of or in the appended tail: the transcripts that the plan
    attaches to the chat lines, followed by the tail of the plan, are a
    rearrangement of the items with a timestamp, and the text written to
    the output path is the chat lines, each followed by the blocks of its
    transcripts, then the blocks of the tail, one line feed between two
    lines.  An item whose file name gives no timestamp is left out of the
    document. *)
Theorem timestamped_items_placed_once safe_load chat dir out settings st st' :
  merge_transcripts safe_load chat dir out settings st = (Ok tt, st') ->
  exists mapping content files transcripts segs tail,
    load_settings safe_load st settings = Ok mapping
    /\ file_text st chat = Some content
    /\ glob_txt st dir = Ok files
    /\ load_transcripts st dir = Ok transcripts
    /\ plan (splitlines content) transcripts = (segs, tail)
    /\ map fst segs = splitlines content
    /\ Forall attached segs
    /\ file_text st' out = Some (lines_text (render st mapping segs tail))
    /\ Permutation (map path (concat (map snd segs) ++ tail))
                   (filter has_timestamp files)
    /\ Forall stamped (concat (map snd segs) ++ tail).
Proof.
  intros H. apply merge_ok_inv in H.
  destruct H as [mapping [content [transcripts
                   [Hs [Hl [Hc [Hp [Hr [Hw ->]]]]]]]]].
  destruct (load_transcripts_inv _ _ _ Hl) as [files [Hg [_ [Hperm Hst]]]].
  exists mapping, content, files, transcripts,
    (fst (plan (splitlines content) transcripts)),
    (snd (plan (splitlines content) transcripts)).
  rewrite <- (plan_partition (splitlines content) transcripts).
  repeat split; auto.
  - apply plan_pair.
  - apply plan_lines.
  - apply plan_attached.
  - apply set_text_at.
Qed.

Lemma timestamped_items_placed_once_witness :
  exists mapping content files transcripts segs tail,
    load_settings safe_load_examples fs_cluster None = Ok mapping
    /\ file_text fs_cluster chat_txt = Some content
    /\ glob_txt fs_cluster tr_dir = Ok files
    /\ load_transcripts fs_cluster tr_dir = Ok transcripts
    /\ plan (splitlines content) transcripts = (segs, tail)
    /\ map fst segs = splitlines content
    /\ Forall attached segs
    /\ file_text (set_text fs_cluster out_txt cluster_document) out_txt
       = Some (lines_text (render fs_cluster mapping segs tail))
    /\ Permutation (map path (concat (map snd segs) ++ tail))
                   (filter has_timestamp files)
    /\ Forall stamped (concat (map snd segs) ++ tail).
Proof.
  apply (timestamped_items_placed_once safe_load_examples chat_txt tr_dir
           out_txt None fs_cluster).
  vm_compute. reflexivity.
Defined.

(** C5, as the claim states it, fails: the chat file of [fs_form_feed] is
    one line that holds a form feed; the program cuts it there, and the
    output has a line feed in the place of the form feed. *)
Lemma form_feed_cuts_chat_line :
  text_lines two_pages = [two_pages]
  /\ glob_txt fs_form_feed tr_dir = Ok []
  /\ merge_transcripts safe_load_examples chat_txt tr_dir out_txt None
                       fs_form_feed
     = (Ok tt, set_text fs_form_feed out_txt
                        ("[14:05] Seite 1" ++ nl ++ "Seite 2"))
  /\ ~ In two_pages (text_lines ("[14:05] Seite 1" ++ nl ++ "Seite 2")).
Proof.
  repeat split; try (vm_compute; reflexivity).
  vm_compute. intros [H|[H|[]]]; discriminate.
Qed.

(** C5 (amended).  In every run that returns, the text written to the
    output path is the lines the program cuts the chat file into, each
    unchanged and in the order of the file, each followed by the blocks
    of the transcripts inserted after it (possibly none), and the blocks
    of the remaining transcripts at the end.  When the line feed is the
    only line boundary in the chat file, these lines are the lines of the
    chat file: no chat line is dropped, altered or moved. *)
Theorem chat_lines_preserved safe_load chat dir out settings st st' content :
  merge_transcripts safe_load chat dir out settings st = (Ok tt, st') ->
  file_text st chat = Some content ->
  exists mapping segs tail,
    map fst segs = splitlines content
    /\ (only_LF_breaks content -> map fst segs = text_lines content)
    /\ file_text st' out
       = Some (lines_text
                 (concat (map (fun seg => fst seg :: blocks st mapping (snd seg))
                              segs)
                  ++ blocks st mapping tail)).
Proof.
  intros H Hc. apply merge_ok_inv in H.
  destruct H as [mapping [content' [transcripts
                   [Hs [Hl [Hc' [Hp [Hr [Hw ->]]]]]]]]].
  assert (E : content' = content) by congruence. subst content'.
  exists mapping, (fst (plan (splitlines content) transcripts)),
    (snd (plan (splitlines content) transcripts)).
  split; [apply plan_lines|]. split.
  - intros Hb. rewrite plan_lines. now apply splitlines_text_lines.
  - apply set_text_at.
Qed.

Lemma chat_lines_preserved_witness :
  exists mapping segs tail,
    map fst segs
    = splitlines ("[14:05] Hallo!" ++ nl ++ "Wie gehts?" ++ nl ++ "[14:10] Gut")
    /\ (only_LF_breaks ("[14:05] Hallo!" ++ nl ++ "Wie gehts?" ++ nl
                        ++ "[14:10] Gut") ->
        map fst segs
        = text_lines ("[14:05] Hallo!" ++ nl ++ "Wie gehts?" ++ nl
                      ++ "[14:10] Gut"))
    /\ file_text (set_text fs_cluster out_txt cluster_document) out_txt
       = Some (lines_text
                 (concat (map (fun seg =>
                                 fst seg :: blocks fs_cluster mapping (snd seg))
                              segs)
                  ++ blocks fs_cluster mapping tail)).
Proof.
  apply (chat_lines_preserved safe_load_examples chat_txt tr_dir out_txt None
           fs_cluster).
  - vm_compute. reflexivity.
  - reflexivity.
Defined.

(** C6.  In every run that returns, the transcripts that the walk over
    the chat lines did not consume, which are the tail of the plan, are
    written after the last chat line, at the end of the document and
    nowhere else, in the order of time, each as its header line, which
    names the speaker and the time, followed by its text.  What stands
    between the chat lines are the blocks of transcripts attached to
    these lines. *)
Theorem unmatched_appended_at_end safe_load chat dir out settings st st' :
  merge_transcripts safe_load chat dir out settings st = (Ok tt, st') ->
  exists mapping content transcripts segs tail,
    load_settings safe_load st settings = Ok mapping
    /\ file_text st chat = Some content
    /\ load_transcripts st dir = Ok transcripts
    /\ plan (splitlines content) transcripts = (segs, tail)
    /\ map fst segs = splitlines content
    /\ transcripts = (concat (map snd segs) ++ tail)%list
    /\ Forall attached segs
    /\ file_text st' out
       = Some (lines_text
                 (render_inline st mapping segs
                  ++ concat
                       (map (fun tr =>
                               ("[Sprecher: "
                                ++ speaker_text mapping (path_name (path tr))
                                ++ " | Audio: " ++ clock (timestamp tr) ++ "]")
                               :: body_lines st tr)
                            tail)))
    /\ chronological tail.
Proof.
  intros H. apply merge_ok_inv in H.
  destruct H as [mapping [content [transcripts
                   [Hs [Hl [Hc [Hp [Hr [Hw ->]]]]]]]]].
  exists mapping, content, transcripts,
    (fst (plan (splitlines content) transcripts)),
    (snd (plan (splitlines content) transcripts)).
  split; [exact Hs|]. split; [exact Hc|]. split; [exact Hl|].
  split; [apply plan_pair|]. split; [apply plan_lines|].
  split; [apply plan_partition|]. split; [apply plan_attached|].
  split; [apply set_text_at|].
  apply load_transcripts_chronological in Hl.
  rewrite (plan_partition (splitlines content) transcripts) in Hl.
  now apply Sorted_app_r in Hl.
Qed.

Lemma unmatched_appended_at_end_witness :
  exists mapping content transcripts segs tail,
    load_settings safe_load_examples fs_late None = Ok mapping
    /\ file_text fs_late chat_txt = Some content
    /\ load_transcripts fs_late tr_dir = Ok transcripts
    /\ plan (splitlines content) transcripts = (segs, tail)
    /\ map fst segs = splitlines content
    /\ transcripts = (concat (map snd segs) ++ tail)%list
    /\ Forall attached segs
    /\ file_text
         (snd (merge_transcripts safe_load_examples chat_txt tr_dir out_txt
                                 None fs_late)) out_txt
       = Some (lines_text
                 (render_inline fs_late mapping segs
                  ++ concat
                       (map (fun tr =>
                               ("[Sprecher: "
                                ++ speaker_text mapping (path_name (path tr))
                                ++ " | Audio: " ++ clock (timestamp tr) ++ "]")
                               :: body_lines fs_late tr)
                            tail)))
    /\ chronological tail.
Proof.
  apply (unmatched_appended_at_end safe_load_examples chat_txt tr_dir out_txt
           None fs_late).
  vm_compute. reflexivity.
Defined.

(* ===================================================================== *)
(** * The matching rule                                                   *)
(* ===================================================================== *)

Lemma tolerated_within (line_time : datetime) (trs : list transcript) :
  Forall (fun tr => seconds_apart line_time tr <= 60) trs ->
  Forall (fun tr => in_tolerance line_time tr = true) trs.
Proof.
  intros H. apply Forall_forall. intros tr Hin.
  rewrite Forall_forall in H. specialize (H tr Hin).
  rewrite in_tolerance_apart. now apply Z.leb_le.
Qed.

Lemma stops_at_apart (line_time : datetime) (trs : list transcript) :
  (forall tr, hd_error trs = Some tr -> 60 < seconds_apart line_time tr) ->
  stops_at line_time trs.
Proof.
  destruct trs as [|tr trs]; simpl; [easy|]. intros H.
  rewrite in_tolerance_apart. apply Z.leb_gt. now apply H.
Qed.

(** C2.  For a chat line that carries a time, the walk tests the
    transcript at the cursor again and again.  [taken ++ remaining] are
    the transcripts the lines before have left.  The transcripts
    [taken], which are within 60 seconds of the time of the line, are
    written right after the line, in the order of the sorted list,
    which is the order of time, and the cursor moves past them; at the
    first transcript more than 60 seconds apart (or at the end of the
    list) the walk goes on to the next chat line with [remaining], whose
    first transcript is not consumed by this line.  The run returns and
    the text at the output path is: the part for the lines before, the
    line, the blocks of [taken], the part for the lines after planned
    with [remaining]. *)
Theorem walk_consumes_cluster safe_load chat dir out settings st mapping
        content transcripts before line after line_time taken remaining :
  load_settings safe_load st settings = Ok mapping ->
  file_text st chat = Some content ->
  Forall line_parses (splitlines content) ->
  load_transcripts st dir = Ok transcripts ->
  Forall (renderable st mapping) transcripts ->
  can_write st out = Granted ->
  splitlines content = (before ++ line :: after)%list ->
  parse_chat_line_time line = Ok (Some line_time) ->
  snd (plan before transcripts) = (taken ++ remaining)%list ->
  Forall (fun tr => seconds_apart line_time tr <= 60) taken ->
  (forall tr, hd_error remaining = Some tr ->
              60 < seconds_apart line_time tr) ->
  merge_transcripts safe_load chat dir out settings st
  = (Ok tt,
     set_text st out
       (lines_text
          (render_inline st mapping (fst (plan before transcripts))
           ++ line :: blocks st mapping taken
           ++ render st mapping (fst (plan after remaining))
                     (snd (plan after remaining)))))
  /\ chronological taken.
Proof.
  intros Hs Hc Hp Hl Hr Hw Hlines Hpl Hcur Hin Hstop. split.
  - rewrite (merge_run _ _ _ _ _ _ _ _ _ Hs Hl Hc Hp Hr).
    unfold open_write. rewrite Hw. f_equal. f_equal.
    unfold planned_text. rewrite Hlines, plan_app. cbn [fst snd].
    rewrite Hcur. cbn [plan]. unfold chat_time. rewrite Hpl.
    rewrite (span_tolerated_unique line_time taken remaining
               (tolerated_within _ _ Hin) (stops_at_apart _ _ Hstop)).
    cbn [fst snd]. unfold render.
    rewrite render_inline_app, render_inline_cons.
    repeat (rewrite <- app_assoc || rewrite <- app_comm_cons). reflexivity.
  - apply load_transcripts_chronological in Hl.
    rewrite (plan_partition before transcripts), Hcur in Hl.
    apply Sorted_app_r in Hl. now apply Sorted_app_l in Hl.
Qed.

Lemma walk_consumes_cluster_witness :
  merge_transcripts safe_load_examples chat_txt tr_dir out_txt None fs_cluster
  = (Ok tt,
     set_text fs_cluster out_txt
       (lines_text
          (render_inline fs_cluster no_mapping
                         (fst (plan [] [t_max_10; t_max_40; t_eva_0730]))
           ++ "[14:05] Hallo!"
              :: blocks fs_cluster no_mapping [t_max_10; t_max_40]
           ++ render fs_cluster no_mapping
                     (fst (plan ["Wie gehts?"; "[14:10] Gut"] [t_eva_0730]))
                     (snd (plan ["Wie gehts?"; "[14:10] Gut"] [t_eva_0730])))))
  /\ chronological [t_max_10; t_max_40].
Proof.
  apply (walk_consumes_cluster safe_load_examples chat_txt tr_dir out_txt None
           fs_cluster no_mapping
           ("[14:05] Hallo!" ++ nl ++ "Wie gehts?" ++ nl ++ "[14:10] Gut")
           [t_max_10; t_max_40; t_eva_0730] [] "[14:05] Hallo!"
           ["Wie gehts?"; "[14:10] Gut"] at_14_05
           [t_max_10; t_max_40] [t_eva_0730]).
  - reflexivity.
  - reflexivity.
  - repeat constructor; eexists; vm_compute; reflexivity.
  - vm_compute. reflexivity.
  - repeat constructor; eexists; vm_compute; reflexivity.
  - reflexivity.
  - vm_compute. reflexivity.
  - vm_compute. reflexivity.
  - reflexivity.
  - repeat constructor; vm_compute; discriminate.
  - intros tr [= <-]. vm_compute. reflexivity.
Defined.

(** C3, as the claim states it, fails: in [fs_behind] the second
    transcript is exactly 60 seconds after the first chat line, but the
    cursor stands on the first transcript, which is more than an hour
    before that line; the second transcript is not written after the
    first chat line: it comes in the tail, after the second chat line. *)
Lemma boundary_transcript_behind_cursor :
  load_transcripts fs_behind tr_dir = Ok [t_early; t_0600]
  /\ parse_chat_line_time "[14:05] Hallo!" = Ok (Some at_14_05)
  /\ seconds_apart at_14_05 t_0600 = 60
  /\ merge_transcripts safe_load_examples chat_txt tr_dir out_txt None fs_behind
     = (Ok tt,
        set_text fs_behind out_txt
          ("[14:05] Hallo!" ++ nl
           ++ "[15:00] Bis dann" ++ nl
           ++ "[Sprecher: Eva | Audio: 13:00]" ++ nl ++ "Frueh" ++ nl
           ++ "[Sprecher: Max | Audio: 14:06]" ++ nl ++ "genau")).
Proof. repeat split; vm_compute; reflexivity. Qed.

(** C3 (amended).  The tolerance is inclusive at 60 seconds for the
    transcript at the cursor.  [tr :: remaining] are the transcripts the
    lines before have left when the walk reaches a chat line with a
    time.  When the time of day of [tr] is exactly 60 seconds from the
    time of the line, the block of [tr] is written right after the line,
    and the loop goes on with [remaining] for the same line.  When the
    two are 61 seconds or more apart, nothing is written after this line:
    the walk goes on to the next chat line with [tr :: remaining], so
    neither [tr] nor a transcript behind it is matched to this line. *)
Theorem tolerance_boundary safe_load chat dir out settings st mapping
        content transcripts before line after line_time tr remaining :
  load_settings safe_load st settings = Ok mapping ->
  file_text st chat = Some content ->
  Forall line_parses (splitlines content) ->
  load_transcripts st dir = Ok transcripts ->
  Forall (renderable st mapping) transcripts ->
  can_write st out = Granted ->
  splitlines content = (before ++ line :: after)%list ->
  parse_chat_line_time line = Ok (Some line_time) ->
  snd (plan before transcripts) = tr :: remaining ->
  (seconds_apart line_time tr = 60 ->
   merge_transcripts safe_load chat dir out settings st
   = (Ok tt,
      set_text st out
        (lines_text
           (render_inline st mapping (fst (plan before transcripts))
            ++ line :: block st mapping tr
            ++ blocks st mapping (fst (span_tolerated line_time remaining))
            ++ render st mapping
                 (fst (plan after (snd (span_tolerated line_time remaining))))
                 (snd (plan after (snd (span_tolerated line_time remaining))))))))
  /\ (61 <= seconds_apart line_time tr ->
      merge_transcripts safe_load chat dir out settings st
      = (Ok tt,
         set_text st out
           (lines_text
              (render_inline st mapping (fst (plan before transcripts))
               ++ line :: render st mapping
                            (fst (plan after (tr :: remaining)))
                            (snd (plan after (tr :: remaining))))))).
Proof.
  intros Hs Hc Hp Hl Hr Hw Hlines Hpl Hcur.
  assert (E : merge_transcripts safe_load chat dir out settings st
              = (Ok tt,
                 set_text st out
                   (lines_text
                      (render_inline st mapping (fst (plan before transcripts))
                       ++ render st mapping
                            (fst (plan (line :: after) (tr :: remaining)))
                            (snd (plan (line :: after) (tr :: remaining))))))).
  { rewrite (merge_run _ _ _ _ _ _ _ _ _ Hs Hl Hc Hp Hr).
    unfold open_write. rewrite Hw. f_equal. f_equal.
    unfold planned_text. rewrite Hlines, plan_app. cbn [fst snd].
    rewrite Hcur. unfold render.
    rewrite render_inline_app.
    repeat (rewrite <- app_assoc || rewrite <- app_comm_cons). reflexivity. }
  rewrite E. clear E. cbn [plan]. unfold chat_time. rewrite Hpl.
  cbn [span_tolerated]. rewrite in_tolerance_apart.
  split; intros Habs.
  - rewrite Habs. cbn [Z.leb Z.compare Pos.compare Pos.compare_cont fst snd].
    unfold render.
    rewrite render_inline_cons, blocks_cons.
    repeat (rewrite <- app_assoc || rewrite <- app_comm_cons). reflexivity.
  - replace (seconds_apart line_time tr <=? 60) with false
      by (symmetry; apply Z.leb_gt; lia).
    cbn [fst snd]. unfold render. rewrite render_inline_cons. reflexivity.
Qed.

Lemma tolerance_boundary_witness :
  merge_transcripts safe_load_examples chat_txt tr_dir out_txt None fs_boundary
  = (Ok tt,
     set_text fs_boundary out_txt
       (lines_text
          (render_inline fs_boundary no_mapping
                         (fst (plan [] [t_0600; t_0601]))
           ++ "[14:05] Hallo!" :: block fs_boundary no_mapping t_0600
           ++ blocks fs_boundary no_mapping
                     (fst (span_tolerated at_14_05 [t_0601]))
           ++ render fs_boundary no_mapping
                (fst (plan [] (snd (span_tolerated at_14_05 [t_0601]))))
                (snd (plan [] (snd (span_tolerated at_14_05 [t_0601])))))))
  /\ merge_transcripts safe_load_examples chat_txt tr_dir out_txt None fs_cluster
     = (Ok tt,
        set_text fs_cluster out_txt
          (lines_text
             (render_inline fs_cluster no_mapping
                (fst (plan ["[14:05] Hallo!"; "Wie gehts?"]
                           [t_max_10; t_max_40; t_eva_0730]))
              ++ "[14:10] Gut"
                 :: render fs_cluster no_mapping
                      (fst (plan [] [t_eva_0730]))
                      (snd (plan [] [t_eva_0730]))))).
Proof.
  split.
  - apply (proj1 (tolerance_boundary safe_load_examples chat_txt tr_dir out_txt
                    None fs_boundary no_mapping "[14:05] Hallo!"
                    [t_0600; t_0601] [] "[14:05] Hallo!" [] at_14_05 t_0600
                    [t_0601] eq_refl eq_refl
                    ltac:(repeat constructor; eexists; vm_compute; reflexivity)
                    ltac:(vm_compute; reflexivity)
                    ltac:(repeat constructor; eexists; vm_compute; reflexivity)
                    eq_refl ltac:(vm_compute; reflexivity)
                    ltac:(vm_compute; reflexivity) eq_refl)).
    vm_compute. reflexivity.
  - apply (proj2 (tolerance_boundary safe_load_examples chat_txt tr_dir out_txt
                    None fs_cluster no_mapping
                    ("[14:05] Hallo!" ++ nl ++ "Wie gehts?" ++ nl
                     ++ "[14:10] Gut")
                    [t_max_10; t_max_40; t_eva_0730]
                    ["[14:05] Hallo!"; "Wie gehts?"] "[14:10] Gut" []
                    (mk_datetime 1900 1 1 14 10 0) t_eva_0730 []
                    eq_refl eq_refl
                    ltac:(repeat constructor; eexists; vm_compute; reflexivity)
                    ltac:(vm_compute; reflexivity)
                    ltac:(repeat constructor; eexists; vm_compute; reflexivity)
                    eq_refl ltac:(vm_compute; reflexivity)
                    ltac:(vm_compute; reflexivity)
                    ltac:(vm_compute; reflexivity))).
    vm_compute. discriminate.
Defined.

(* ===================================================================== *)
(** * Failures                                                            *)
(* ===================================================================== *)

(** C4.  The parser of chat lines raises on a time token that is no
    valid time: [strptime] raises [ValueError] on hour 25 and
    [parse_chat_line_time] does not catch it.  The parser of file names
    catches the same exception and returns [None]. *)
Theorem chat_line_hour_25_raises :
  parse_chat_line_time "[25:00] Hallo" = Raise ValueError
  /\ parse_transcript_timestamp "2024-13-01_10-00-00_Max.txt" = Ok None.
Proof. split; vm_compute; reflexivity. Qed.

(** C7, as the claim states it, fails: the only transcript of
    [fs_unreadable] cannot be read; the run raises and writes nothing. *)
Lemma unreadable_transcript_is_fatal :
  glob_txt fs_unreadable tr_dir = Ok [["tr"; "2024-06-28_14-05-30_Max.txt"]]
  /\ file_text fs_unreadable ["tr"; "2024-06-28_14-05-30_Max.txt"] = None
  /\ merge_transcripts safe_load_examples chat_txt tr_dir out_txt None
                       fs_unreadable
     = (Raise OSError, fs_unreadable)
  /\ file_text fs_unreadable out_txt = None.
Proof. repeat split; vm_compute; auto. Qed.

(** C7 (amended).  If a transcript file of the directory whose name gives
    a timestamp cannot be read, the merge fails: the run ends with an
    exception, it writes nothing, and the file system is as it was. *)
Theorem unreadable_transcript_aborts safe_load chat dir out settings st
        files p :
  glob_txt st dir = Ok files ->
  In p files ->
  has_timestamp p = true ->
  file_text st p = None ->
  exists e, merge_transcripts safe_load chat dir out settings st = (Raise e, st).
Proof.
  intros Hg Hin Hts Hnone.
  destruct (merge_cases safe_load chat dir out settings st)
    as [He|[mapping [content [transcripts [Hs [Hl [Hc [Hp [Hr He]]]]]]]]];
    [exact He|].
  exfalso. apply load_transcripts_inv in Hl.
  destruct Hl as [files' [Hg' [_ [Hperm _]]]].
  assert (E : files' = files) by congruence. subst files'.
  assert (Hin' : In p (map path transcripts)).
  { apply (Permutation_in _ (Permutation_sym Hperm)).
    apply filter_In. now split. }
  apply in_map_iff in Hin'. destruct Hin' as [tr [<- Hin']].
  rewrite Forall_forall in Hr. destruct (Hr tr Hin') as [_ [raw Hraw]].
  congruence.
Qed.

Lemma unreadable_transcript_aborts_witness :
  exists e, merge_transcripts safe_load_examples chat_txt tr_dir out_txt None
                              fs_unreadable
            = (Raise e, fs_unreadable).
Proof.
  apply (unreadable_transcript_aborts safe_load_examples chat_txt tr_dir
           out_txt None fs_unreadable
           [["tr"; "2024-06-28_14-05-30_Max.txt"]]
           ["tr"; "2024-06-28_14-05-30_Max.txt"]).
  - vm_compute. reflexivity.
  - now left.
  - vm_compute. reflexivity.
  - vm_compute. reflexivity.
Defined.

Lemma render_inline_no_transcripts st mapping (chat_lines : list string) :
  render_inline st mapping (fst (plan chat_lines [])) = chat_lines
  /\ snd (plan chat_lines []) = [].
Proof.
  induction chat_lines as [|line rest [IH1 IH2]]; [now split|].
  cbn [plan].
  assert (E : match chat_time line with
              | Some line_time => span_tolerated line_time []
              | None => ([], [])
              end = (@nil transcript, @nil transcript))
    by (now destruct (chat_time line)).
  rewrite E. cbn [fst snd]. rewrite render_inline_cons, IH1, IH2.
  now split.
Qed.

Lemma planned_text_no_transcripts st mapping (chat_lines : list string) :
  planned_text st mapping chat_lines [] = lines_text chat_lines.
Proof.
  unfold planned_text, render.
  destruct (render_inline_no_transcripts st mapping chat_lines) as [E1 E2].
  rewrite E1, E2. unfold blocks. simpl. now rewrite app_nil_r.
Qed.

Lemma load_no_transcripts (st : fs) (dir : Path) :
  glob_txt st dir = Ok [] -> load_transcripts st dir = Ok [].
Proof. intros H. unfold load_transcripts. now rewrite H. Qed.

(** Without transcript items the document is the chat lines. *)
Lemma merge_no_transcripts safe_load chat dir out settings st st' content :
  glob_txt st dir = Ok [] ->
  file_text st chat = Some content ->
  merge_transcripts safe_load chat dir out settings st = (Ok tt, st') ->
  file_text st' out = Some (lines_text (splitlines content)).
Proof.
  intros Hg Hc H. apply merge_ok_inv in H.
  destruct H as [mapping [content' [transcripts
                   [Hs [Hl [Hc' [Hp [Hr [Hw ->]]]]]]]]].
  assert (E : content' = content) by congruence. subst content'.
  rewrite (load_no_transcripts st dir Hg) in Hl. inversion Hl; subst.
  now rewrite set_text_at, planned_text_no_transcripts.
Qed.

Lemma str_keys_first_hit (lower_name : string) (items : list (object * object)) :
  Forall (fun kv => exists k, fst kv = Str k) items ->
  exists hit, first_hit_obj lower_name items = Ok hit.
Proof.
  induction 1 as [|[key val] items [k Hk] _ [hit IH]]; simpl; [eauto|].
  simpl in Hk. subst key.
  destruct (contains (lower k) lower_name); eauto.
Qed.

(** A [dict] whose keys are all [str] gives every file name a speaker. *)
Lemma str_keys_resolve (mapping : object) (filename : string) :
  str_keys mapping ->
  exists speaker, infer_speaker_obj filename mapping = Ok speaker.
Proof.
  intros [items [text [-> Hk]]]. unfold infer_speaker_obj.
  destruct (str_keys_first_hit (lower filename) items Hk) as [hit ->].
  cbn [bind]. destruct hit as [val|]; [eauto|].
  destruct (re_search dated_name_pattern filename) as [[m r]|]; [eauto|].
  destruct (re_search loose_name_pattern filename) as [[m r]|]; eauto.
Qed.

(** C8, as the claim states it, fails: [fs_no_dir] has no transcript
    directory; the run does not abort, it exits with status 0 and writes
    the output. *)
Lemma missing_directory_is_not_fatal :
  dir_entries fs_no_dir tr_dir = None
  /\ stat fs_no_dir tr_dir = NotFound
  /\ main safe_load_examples chat_txt tr_dir out_txt None fs_no_dir
     = (0, set_text fs_no_dir out_txt "[14:05] Hallo!").
Proof. repeat split; vm_compute; reflexivity. Qed.

(** C8 (amended).  If the chat file cannot be opened, or [stat] on the
    transcript directory fails with an error that is not absence, the run
    aborts with a non-zero exit status and the file system, and so the
    output path, is as it was.  A run that aborts leaves the file system
    as it was unless the abort is the failure of the final write, after
    the output file was opened: then the output file holds the part of
    the document that was written.  The run exits with status 0 when the
    settings load, the chat file opens, every chat line has no time token
    or a valid one, every file of the directory whose name gives a
    timestamp can be read and has a speaker, and the output can be
    written, whatever the other files of the directory are.  A transcript
    directory that is absent or cannot be scanned does not abort the run:
    it is read as a directory without transcripts, and the output is the
    chat lines. *)
Theorem exit_status_and_output safe_load chat dir out settings st :
  (file_text st chat = None ->
   main safe_load chat dir out settings st = (1, st))
  /\ (stat st dir = StatError ->
      main safe_load chat dir out settings st = (1, st))
  /\ (fst (main safe_load chat dir out settings st) <> 0 ->
      snd (main safe_load chat dir out settings st) = st
      \/ exists n mapping content transcripts,
           can_write st out = Cut n
           /\ load_settings safe_load st settings = Ok mapping
           /\ load_transcripts st dir = Ok transcripts
           /\ file_text st chat = Some content
           /\ snd (main safe_load chat dir out settings st)
              = set_text st out
                  (substring 0 n (planned_text st mapping (splitlines content)
                                               transcripts)))
  /\ (forall mapping content files,
         load_settings safe_load st settings = Ok mapping ->
         glob_txt st dir = Ok files ->
         file_text st chat = Some content ->
         Forall line_parses (splitlines content) ->
         (forall p, In p files -> has_timestamp p = true ->
                    file_text st p <> None
                    /\ exists speaker,
                         infer_speaker_obj (path_name p) mapping = Ok speaker) ->
         can_write st out = Granted ->
         fst (main safe_load chat dir out settings st) = 0)
  /\ (forall mapping content,
         load_settings safe_load st settings = Ok mapping ->
         dir_entries st dir = None ->
         stat st dir <> StatError ->
         file_text st chat = Some content ->
         Forall line_parses (splitlines content) ->
         can_write st out = Granted ->
         main safe_load chat dir out settings st
         = (0, set_text st out (lines_text (splitlines content)))).
Proof.
  split; [|split; [|split; [|split]]].
  - intros Hnone. unfold main.
    destruct (merge_cases safe_load chat dir out settings st)
      as [[e He]|[mapping [content [transcripts [Hs [Hl [Hc _]]]]]]];
      [now rewrite He | congruence].
  - intros Hstat. unfold main.
    destruct (merge_cases safe_load chat dir out settings st)
      as [[e He]|[mapping [content [transcripts [Hs [Hl _]]]]]];
      [now rewrite He|].
    unfold load_transcripts, glob_txt in Hl. rewrite Hstat in Hl. discriminate.
  - unfold main.
    destruct (merge_transcripts safe_load chat dir out settings st)
      as [[[]|e] st'] eqn:E; cbn [fst snd]; [easy|].
    intros _. apply merge_raise_inv in E.
    destruct E as [->|[n [mapping [content [transcripts
                        [Hw [Hs [Hl [Hc [_ ->]]]]]]]]]]; [now left|].
    right. exists n, mapping, content, transcripts. auto.
  - intros mapping content files Hs Hg Hc Hp Hfiles Hw.
    destruct (load_transcripts_spec st dir files Hg)
      as [transcripts [Hl [_ [Hperm _]]]].
    assert (Hr : Forall (renderable st mapping) transcripts).
    { apply Forall_forall. intros tr Hin.
      assert (Hin' : In (path tr) (filter has_timestamp files)).
      { apply (Permutation_in _ Hperm). now apply in_map. }
      apply filter_In in Hin'. destruct Hin' as [Hf Ht].
      destruct (Hfiles _ Hf Ht) as [Hrd Hsp]. split; [exact Hsp|].
      unfold readable.
      destruct (file_text st (path tr)) as [raw|]; [eauto | contradiction]. }
    unfold main. rewrite (merge_run _ _ _ _ _ _ _ _ _ Hs Hl Hc Hp Hr).
    unfold open_write. now rewrite Hw.
  - intros mapping content Hs Hd Hstat Hc Hp Hw.
    assert (Hg : glob_txt st dir = Ok []).
    { unfold glob_txt. rewrite Hd. now destruct (stat st dir). }
    unfold main.
    rewrite (merge_run _ _ _ _ _ _ _ _ _ Hs (load_no_transcripts _ _ Hg) Hc Hp
               (Forall_nil _)).
    unfold open_write. rewrite Hw. now rewrite planned_text_no_transcripts.
Qed.

Lemma exit_status_and_output_witness :
  main safe_load_examples ["missing.txt"] tr_dir out_txt None fs_cluster
  = (1, fs_cluster)
  /\ main safe_load_examples chat_txt tr_dir out_txt None fs_denied
     = (1, fs_denied)
  /\ (snd (main safe_load_examples chat_txt tr_dir out_txt None fs_full)
      = fs_full
      \/ exists n mapping content transcripts,
           can_write fs_full out_txt = Cut n
           /\ load_settings safe_load_examples fs_full None = Ok mapping
           /\ load_transcripts fs_full tr_dir = Ok transcripts
           /\ file_text fs_full chat_txt = Some content
           /\ snd (main safe_load_examples chat_txt tr_dir out_txt None fs_full)
              = set_text fs_full out_txt
                  (substring 0 n (planned_text fs_full mapping
                                               (splitlines content)
                                               transcripts)))
  /\ fst (main safe_load_examples chat_txt tr_dir out_txt (Some settings_yml)
               fs_cluster) = 0
  /\ main safe_load_examples chat_txt tr_dir out_txt None fs_no_dir
     = (0, set_text fs_no_dir out_txt (lines_text (splitlines "[14:05] Hallo!"))).
Proof.
  split; [|split; [|split; [|split]]].
  - apply (proj1 (exit_status_and_output safe_load_examples ["missing.txt"]
                    tr_dir out_txt None fs_cluster)).
    reflexivity.
  - apply (proj1 (proj2 (exit_status_and_output safe_load_examples chat_txt
                           tr_dir out_txt None fs_denied))).
    reflexivity.
  - apply (proj1 (proj2 (proj2 (exit_status_and_output safe_load_examples
                                  chat_txt tr_dir out_txt None fs_full)))).
    vm_compute. discriminate.
  - apply (proj1 (proj2 (proj2 (proj2
             (exit_status_and_output safe_load_examples chat_txt tr_dir
                out_txt (Some settings_yml) fs_cluster))))
             (Dict [(Str "max", Str "Maximilian")] "{'max': 'Maximilian'}")
             ("[14:05] Hallo!" ++ nl ++ "Wie gehts?" ++ nl ++ "[14:10] Gut")
             [voice_note; eva_0730; max_40; max_10]).
    + vm_compute. reflexivity.
    + vm_compute. reflexivity.
    + reflexivity.
    + repeat constructor; eexists; vm_compute; reflexivity.
    + intros p Hin Hts. split.
      * vm_compute in Hin.
        repeat (destruct Hin as [<-|Hin]; [vm_compute; discriminate|]).
        destruct Hin.
      * apply str_keys_resolve. eexists. eexists. split; [reflexivity|].
        repeat constructor. simpl. eauto.
    + reflexivity.
  - apply (proj2 (proj2 (proj2 (proj2
             (exit_status_and_output safe_load_examples chat_txt tr_dir
                out_txt None fs_no_dir))))
             no_mapping "[14:05] Hallo!").
    + reflexivity.
    + reflexivity.
    + vm_compute. discriminate.
    + reflexivity.
    + repeat constructor; eexists; vm_compute; reflexivity.
    + reflexivity.
Defined.

(* ===================================================================== *)
(** * A directory without transcripts                                     *)
(* ===================================================================== *)

(** C10, as the claim states it, fails: the chat file of
    [fs_final_newline] ends with a line feed, its directory is empty, and
    the output lacks the line feed. *)
Lemma final_newline_not_written_back :
  glob_txt fs_final_newline tr_dir = Ok []
  /\ file_text fs_final_newline chat_txt = Some ("Hallo" ++ nl)
  /\ exists st',
       merge_transcripts safe_load_examples chat_txt tr_dir out_txt None
                         fs_final_newline
       = (Ok tt, st')
       /\ file_text st' out_txt = Some "Hallo"
       /\ file_text st' out_txt <> file_text fs_final_newline chat_txt.
Proof.
  split; [reflexivity|]. split; [reflexivity|].
  eexists. split; [vm_compute; reflexivity|].
  split; [vm_compute; reflexivity|]. vm_compute. discriminate.
Qed.

(** C10 (amended).  When the transcript directory contains no transcript
    items, the output of a run that returns is the lines of the chat file
    joined by single line feeds: every chat line unchanged and in order.
    It is the content of the chat file itself when the line feed is the
    only line boundary of that content and the content does not end with
    one. *)
Theorem no_transcripts_gives_chat_lines safe_load chat dir out settings
        st st' content :
  glob_txt st dir = Ok [] ->
  file_text st chat = Some content ->
  merge_transcripts safe_load chat dir out settings st = (Ok tt, st') ->
  file_text st' out = Some (join_lines (splitlines content))
  /\ (only_LF_breaks content -> ends_with_LF content = false ->
      file_text st' out = Some content).
Proof.
  intros Hg Hc H.
  pose proof (merge_no_transcripts safe_load chat dir out settings st st'
                content Hg Hc H) as Hout.
  rewrite <- join_lines_text in Hout.
  split; [exact Hout|].
  intros Hb He. now rewrite Hout, join_splitlines.
Qed.

Lemma no_transcripts_gives_chat_lines_witness :
  file_text (snd (merge_transcripts safe_load_examples chat_txt tr_dir out_txt
                                    None fs_plain)) out_txt
  = Some ("Hallo" ++ nl ++ "Welt").
Proof.
  apply (no_transcripts_gives_chat_lines safe_load_examples chat_txt tr_dir
           out_txt None fs_plain
           (snd (merge_transcripts safe_load_examples chat_txt tr_dir out_txt
                                   None fs_plain))
           ("Hallo" ++ nl ++ "Welt")).
  - reflexivity.
  - reflexivity.
  - vm_compute. reflexivity.
  - reflexivity.
  - reflexivity.
Defined.

(* ===================================================================== *)
(** * Runs, line by line                                                  *)
(* ===================================================================== *)

(** The document of [fs_cluster] with the settings document
    [speaker_mapping: {max: Maximilian}]: two transcripts after the first
    chat line, in the order of their timestamps, the third in the tail,
    [voice_note.txt] nowhere. *)
Example merge_cluster_document :
  merge_transcripts safe_load_examples chat_txt tr_dir out_txt
                    (Some settings_yml) fs_cluster
  = (Ok tt,
     set_text fs_cluster out_txt
       ("[14:05] Hallo!" ++ nl
        ++ "[Sprecher: Maximilian | Audio: 14:05]" ++ nl ++ "Erster" ++ nl
        ++ "[Sprecher: Maximilian | Audio: 14:05]" ++ nl ++ "Hi zurueck" ++ nl
        ++ "zweite Zeile" ++ nl
        ++ "Wie gehts?" ++ nl
        ++ "[14:10] Gut" ++ nl
        ++ "[Sprecher: Eva | Audio: 14:07]" ++ nl ++ "Spaet")).
Proof. vm_compute. reflexivity. Qed.

(** The transcripts of [fs_late] are written in the order of their
    timestamps, which is not the order of their paths. *)
Example merge_late_document :
  merge_transcripts safe_load_examples chat_txt tr_dir out_txt None fs_late
  = (Ok tt,
     set_text fs_late out_txt
       ("[14:05] Hallo!" ++ nl
        ++ "[Sprecher: Max | Audio: 14:05]" ++ nl ++ "Erster" ++ nl
        ++ "Bis dann" ++ nl
        ++ "[Sprecher: Unbekannt | Audio: 17:00]" ++ nl ++ "Nachmittags" ++ nl
        ++ "[Sprecher: Unbekannt | Audio: 18:30]" ++ nl ++ "Abends")).
Proof. vm_compute. reflexivity. Qed.

(** Runs that abort.  A [speaker_mapping] that is a list raises when the
    first transcript is written; [stat] refused on the transcript
    directory raises before the chat file is read; both leave the file
    system as it was.  A write that fails after five characters leaves
    them in the output file, whose earlier content is lost. *)
Example merge_aborts :
  merge_transcripts safe_load_examples chat_txt tr_dir out_txt (Some list_yml)
                    fs_cluster
  = (Raise AttributeError, fs_cluster)
  /\ merge_transcripts safe_load_examples chat_txt tr_dir out_txt None fs_denied
     = (Raise OSError, fs_denied)
  /\ file_text fs_full out_txt = Some "alt"
  /\ merge_transcripts safe_load_examples chat_txt tr_dir out_txt None fs_full
     = (Raise OSError, set_text fs_full out_txt "[14:0").
Proof. repeat split; vm_compute; reflexivity. Qed.

(** The parsers on the file names and chat lines of the examples. *)
Example parse_examples :
  parse_transcript_timestamp "2024-06-28_14-05-30_Max.txt"
  = Ok (Some (mk_datetime 2024 6 28 14 5 30))
  /\ parse_transcript_timestamp "2024-06-28 14-05.txt"
     = Ok (Some (mk_datetime 2024 6 28 14 5 0))
  /\ parse_transcript_timestamp "2023-02-29_14-05-30.txt" = Ok None
  /\ parse_transcript_timestamp "voice_note.txt" = Ok None
  /\ parse_chat_line_time "[7:05] Hallo" = Ok (Some (mk_datetime 1900 1 1 7 5 0))
  /\ parse_chat_line_time "Hallo [14:05]" = Ok None
  /\ parse_chat_line_time "[9:75] Hallo" = Raise ValueError.
Proof. repeat split; vm_compute; reflexivity. Qed.

(* ===================================================================== *)
(** * Further properties of the parsers                                   *)
(* ===================================================================== *)

(** X1.  The parser of file names never raises: for every file name it
    returns a timestamp or [None]; the [ValueError] of [strptime] is the
    only exception that can occur and it is caught. *)
Theorem transcript_parser_never_raises (filename : string) (e : exn) :
  parse_transcript_timestamp filename <> Raise e.
Proof.
  destruct (parse_transcript_timestamp_total filename) as [o Ho].
  rewrite Ho. discriminate.
Qed.

(** X2.  Every timestamp the parser of file names returns is a calendar
    date with a time of day: year 1..9999, month 1..12, a day of that
    month (29 February only in leap years), hour 0..23, minute and second
    0..59. *)
Theorem transcript_timestamp_valid (filename : string) (t : datetime) :
  parse_transcript_timestamp filename = Ok (Some t) -> valid_datetime t.
Proof.
  unfold parse_transcript_timestamp.
  destruct (re_search transcript_pattern filename) as [[m rest]|];
    [|discriminate].
  match goal with |- context [strptime ?d ?f] =>
    destruct (strptime d f) as [t'|e] eqn:E
  end.
  - intros [= <-]. now apply strptime_valid in E.
  - destruct e; discriminate.
Qed.

Lemma transcript_timestamp_valid_witness :
  valid_datetime (mk_datetime 2024 2 29 14 5 30).
Proof.
  apply (transcript_timestamp_valid "memo 2024-02-29_14-05-30_Max.txt").
  vm_compute. reflexivity.
Defined.

(* ===================================================================== *)
(** * What the matcher returns on well-formed names                       *)
(* ===================================================================== *)

Lemma consumed_cons (c : ascii) (s r : string) :
  (String.length r <= String.length s)%nat ->
  consumed (String c s) r = String c (consumed s r).
Proof.
  intros H. unfold consumed. simpl String.length.
  replace (S (String.length s) - String.length r)%nat
    with (S (String.length s - String.length r)) by lia.
  reflexivity.
Qed.

Lemma consumed_refl (s : string) : consumed s s = EmptyString.
Proof. unfold consumed. rewrite Nat.sub_diag. now destruct s. Qed.

Ltac simpl_consumed :=
  repeat first [rewrite consumed_refl | rewrite consumed_cons by (simpl; lia)].

Lemma re_search_of_match (r : re) (s : string) (x : caps * string) :
  re_match r s = Some x -> re_search r s = Some x.
Proof. intros H. destruct s; simpl; now rewrite H. Qed.

Lemma digit_char_spec (k : Z) :
  0 <= k <= 9 ->
  is_digit (digit_char k) = true /\ is_space (digit_char k) = false
  /\ Z.of_N (code (digit_char k)) - 48 = k.
Proof.
  intros H.
  assert (E : k = 0 \/ k = 1 \/ k = 2 \/ k = 3 \/ k = 4 \/ k = 5 \/ k = 6
              \/ k = 7 \/ k = 8 \/ k = 9) by lia.
  repeat (destruct E as [->|E]; [vm_compute; auto|]). subst. vm_compute. auto.
Qed.

Lemma digit_char_is_digit (k : Z) : 0 <= k <= 9 -> is_digit (digit_char k) = true.
Proof. intros H. now apply digit_char_spec. Qed.

Lemma digit_char_not_space (k : Z) : 0 <= k <= 9 -> is_space (digit_char k) = false.
Proof. intros H. now apply digit_char_spec. Qed.

Ltac digit_range := Z.div_mod_to_equations; lia.

(** The pattern of file names on a name that starts with a date, a
    separator and a time with seconds. *)
Lemma transcript_pattern_match
      (y1 y2 y3 y4 m1 m2 d1 d2 sep h1 h2 i1 i2 s1 s2 : ascii) (rest : string) :
  Forall (fun c => is_digit c = true)
         [y1; y2; y3; y4; m1; m2; d1; d2; h1; h2; i1; i2; s1; s2] ->
  sep = " "%char \/ sep = "_"%char \/ sep = "-"%char ->
  re_match transcript_pattern
    (String y1 (String y2 (String y3 (String y4 (String "-" (String m1
    (String m2 (String "-" (String d1 (String d2 (String sep (String h1
    (String h2 (String "-" (String i1 (String i2 (String "-" (String s1
    (String s2 rest)))))))))))))))))))
  = Some ([(4%nat, String s1 (String s2 EmptyString));
           (3%nat, String i1 (String i2 EmptyString));
           (2%nat, String h1 (String h2 EmptyString));
           (1%nat, String y1 (String y2 (String y3 (String y4 (String "-"
                     (String m1 (String m2 (String "-" (String d1 (String d2
                     EmptyString))))))))))], rest).
Proof.
  intros HF Hsep.
  repeat match goal with
         | H : Forall _ (_ :: _) |- _ => inversion H; subst; clear H
         end.
  unfold re_match, transcript_pattern, digit, chr, one_of.
  cbn [exec times].
  repeat match goal with H : is_digit _ = true |- _ => rewrite H; clear H end.
  cbn [Ascii.eqb Bool.eqb].
  assert (Hs : existsb (Ascii.eqb sep) (list_ascii_of_string " _-") = true)
    by (destruct Hsep as [->|[->| ->]]; reflexivity).
  rewrite Hs. simpl_consumed. reflexivity.
Qed.

Lemma exec_Grp_first (g : nat) (a : re) (w : string) :
  (forall s m (K : string -> caps -> option (caps * string)) x,
      K s m = Some x -> exec a (w ++ s) m K = Some x) ->
  forall s m (k : string -> caps -> option (caps * string)) x,
    k s ((g, w) :: m) = Some x -> exec (Grp g a) (w ++ s) m k = Some x.
Proof.
  intros Ha s m k x Hk.
  change (exec (Grp g a) (w ++ s) m k)
    with (exec a (w ++ s) m
               (fun s' m' => k s' ((g, consumed (w ++ s) s') :: m'))).
  apply Ha. now rewrite consumed_app.
Qed.

(** The patterns of the directives, as [directive] gives them. *)
Lemma format_regex_YmdHMS :
  format_regex "%Y-%m-%d %H:%M:%S"
  = Some (Grp 89 (times 4 digit) ;; chr "-"
          ;; Grp 109 ((chr "1" ;; between "0" "2") <|> (chr "0" ;; between "1" "9")
                      <|> between "1" "9") ;; chr "-"
          ;; Grp 100 ((chr "3" ;; between "0" "1") <|> (between "1" "2" ;; digit)
                      <|> (chr "0" ;; between "1" "9") <|> between "1" "9"
                      <|> (chr " " ;; between "1" "9"))
          ;; Plus is_space
          ;; Grp 72 ((chr "2" ;; between "0" "3") <|> (between "0" "1" ;; digit)
                     <|> digit) ;; chr ":"
          ;; Grp 77 ((between "0" "5" ;; digit) <|> digit) ;; chr ":"
          ;; Grp 83 ((chr "6" ;; between "0" "1") <|> (between "0" "5" ;; digit)
                     <|> digit)
          ;; Eps)%re.
Proof. reflexivity. Qed.

Tactic Notation "enum_two_digits" ident(j) integer(n) :=
  do n (destruct j as [|j];
        [first [vm_compute; match goal with H : _ = Some _ |- _ => rewrite H end;
                reflexivity
               | exfalso; lia]|]);
  exfalso; lia.

Lemma field_Y (y : Z) :
  0 <= y <= 9999 ->
  forall s m (k : string -> caps -> option (caps * string)) x,
    k s ((89%nat, four_digits y) :: m) = Some x ->
    exec (Grp 89 (times 4 digit)) (four_digits y ++ s) m k = Some x.
Proof.
  intros Hy. apply exec_Grp_first. intros s m K x HK.
  unfold four_digits, digit. cbn [times exec append].
  rewrite !digit_char_is_digit by digit_range. exact HK.
Qed.

Lemma field_m (n : Z) :
  1 <= n <= 12 ->
  forall s m (k : string -> caps -> option (caps * string)) x,
    k s ((109%nat, two_digits n) :: m) = Some x ->
    exec (Grp 109 ((chr "1" ;; between "0" "2") <|> (chr "0" ;; between "1" "9")
                   <|> between "1" "9"))%re (two_digits n ++ s) m k = Some x.
Proof.
  intros Hn. rewrite <- (Z2Nat.id n) in * by lia.
  generalize dependent (Z.to_nat n). clear n. intros j Hj.
  apply exec_Grp_first. intros s m K x HK. enum_two_digits j 13.
Qed.

Lemma field_d (n : Z) :
  1 <= n <= 31 ->
  forall s m (k : string -> caps -> option (caps * string)) x,
    k s ((100%nat, two_digits n) :: m) = Some x ->
    exec (Grp 100 ((chr "3" ;; between "0" "1") <|> (between "1" "2" ;; digit)
                   <|> (chr "0" ;; between "1" "9") <|> between "1" "9"
                   <|> (chr " " ;; between "1" "9")))%re
         (two_digits n ++ s) m k = Some x.
Proof.
  intros Hn. rewrite <- (Z2Nat.id n) in * by lia.
  generalize dependent (Z.to_nat n). clear n. intros j Hj.
  apply exec_Grp_first. intros s m K x HK. enum_two_digits j 32.
Qed.

Lemma field_H (n : Z) :
  0 <= n <= 23 ->
  forall s m (k : string -> caps -> option (caps * string)) x,
    k s ((72%nat, two_digits n) :: m) = Some x ->
    exec (Grp 72 ((chr "2" ;; between "0" "3") <|> (between "0" "1" ;; digit)
                  <|> digit))%re (two_digits n ++ s) m k = Some x.
Proof.
  intros Hn. rewrite <- (Z2Nat.id n) in * by lia.
  generalize dependent (Z.to_nat n). clear n. intros j Hj.
  apply exec_Grp_first. intros s m K x HK. enum_two_digits j 24.
Qed.

Lemma field_M (n : Z) :
  0 <= n <= 59 ->
  forall s m (k : string -> caps -> option (caps * string)) x,
    k s ((77%nat, two_digits n) :: m) = Some x ->
    exec (Grp 77 ((between "0" "5" ;; digit) <|> digit))%re
         (two_digits n ++ s) m k = Some x.
Proof.
  intros Hn. rewrite <- (Z2Nat.id n) in * by lia.
  generalize dependent (Z.to_nat n). clear n. intros j Hj.
  apply exec_Grp_first. intros s m K x HK. enum_two_digits j 60.
Qed.

Lemma field_S (n : Z) :
  0 <= n <= 59 ->
  forall s m (k : string -> caps -> option (caps * string)) x,
    k s ((83%nat, two_digits n) :: m) = Some x ->
    exec (Grp 83 ((chr "6" ;; between "0" "1") <|> (between "0" "5" ;; digit)
                  <|> digit))%re (two_digits n ++ s) m k = Some x.
Proof.
  intros Hn. rewrite <- (Z2Nat.id n) in * by lia.
  generalize dependent (Z.to_nat n). clear n. intros j Hj.
  apply exec_Grp_first. intros s m K x HK. enum_two_digits j 60.
Qed.

Lemma exec_chr_step {R : Type} (c : ascii) (s : string) (m : caps)
      (k : string -> caps -> option R) :
  exec (chr c) (String c s) m k = k s m.
Proof. simpl. now rewrite Ascii.eqb_refl. Qed.

Lemma int_two_digits (n : Z) : 0 <= n <= 99 -> int (two_digits n) = n.
Proof.
  intros Hn. unfold int, two_digits, strip. cbn [lstrip].
  rewrite (digit_char_not_space (n / 10)) by digit_range.
  cbn [rstrip]. rewrite (digit_char_not_space (n mod 10)) by digit_range.
  cbn [int_of_digits_from].
  pose proof (proj2 (proj2 (digit_char_spec (n / 10) ltac:(digit_range)))) as H1.
  pose proof (proj2 (proj2 (digit_char_spec (n mod 10) ltac:(digit_range)))) as H2.
  rewrite H1, H2. digit_range.
Qed.

Lemma int_four_digits (n : Z) : 0 <= n <= 9999 -> int (four_digits n) = n.
Proof.
  intros Hn. unfold int, four_digits, strip. cbn [lstrip].
  rewrite (digit_char_not_space (n / 1000)) by digit_range.
  cbn [rstrip]. rewrite (digit_char_not_space (n mod 10)) by digit_range.
  cbn [int_of_digits_from].
  pose proof (proj2 (proj2 (digit_char_spec (n / 1000) ltac:(digit_range)))) as H1.
  pose proof (proj2 (proj2 (digit_char_spec ((n / 100) mod 10) ltac:(digit_range)))) as H2.
  pose proof (proj2 (proj2 (digit_char_spec ((n / 10) mod 10) ltac:(digit_range)))) as H3.
  pose proof (proj2 (proj2 (digit_char_spec (n mod 10) ltac:(digit_range)))) as H4.
  rewrite H1, H2, H3, H4. digit_range.
Qed.

Lemma exec_space_digits {R : Type} (n : Z) (s : string) (m : caps)
      (k : string -> caps -> option R) :
  0 <= n <= 99 ->
  exec (Plus is_space) (String " " (two_digits n ++ s)) m k
  = k (two_digits n ++ s) m.
Proof.
  intros Hn. unfold two_digits. cbn [exec star append].
  change (is_space " ") with true. cbv iota.
  now rewrite (digit_char_not_space (n / 10)) by digit_range.
Qed.

Ltac cat_step :=
  match goal with
  | |- context [exec (Cat ?a ?b) ?s ?m ?k] =>
      change (exec (Cat a b) s m k)
        with (exec a s m (fun s' m' => exec b s' m' k))
  end.

Ltac chr_step :=
  match goal with
  | |- exec (chr ?c) (String ?c ?s) ?m ?k = _ => rewrite exec_chr_step
  | |- exec (chr ?c) (?l ++ ?s) ?m ?k = _ =>
      change (l ++ s) with (String c s); rewrite exec_chr_step
  end.

(** [strptime] reads back the fields written with leading zeros. *)
Lemma strptime_stamp (t : datetime) :
  valid_datetime t ->
  strptime ((four_digits (year t) ++ "-" ++ two_digits (month t) ++ "-"
             ++ two_digits (day t))
            ++ " " ++ two_digits (hour t) ++ ":" ++ two_digits (minute t)
            ++ ":" ++ two_digits (second t))
           "%Y-%m-%d %H:%M:%S"
  = Ok t.
Proof.
  intros Hv. pose proof (valid_day_le_31 t Hv) as Hd31.
  destruct Hv as (Hy & Hm & Hd & Hh & Hmi & Hs).
  unfold strptime. rewrite format_regex_YmdHMS.
  assert (E : re_match
                (Grp 89 (times 4 digit) ;; chr "-"
                 ;; Grp 109 ((chr "1" ;; between "0" "2") <|> (chr "0" ;; between "1" "9")
                             <|> between "1" "9") ;; chr "-"
                 ;; Grp 100 ((chr "3" ;; between "0" "1") <|> (between "1" "2" ;; digit)
                             <|> (chr "0" ;; between "1" "9") <|> between "1" "9"
                             <|> (chr " " ;; between "1" "9"))
                 ;; Plus is_space
                 ;; Grp 72 ((chr "2" ;; between "0" "3") <|> (between "0" "1" ;; digit)
                            <|> digit) ;; chr ":"
                 ;; Grp 77 ((between "0" "5" ;; digit) <|> digit) ;; chr ":"
                 ;; Grp 83 ((chr "6" ;; between "0" "1") <|> (between "0" "5" ;; digit)
                            <|> digit)
                 ;; Eps)%re
                ((four_digits (year t) ++ "-" ++ two_digits (month t) ++ "-"
                  ++ two_digits (day t))
                 ++ " " ++ two_digits (hour t) ++ ":" ++ two_digits (minute t)
                 ++ ":" ++ two_digits (second t))
              = Some ([(83%nat, two_digits (second t));
                       (77%nat, two_digits (minute t));
                       (72%nat, two_digits (hour t));
                       (100%nat, two_digits (day t));
                       (109%nat, two_digits (month t));
                       (89%nat, four_digits (year t))], EmptyString)).
  { unfold re_match. rewrite !sapp_assoc.
    rewrite <- (sapp_nil_r (two_digits (second t))).
    cat_step. apply field_Y; [lia|]. cbv beta.
    cat_step. chr_step.
    cat_step. apply field_m; [lia|]. cbv beta.
    cat_step. chr_step.
    cat_step. apply field_d; [lia|]. cbv beta.
    cat_step. change (" " ++ ?x) with (String " "%char x).
    rewrite exec_space_digits by lia.
    cat_step. apply field_H; [lia|]. cbv beta.
    cat_step. chr_step.
    cat_step. apply field_M; [lia|]. cbv beta.
    cat_step. chr_step.
    cat_step. apply field_S; [lia|]. cbv beta.
    reflexivity. }
  rewrite E.
  change (key "Y") with 89%nat; change (key "m") with 109%nat;
    change (key "d") with 100%nat; change (key "H") with 72%nat;
    change (key "M") with 77%nat; change (key "S") with 83%nat.
  cbn [group Nat.eqb].
  rewrite !int_two_digits, int_four_digits by lia.
  unfold datetime_new.
  replace ((1 <=? year t) && (year t <=? 9999) && (1 <=? month t)
           && (month t <=? 12) && (1 <=? day t)
           && (day t <=? days_in_month (year t) (month t))
           && (0 <=? hour t) && (hour t <=? 23) && (0 <=? minute t)
           && (minute t <=? 59) && (0 <=? second t) && (second t <=? 59))
    with true.
  - now destruct t.
  - symmetry. repeat (apply andb_true_intro; split); apply Z.leb_le; lia.
Qed.

(** X3.  A file name that starts with the fields of a calendar date and
    time, written [YYYY-MM-DD], one of the separators space, [_] or [-],
    and [HH-MM-SS] with leading zeros, parses to exactly that timestamp,
    whatever follows in the name. *)
Theorem stamp_name_round_trip (t : datetime) (sep : ascii) (rest : string) :
  valid_datetime t ->
  sep = " "%char \/ sep = "_"%char \/ sep = "-"%char ->
  parse_transcript_timestamp (stamp_name t sep ++ rest) = Ok (Some t).
Proof.
  intros Hv Hsep. pose proof (valid_day_le_31 t Hv) as Hd31.
  pose proof Hv as (Hy & Hm & Hd & Hh & Hmi & Hs).
  unfold parse_transcript_timestamp.
  assert (E : re_search transcript_pattern (stamp_name t sep ++ rest)
              = Some ([(4%nat, two_digits (second t));
                       (3%nat, two_digits (minute t));
                       (2%nat, two_digits (hour t));
                       (1%nat, four_digits (year t) ++ "-"
                               ++ two_digits (month t) ++ "-"
                               ++ two_digits (day t))], rest)).
  { apply re_search_of_match.
    unfold stamp_name, four_digits, two_digits. cbn [append].
    apply transcript_pattern_match; [|exact Hsep].
    repeat constructor; apply digit_char_is_digit; digit_range. }
  rewrite E. unfold group_str. cbn [group Nat.eqb].
  now rewrite (strptime_stamp t Hv).
Qed.

Lemma stamp_name_round_trip_witness :
  parse_transcript_timestamp "2024-02-29_14-05-30_Max.txt"
  = Ok (Some (mk_datetime 2024 2 29 14 5 30)).
Proof.
  apply (stamp_name_round_trip (mk_datetime 2024 2 29 14 5 30) "_" "_Max.txt").
  - unfold valid_datetime. vm_compute. intuition discriminate.
  - auto.
Defined.

(* ===================================================================== *)
(** * The parser of chat lines                                            *)
(* ===================================================================== *)

Lemma format_regex_HM :
  format_regex "%H:%M"
  = Some (Grp 72 ((chr "2" ;; between "0" "3") <|> (between "0" "1" ;; digit)
                  <|> digit) ;; chr ":"
          ;; Grp 77 ((between "0" "5" ;; digit) <|> digit)
          ;; Eps)%re.
Proof. reflexivity. Qed.

Lemma exec_Grp_at (g : nat) (a : re) (w s : string) (m : caps)
      (k : string -> caps -> option (caps * string)) (x : caps * string) :
  (forall K : string -> caps -> option (caps * string),
      K s m = Some x -> exec a (w ++ s) m K = Some x) ->
  k s ((g, w) :: m) = Some x -> exec (Grp g a) (w ++ s) m k = Some x.
Proof.
  intros Ha Hk.
  change (exec (Grp g a) (w ++ s) m k)
    with (exec a (w ++ s) m
               (fun s' m' => k s' ((g, consumed (w ++ s) s') :: m'))).
  apply Ha. now rewrite consumed_app.
Qed.

(** An hour written with one digit, before the colon. *)
Lemma field_H_one (n : Z) :
  0 <= n <= 9 ->
  forall s m (k : string -> caps -> option (caps * string)) x,
    k (String ":" s) ((72%nat, String (digit_char n) EmptyString) :: m) = Some x ->
    exec (Grp 72 ((chr "2" ;; between "0" "3") <|> (between "0" "1" ;; digit)
                  <|> digit))%re
         (String (digit_char n) EmptyString ++ String ":" s) m k = Some x.
Proof.
  intros Hn. rewrite <- (Z2Nat.id n) in * by lia.
  generalize dependent (Z.to_nat n). clear n. intros j Hj s m k x Hk.
  apply exec_Grp_at; [|exact Hk]. clear Hk k. intros K HK.
  enum_two_digits j 10.
Qed.

(** An hour from 24 on matches no alternative of [%H] before a colon. *)
Lemma hour_over_23 (n : Z) :
  24 <= n <= 99 ->
  forall s m (b : re) (k : string -> caps -> option (caps * string)),
    exec (Grp 72 ((chr "2" ;; between "0" "3") <|> (between "0" "1" ;; digit)
                  <|> digit) ;; chr ":" ;; b)%re
         (two_digits n ++ String ":" s) m k = None.
Proof.
  intros Hn. rewrite <- (Z2Nat.id n) in * by lia.
  generalize dependent (Z.to_nat n). clear n. intros j Hj s m b k.
  do 100 (destruct j as [|j];
          [first [exfalso; lia | vm_compute; reflexivity]|]).
  exfalso; lia.
Qed.

(** A minute from 60 on: [%M] takes its first digit only and the second
    remains. *)
Lemma minute_over_59 (n : Z) :
  60 <= n <= 99 ->
  forall m,
    exists m' c,
      exec (chr ":" ;; Grp 77 ((between "0" "5" ;; digit) <|> digit) ;; Eps)%re
           (String ":" (two_digits n)) m (fun rest m0 => Some (m0, rest))
      = Some (m', String c EmptyString).
Proof.
  intros Hn. rewrite <- (Z2Nat.id n) in * by lia.
  generalize dependent (Z.to_nat n). clear n. intros j Hj m.
  do 100 (destruct j as [|j];
          [first [exfalso; lia | vm_compute; eauto]|]).
  exfalso; lia.
Qed.

Lemma minute_in_range (n : Z) (m : caps) :
  0 <= n <= 59 ->
  exec (chr ":" ;; Grp 77 ((between "0" "5" ;; digit) <|> digit) ;; Eps)%re
       (String ":" (two_digits n)) m (fun rest m0 => Some (m0, rest))
  = Some ((77%nat, two_digits n) :: m, EmptyString).
Proof.
  intros Hn. cat_step. chr_step. cat_step.
  rewrite <- (sapp_nil_r (two_digits n)) at 1.
  apply field_M; [lia|]. reflexivity.
Qed.

(** [strptime] with the format [%H:%M] on a time with a colon after the
    hour [hs] that [%H] reads as [h]. *)
Lemma strptime_HM (hs : string) (h mi : Z) :
  (forall s m (k : string -> caps -> option (caps * string)) x,
      k (String ":" s) ((72%nat, hs) :: m) = Some x ->
      exec (Grp 72 ((chr "2" ;; between "0" "3") <|> (between "0" "1" ;; digit)
                    <|> digit))%re (hs ++ String ":" s) m k = Some x) ->
  int hs = h -> 0 <= h <= 23 -> 0 <= mi <= 99 ->
  strptime (hs ++ ":" ++ two_digits mi) "%H:%M"
  = if mi <=? 59 then Ok (mk_datetime 1900 1 1 h mi 0) else Raise ValueError.
Proof.
  intros Hexec Hint Hh Hmi. unfold strptime. rewrite format_regex_HM.
  unfold re_match. cat_step.
  change (":" ++ two_digits mi) with (String ":" (two_digits mi)).
  destruct (mi <=? 59) eqn:E.
  - apply Z.leb_le in E.
    rewrite (Hexec _ _ _ _ (minute_in_range mi _ ltac:(lia))).
    change (key "Y") with 89%nat; change (key "m") with 109%nat;
      change (key "d") with 100%nat; change (key "H") with 72%nat;
      change (key "M") with 77%nat; change (key "S") with 83%nat.
    cbn [group Nat.eqb]. rewrite int_two_digits, Hint by lia.
    unfold datetime_new.
    replace ((1 <=? 1900) && (1900 <=? 9999) && (1 <=? 1) && (1 <=? 12)
             && (1 <=? 1) && (1 <=? days_in_month 1900 1) && (0 <=? h)
             && (h <=? 23) && (0 <=? mi) && (mi <=? 59) && (0 <=? 0)
             && (0 <=? 59)) with true; [reflexivity|].
    symmetry. repeat (apply andb_true_intro; split);
      first [reflexivity | apply Z.leb_le; lia].
  - apply Z.leb_gt in E.
    destruct (minute_over_59 mi ltac:(lia) [(72%nat, hs)]) as [m' [c Hm]].
    now rewrite (Hexec _ _ _ _ Hm).
Qed.

Lemma field_H_colon (n : Z) :
  0 <= n <= 23 ->
  forall s m (k : string -> caps -> option (caps * string)) x,
    k (String ":" s) ((72%nat, two_digits n) :: m) = Some x ->
    exec (Grp 72 ((chr "2" ;; between "0" "3") <|> (between "0" "1" ;; digit)
                  <|> digit))%re (two_digits n ++ String ":" s) m k = Some x.
Proof. intros Hn s m k x Hk. now apply field_H. Qed.

Lemma chat_pattern_two (d1 d2 d3 d4 : ascii) (rest : string) :
  is_digit d1 = true -> is_digit d2 = true ->
  is_digit d3 = true -> is_digit d4 = true ->
  re_match chat_time_pattern
    (String "[" (String d1 (String d2 (String ":" (String d3 (String d4
       (String "]" rest)))))))
  = Some ([(1%nat, String d1 (String d2 (String ":" (String d3 (String d4
             EmptyString)))))], rest).
Proof.
  intros H1 H2 H3 H4. unfold re_match, chat_time_pattern, digit, chr.
  cbn [exec times]. rewrite H1, H2, H3, H4. cbn [Ascii.eqb Bool.eqb].
  simpl_consumed. reflexivity.
Qed.

Lemma chat_pattern_one (d1 d3 d4 : ascii) (rest : string) :
  is_digit d1 = true -> is_digit d3 = true -> is_digit d4 = true ->
  re_match chat_time_pattern
    (String "[" (String d1 (String ":" (String d3 (String d4
       (String "]" rest))))))
  = Some ([(1%nat, String d1 (String ":" (String d3 (String d4
             EmptyString))))], rest).
Proof.
  intros H1 H3 H4. unfold re_match, chat_time_pattern, digit, chr.
  cbn [exec times]. rewrite H1, H3, H4.
  change (is_digit ":") with false. cbn [Ascii.eqb Bool.eqb].
  simpl_consumed. reflexivity.
Qed.

(** X4.  A chat line that starts with [[HH:MM]], two digits each, parses
    to the time HH:MM on 1900-01-01 when HH is at most 23 and MM at most
    59, whatever follows the token; with a larger hour or minute the
    parser raises [ValueError]. *)
Theorem chat_time_token_outcome (h mi : Z) (rest : string) :
  0 <= h <= 99 -> 0 <= mi <= 99 ->
  parse_chat_line_time (time_token h mi ++ rest)
  = if (h <=? 23) && (mi <=? 59)
    then Ok (Some (mk_datetime 1900 1 1 h mi 0))
    else Raise ValueError.
Proof.
  intros Hh Hmi. unfold parse_chat_line_time.
  assert (E : re_match chat_time_pattern (time_token h mi ++ rest)
              = Some ([(1%nat, two_digits h ++ ":" ++ two_digits mi)], rest)).
  { unfold time_token, two_digits. cbn [append].
    apply chat_pattern_two; apply digit_char_is_digit; digit_range. }
  rewrite E. unfold group_str. cbn [group Nat.eqb].
  destruct (h <=? 23) eqn:E23.
  - apply Z.leb_le in E23.
    rewrite (strptime_HM (two_digits h) h mi (field_H_colon h ltac:(lia))
               (int_two_digits h ltac:(lia)) ltac:(lia) Hmi).
    cbn [andb]. now destruct (mi <=? 59).
  - apply Z.leb_gt in E23. cbn [andb].
    unfold strptime. rewrite format_regex_HM. unfold re_match.
    change (":" ++ two_digits mi) with (String ":" (two_digits mi)).
    now rewrite hour_over_23 by lia.
Qed.

Lemma chat_time_token_outcome_witness :
  parse_chat_line_time "[14:05] Hallo!" = Ok (Some (mk_datetime 1900 1 1 14 5 0))
  /\ parse_chat_line_time "[24:00] Hallo!" = Raise ValueError.
Proof.
  split.
  - apply (chat_time_token_outcome 14 5 " Hallo!"); lia.
  - apply (chat_time_token_outcome 24 0 " Hallo!"); lia.
Defined.

Lemma int_one_digit (n : Z) :
  0 <= n <= 9 -> int (String (digit_char n) EmptyString) = n.
Proof.
  intros Hn. unfold int, strip. cbn [lstrip].
  rewrite (digit_char_not_space n) by lia. cbn [rstrip].
  rewrite (digit_char_not_space n) by lia. cbn [int_of_digits_from].
  pose proof (proj2 (proj2 (digit_char_spec n Hn))). lia.
Qed.

(** X5.  The hour of the token may have one digit: a chat line that
    starts with [[H:MM]] parses to the time H:MM on 1900-01-01 when MM is
    at most 59, and raises [ValueError] otherwise. *)
Theorem chat_time_token_one_digit (h mi : Z) (rest : string) :
  0 <= h <= 9 -> 0 <= mi <= 99 ->
  parse_chat_line_time
    ("[" ++ String (digit_char h) EmptyString ++ ":" ++ two_digits mi
     ++ "]" ++ rest)
  = if mi <=? 59 then Ok (Some (mk_datetime 1900 1 1 h mi 0))
    else Raise ValueError.
Proof.
  intros Hh Hmi. unfold parse_chat_line_time.
  assert (E : re_match chat_time_pattern
                ("[" ++ String (digit_char h) EmptyString ++ ":"
                 ++ two_digits mi ++ "]" ++ rest)
              = Some ([(1%nat, String (digit_char h) EmptyString ++ ":"
                               ++ two_digits mi)], rest)).
  { unfold two_digits. cbn [append].
    apply chat_pattern_one; apply digit_char_is_digit; digit_range. }
  rewrite E. unfold group_str. cbn [group Nat.eqb].
  rewrite (strptime_HM (String (digit_char h) EmptyString) h mi
             (field_H_one h Hh) (int_one_digit h Hh) ltac:(lia) Hmi).
  now destruct (mi <=? 59).
Qed.

Lemma chat_time_token_one_digit_witness :
  parse_chat_line_time "[7:05] Hallo!" = Ok (Some (mk_datetime 1900 1 1 7 5 0)).
Proof.
  apply (chat_time_token_one_digit 7 5 " Hallo!"); lia.
Defined.

Lemma Matches_groups (r : re) (w rest : string) (m m' : caps) :
  Matches r w rest m m' ->
  forall n, ~ In n (groups_of r) -> group n m' = group n m.
Proof.
  induction 1 as [rest m|p c rest m Hp|a b w1 w2 rest m m1 m2 _ IH1 _ IH2
                 |a b w rest m m' _ IH|a b w rest m m' _ IH
                 |a w rest m m' _ IH|a rest m|p w rest m Hne Hw
                 |g a w rest m m' _ IH|rest m Hrest];
    intros n Hn; simpl in Hn; try reflexivity.
  - rewrite IH2, IH1; [reflexivity| |]; intros Hin; apply Hn, in_or_app; auto.
  - apply IH. intros Hin. apply Hn, in_or_app. auto.
  - apply IH. intros Hin. apply Hn, in_or_app. auto.
  - now apply IH.
  - simpl. destruct (Nat.eqb g n) eqn:E.
    + apply Nat.eqb_eq in E. subst. elim Hn. now left.
    + apply IH. intros Hin. apply Hn. now right.
Qed.

(** X6.  Every time the parser of chat lines returns is a time of day on
    the fixed date 1900-01-01 with second 0: hour 0..23 and minute 0..59
    are the only fields a chat line sets. *)
Theorem chat_time_is_time_of_day (line : string) (t : datetime) :
  parse_chat_line_time line = Ok (Some t) ->
  year t = 1900 /\ month t = 1 /\ day t = 1 /\ second t = 0
  /\ 0 <= hour t <= 23 /\ 0 <= minute t <= 59.
Proof.
  unfold parse_chat_line_time.
  destruct (re_match chat_time_pattern line) as [[m0 rest0]|]; [|discriminate].
  destruct (strptime (group_str 1 m0) "%H:%M") as [t'|e] eqn:E; [|discriminate].
  simpl. intros [= <-]. unfold strptime in E. rewrite format_regex_HM in E.
  match type of E with
  | context [re_match ?r ?d] =>
      destruct (re_match r d) as [[m [|c rest]]|] eqn:Em; try discriminate;
      apply re_match_sound in Em; destruct Em as [w [_ HM]];
      pose proof (Matches_groups r w _ _ _ HM) as Hg
  end.
  assert (HY : group (key "Y") m = None)
    by (apply Hg; vm_compute; intuition discriminate).
  assert (Hmo : group (key "m") m = None)
    by (apply Hg; vm_compute; intuition discriminate).
  assert (Hd : group (key "d") m = None)
    by (apply Hg; vm_compute; intuition discriminate).
  assert (HS : group (key "S") m = None)
    by (apply Hg; vm_compute; intuition discriminate).
  rewrite HY, Hmo, Hd, HS in E.
  apply datetime_new_valid in E. destruct E as [-> Hv].
  unfold valid_datetime in Hv. simpl in *. intuition.
Qed.

Lemma chat_time_is_time_of_day_witness :
  year at_14_05 = 1900 /\ month at_14_05 = 1 /\ day at_14_05 = 1
  /\ second at_14_05 = 0
  /\ 0 <= hour at_14_05 <= 23 /\ 0 <= minute at_14_05 <= 59.
Proof.
  apply (chat_time_is_time_of_day "[14:05] Hallo!").
  vm_compute. reflexivity.
Defined.

(* ===================================================================== *)
(** * Further properties of the walk and of the run                       *)
(* ===================================================================== *)

(** X7.  The test of the walk compares times of day only: the date of the
    transcript plays no part, and there is no wrap at midnight.  A
    transcript is within tolerance of a chat line exactly when the
    seconds of its time of day and those of the line differ by at most
    60. *)
Theorem tolerance_is_time_of_day (line_time : datetime) (tr : transcript) :
  in_tolerance line_time tr
  = (Z.abs (seconds_of_day (timestamp tr) - seconds_of_day line_time) <=? 60).
Proof. unfold in_tolerance. now rewrite projected_diff_eq. Qed.




Lemma plan_blocked st mapping (trs : list transcript)
      (chat_lines : list string) :
  (forall line line_time,
      In line chat_lines -> chat_time line = Some line_time ->
      stops_at line_time trs) ->
  render_inline st mapping (fst (plan chat_lines trs)) = chat_lines
  /\ snd (plan chat_lines trs) = trs.
Proof.
  induction chat_lines as [|line rest IH]; intros Hfar; [now split|].
  destruct IH as [IH1 IH2].
  { intros l lt Hin. apply Hfar. now right. }
  cbn [plan].
  assert (E : match chat_time line with
              | Some line_time => span_tolerated line_time trs
              | None => ([], trs)
              end = ([], trs)).
  { destruct (chat_time line) as [lt|] eqn:Ht; [|reflexivity].
    apply (span_tolerated_unique lt [] trs); [constructor|].
    apply (Hfar line lt); [now left | exact Ht]. }
  rewrite E. cbn [fst snd]. rewrite render_inline_cons, IH1, IH2.
  now split.
Qed.

(** X8.  The walk has one cursor, and a transcript that no chat line
    tolerates holds it: when the earliest transcript is within tolerance
    of no chat line (in particular when no chat line carries a time),
    nothing is inserted between the chat lines, also not a later
    transcript that is within tolerance of one; the text written to the
    output path is the chat lines followed by the blocks of all
    transcripts in sorted order, one line feed between two lines. *)
Theorem unmatched_first_transcript_blocks safe_load chat dir out settings
        st st' content transcripts :
  merge_transcripts safe_load chat dir out settings st = (Ok tt, st') ->
  file_text st chat = Some content ->
  load_transcripts st dir = Ok transcripts ->
  (forall tr0 line line_time,
      hd_error transcripts = Some tr0 ->
      In line (splitlines content) ->
      parse_chat_line_time line = Ok (Some line_time) ->
      in_tolerance line_time tr0 = false) ->
  exists mapping,
    load_settings safe_load st settings = Ok mapping
    /\ file_text st' out
       = Some (lines_text (splitlines content
                           ++ blocks st mapping transcripts)).
Proof.
  intros H Hc Hl Hfar. apply merge_ok_inv in H.
  destruct H as [mapping [content' [transcripts'
                   [Hs [Hl' [Hc' [Hp [Hr [Hw ->]]]]]]]]].
  assert (Ec : content' = content) by congruence.
  assert (Et : transcripts' = transcripts) by congruence.
  subst content' transcripts'.
  exists mapping. split; [exact Hs|].
  rewrite set_text_at. unfold planned_text, render.
  destruct (plan_blocked st mapping transcripts (splitlines content))
    as [E1 E2]; [|now rewrite E1, E2].
  intros line lt Hin Ht. unfold chat_time in Ht.
  destruct (parse_chat_line_time line) as [[lt'|]|e] eqn:Hparse;
    try discriminate.
  inversion Ht; subst lt'.
  destruct transcripts as [|tr0 trs]; [exact I|].
  apply (Hfar tr0 line lt eq_refl Hin Hparse).
Qed.

Lemma unmatched_first_transcript_blocks_witness :
  in_tolerance at_14_05 t_max_10 = true
  /\ exists mapping,
       load_settings safe_load_examples fs_blocked None = Ok mapping
       /\ file_text
            (snd (merge_transcripts safe_load_examples chat_txt tr_dir out_txt
                                    None fs_blocked)) out_txt
          = Some (lines_text (splitlines "[14:05] Hallo!"
                              ++ blocks fs_blocked mapping [t_early; t_max_10])).
Proof.
  split; [reflexivity|].
  apply (unmatched_first_transcript_blocks safe_load_examples chat_txt tr_dir
           out_txt None fs_blocked
           (snd (merge_transcripts safe_load_examples chat_txt tr_dir out_txt
                                   None fs_blocked))
           "[14:05] Hallo!" [t_early; t_max_10]).
  - vm_compute. reflexivity.
  - reflexivity.
  - vm_compute. reflexivity.
  - intros tr0 line lt [= <-] [<-|[]] Hp.
    assert (E : parse_chat_line_time "[14:05] Hallo!" = Ok (Some at_14_05))
      by (vm_compute; reflexivity).
    rewrite E in Hp. inversion Hp; subst lt. reflexivity.
Defined.










(* ===================================================================== *)
(** * The speaker resolver on well-formed names                           *)
(* ===================================================================== *)

Lemma exec_times {R : Type} (p : ascii -> bool) (n : nat) :
  forall w s m (k : string -> caps -> option R),
    String.length w = n -> all_chars p w = true ->
    exec (times n (Cls p)) (w ++ s) m k = k s m.
Proof.
  induction n as [|n IH]; intros [|c w] s m k Hl Ha; simpl in Hl;
    try discriminate; [reflexivity|].
  simpl in Ha. apply andb_prop in Ha. destruct Ha as [Hc Ha].
  cbn [times exec append]. rewrite Hc. apply IH; [lia | exact Ha].
Qed.

(** The greedy repetition stops where the class stops, when the rest of
    the pattern matches there. *)
Lemma star_greedy {R : Type} (p : ascii -> bool) (w s : string)
      (k : string -> option R) (x : R) :
  all_chars p w = true ->
  match s with
  | EmptyString => True
  | String c _ => p c = false
  end ->
  k s = Some x -> star p (w ++ s) k = Some x.
Proof.
  intros Hw Hs Hk. induction w as [|c w IH]; simpl.
  - destruct s as [|c s]; simpl; [exact Hk|]. now rewrite Hs.
  - simpl in Hw. apply andb_prop in Hw. destruct Hw as [Hc Hw].
    now rewrite Hc, (IH Hw).
Qed.

Lemma star_gives_up {R : Type} (p : ascii -> bool) (u : string)
      (k : string -> option R) :
  (forall u1 u2, u = u1 ++ u2 -> u1 <> EmptyString -> k u2 = None) ->
  star p u k = k u.
Proof.
  induction u as [|c u IH]; intros Hk; simpl; [reflexivity|].
  destruct (p c); [|reflexivity].
  rewrite IH.
  - now rewrite (Hk (String c EmptyString) u eq_refl ltac:(discriminate)).
  - intros u1 u2 -> Hne. apply (Hk (String c u1) u2 eq_refl). discriminate.
Qed.

(** The greedy repetition gives back what it took beyond [w] when the
    rest of the pattern matches after [w] and nowhere later. *)
Lemma star_backtrack {R : Type} (p : ascii -> bool) (w u : string)
      (k : string -> option R) (x : R) :
  all_chars p w = true ->
  k u = Some x ->
  (forall u1 u2, u = u1 ++ u2 -> u1 <> EmptyString -> k u2 = None) ->
  star p (w ++ u) k = Some x.
Proof.
  intros Hw Hk Hlater. induction w as [|c w IH]; simpl.
  - now rewrite star_gives_up.
  - simpl in Hw. apply andb_prop in Hw. destruct Hw as [Hc Hw].
    now rewrite Hc, (IH Hw).
Qed.

Lemma lit_txt_later {R : Type} (u1 u2 : string) (m : caps)
      (k : string -> caps -> option R) :
  ".txt" = u1 ++ u2 -> u1 <> EmptyString -> exec (lit ".txt") u2 m k = None.
Proof.
  intros H Hne.
  destruct u1 as [|a [|b [|c [|d [|e u1]]]]]; simpl in H; try contradiction;
    inversion H; subst; reflexivity.
Qed.

Lemma exec_Plus_cons {R : Type} (p : ascii -> bool) (c : ascii) (s : string)
      (m : caps) (k : string -> caps -> option R) :
  exec (Plus p) (String c s) m k
  = if p c then star p s (fun s'' => k s'' m) else None.
Proof. reflexivity. Qed.

Lemma exec_Grp {R : Type} (g : nat) (a : re) (s : string) (m : caps)
      (k : string -> caps -> option R) :
  exec (Grp g a) s m k
  = exec a s m (fun s' m' => k s' ((g, consumed s s') :: m')).
Proof. reflexivity. Qed.

Lemma dated_pattern_exact (d t name : string) :
  date_shaped d -> t <> EmptyString ->
  all_chars (fun c => is_digit c || Ascii.eqb c "-") t = true ->
  name <> EmptyString -> all_chars is_dot name = true ->
  re_match dated_name_pattern (d ++ "_" ++ t ++ "_" ++ name ++ ".txt")
  = Some ([(1%nat, name)], EmptyString).
Proof.
  intros [y [mo [dd [-> [[Hy1 Hy2] [[Hm1 Hm2] [Hd1 Hd2]]]]]]] Ht0 Ht Hn0 Hn.
  unfold re_match, dated_name_pattern, digit. rewrite !sapp_assoc.
  cat_step. rewrite exec_times by assumption.
  cat_step. chr_step.
  cat_step. rewrite exec_times by assumption.
  cat_step. chr_step.
  cat_step. rewrite exec_times by assumption.
  cat_step. chr_step. cat_step.
  destruct t as [|c t]; [contradiction|]. simpl in Ht.
  apply andb_prop in Ht. destruct Ht as [Hc Ht].
  cbn [append]. rewrite exec_Plus_cons, Hc.
  apply star_greedy; [exact Ht | reflexivity |].
  cat_step. chr_step. cat_step.
  destruct name as [|a name]; [contradiction|]. simpl in Hn.
  apply andb_prop in Hn. destruct Hn as [Ha Hn].
  rewrite exec_Grp. cbn [append]. rewrite exec_Plus_cons, Ha.
  apply star_backtrack; [exact Hn | |].
  - change (String a (name ++ ".txt")) with (String a name ++ ".txt").
    rewrite consumed_app. reflexivity.
  - intros u1 u2 Hu Hne. now apply (lit_txt_later u1 u2).
Qed.

Lemma loose_pattern_exact (pre name : string) :
  all_chars (fun c => negb (Ascii.eqb c "_")) pre = true ->
  name <> EmptyString -> all_chars is_word name = true ->
  re_search loose_name_pattern (pre ++ "_" ++ name ++ ".txt")
  = Some ([(1%nat, name)], EmptyString).
Proof.
  intros Hpre Hn0 Hn. induction pre as [|c pre IH].
  - apply re_search_of_match. unfold re_match, loose_name_pattern.
    cbn [append]. cat_step. chr_step. cat_step.
    destruct name as [|a name]; [contradiction|]. simpl in Hn.
    apply andb_prop in Hn. destruct Hn as [Ha Hn].
    rewrite exec_Grp. cbn [append]. rewrite exec_Plus_cons, Ha.
    apply star_greedy; [exact Hn | reflexivity |].
    change (String a (name ++ ".txt")) with (String a name ++ ".txt").
    rewrite consumed_app. reflexivity.
  - simpl in Hpre. apply andb_prop in Hpre. destruct Hpre as [Hc Hpre].
    change (String c pre ++ "_" ++ name ++ ".txt")
      with (String c (pre ++ "_" ++ name ++ ".txt")).
    cbn [re_search].
    assert (E : re_match loose_name_pattern
                  (String c (pre ++ "_" ++ name ++ ".txt")) = None).
    { unfold re_match, loose_name_pattern, chr. cbn [exec].
      rewrite Ascii.eqb_sym. apply negb_true_iff in Hc. now rewrite Hc. }
    rewrite E. now apply IH.
Qed.

Lemma dated_search_none (filename : string) :
  ~ (exists name, dated_shape filename name) ->
  re_search dated_name_pattern filename = None.
Proof.
  intros H.
  destruct (re_search dated_name_pattern filename) as [[m rest]|] eqn:E;
    [|reflexivity].
  exfalso. apply H. apply re_search_sound in E.
  destruct E as [pre [w [-> HM]]]. apply dated_pattern_sound in HM.
  destruct HM as [d [t [name [-> [Hd [Ht0 [Ht [Hn0 [Hn _]]]]]]]]].
  exists name, pre, d, t, rest. split; [norm_app; reflexivity | auto].
Qed.

(** X10.  For a file name of the documented form
    [YYYY-MM-DD_<time>_<name>.txt] (the time made of digits and dashes,
    the name without line feed) in which no mapping key occurs, the
    resolver returns exactly [<name>]: all that stands between the
    underscore after the time and the final [.txt], underscores and dots
    included. *)
Theorem infer_speaker_dated_exact (d t name : string) (mapping : mapping_t) :
  date_shaped d -> t <> EmptyString ->
  all_chars (fun c => is_digit c || Ascii.eqb c "-") t = true ->
  name <> EmptyString -> all_chars is_dot name = true ->
  (forall key val, In (key, val) mapping ->
                   ~ key_occurs key (d ++ "_" ++ t ++ "_" ++ name ++ ".txt")) ->
  infer_speaker (d ++ "_" ++ t ++ "_" ++ name ++ ".txt") mapping = name.
Proof.
  intros Hd Ht0 Ht Hn0 Hn Hno. unfold infer_speaker.
  rewrite (first_hit_none _ _ Hno).
  now rewrite (re_search_of_match _ _ _ (dated_pattern_exact d t name Hd Ht0 Ht Hn0 Hn)).
Qed.

Lemma infer_speaker_dated_exact_witness :
  infer_speaker "2024-06-28_14-05-30_Max_M.v2.txt" [("eva", "Eva")] = "Max_M.v2".
Proof.
  apply (infer_speaker_dated_exact "2024-06-28" "14-05-30" "Max_M.v2"
           [("eva", "Eva")]).
  - exists "2024", "06", "28". unfold digits. auto.
  - discriminate.
  - reflexivity.
  - discriminate.
  - reflexivity.
  - intros key val [Hkv|[]] Hocc. inversion Hkv; subst key val.
    apply contains_iff in Hocc. vm_compute in Hocc. discriminate.
Defined.

(** X11.  For a file name [<prefix>_<name>.txt] without a date, with no
    underscore in the prefix and a name made of word characters, in which
    no mapping key occurs, the resolver returns exactly [<name>]: the
    part after the first underscore. *)
Theorem infer_speaker_loose_exact (pre name : string) (mapping : mapping_t) :
  all_chars (fun c => negb (Ascii.eqb c "_")) pre = true ->
  name <> EmptyString -> all_chars is_word name = true ->
  ~ (exists n, dated_shape (pre ++ "_" ++ name ++ ".txt") n) ->
  (forall key val, In (key, val) mapping ->
                   ~ key_occurs key (pre ++ "_" ++ name ++ ".txt")) ->
  infer_speaker (pre ++ "_" ++ name ++ ".txt") mapping = name.
Proof.
  intros Hpre Hn0 Hn Hnd Hno. unfold infer_speaker.
  rewrite (first_hit_none _ _ Hno), (dated_search_none _ Hnd).
  now rewrite (loose_pattern_exact pre name Hpre Hn0 Hn).
Qed.

Lemma infer_speaker_loose_exact_witness :
  infer_speaker "Sprachnotiz_Max_Mustermann.txt" [] = "Max_Mustermann".
Proof.
  apply (infer_speaker_loose_exact "Sprachnotiz" "Max_Mustermann" []).
  - reflexivity.
  - discriminate.
  - reflexivity.
  - intros [n H]. apply dated_pattern_complete in H. now vm_compute in H.
  - intros key val [].
Defined.

(* ===================================================================== *)
(** * The speaker resolver                                                *)
(* ===================================================================== *)

















(** The resolver where a file name has more than one name segment of a
    shape. *)
Example infer_speaker_examples :
  infer_speaker "2024-06-28_14-05-30_Max.txt_Eva.txt" [] = "Max.txt_Eva"
  /\ infer_speaker "a_b_c.txt" [] = "b_c"
  /\ infer_speaker "Memo 2024-06-28_14-05_Eva.txt" [("MEMO", "Ich")] = "Ich".
Proof. repeat split; vm_compute; reflexivity. Qed.

Lemma first_hit_obj_typed (lower_name : string) (mapping : mapping_t) :
  first_hit_obj lower_name (str_items mapping)
  = Ok (option_map Str (first_hit lower_name mapping)).
Proof.
  induction mapping as [|[key val] rest IH]; simpl; [reflexivity|].
  now destruct (contains (lower key) lower_name).
Qed.

(** On a [dict] of [str] keys and values the resolver is
    [infer_speaker]. *)
Lemma infer_speaker_obj_typed (filename text : string) (mapping : mapping_t) :
  infer_speaker_obj filename (Dict (str_items mapping) text)
  = Ok (Str (infer_speaker filename mapping)).
Proof.
  unfold infer_speaker_obj, infer_speaker. rewrite first_hit_obj_typed.
  cbn [bind]. destruct (first_hit (lower filename) mapping); cbn [option_map];
    [reflexivity|].
  destruct (re_search dated_name_pattern filename) as [[m r]|]; [reflexivity|].
  now destruct (re_search loose_name_pattern filename) as [[m r]|].
Qed.

(* ===================================================================== *)
(** * The order of the transcripts                                        *)
(* ===================================================================== *)

Lemma code_inj (x y : ascii) : code x = code y -> x = y.
Proof.
  unfold code. intros H.
  rewrite <- (ascii_N_embedding x), <- (ascii_N_embedding y). now rewrite H.
Qed.

Lemma str_leb_refl (a : string) : str_leb a a = true.
Proof.
  induction a as [|x a IH]; simpl; [reflexivity|].
  now rewrite N.ltb_irrefl.
Qed.

Lemma str_leb_total (a b : string) : str_leb a b = true \/ str_leb b a = true.
Proof.
  revert b. induction a as [|x a IH]; intros [|y b]; simpl; auto.
  destruct (code x <? code y)%N eqn:E1, (code y <? code x)%N eqn:E2; auto.
Qed.

Lemma str_leb_antisym (a b : string) :
  str_leb a b = true -> str_leb b a = true -> a = b.
Proof.
  revert b. induction a as [|x a IH]; intros [|y b]; simpl;
    try discriminate; [reflexivity|].
  destruct (code x <? code y)%N eqn:E1, (code y <? code x)%N eqn:E2;
    try discriminate.
  - apply N.ltb_lt in E1, E2. lia.
  - apply N.ltb_ge in E1, E2. intros H1 H2.
    rewrite (code_inj x y) by lia. f_equal. now apply IH.
Qed.

Lemma str_leb_trans (a b c : string) :
  str_leb a b = true -> str_leb b c = true -> str_leb a c = true.
Proof.
  revert b c. induction a as [|x a IH]; intros [|y b] [|z c]; simpl;
    try discriminate; try reflexivity.
  destruct (code x <? code y)%N eqn:E1, (code y <? code x)%N eqn:E2,
           (code y <? code z)%N eqn:E3, (code z <? code y)%N eqn:E4,
           (code x <? code z)%N eqn:E5, (code z <? code x)%N eqn:E6;
    try discriminate; try reflexivity;
    try (apply N.ltb_lt in E1); try (apply N.ltb_ge in E1);
    try (apply N.ltb_lt in E2); try (apply N.ltb_ge in E2);
    try (apply N.ltb_lt in E3); try (apply N.ltb_ge in E3);
    try (apply N.ltb_lt in E4); try (apply N.ltb_ge in E4);
    try (apply N.ltb_lt in E5); try (apply N.ltb_ge in E5);
    try (apply N.ltb_lt in E6); try (apply N.ltb_ge in E6);
    try lia.
  apply IH.
Qed.

Lemma path_leb_total (p q : Path) : path_leb p q = true \/ path_leb q p = true.
Proof.
  revert q. induction p as [|x p IH]; intros [|y q]; simpl; auto.
  rewrite (String.eqb_sym y x).
  destruct (String.eqb x y); [apply IH | apply str_leb_total].
Qed.

Lemma path_leb_antisym (p q : Path) :
  path_leb p q = true -> path_leb q p = true -> p = q.
Proof.
  revert q. induction p as [|x p IH]; intros [|y q]; simpl;
    try discriminate; [reflexivity|].
  rewrite (String.eqb_sym y x). destruct (String.eqb x y) eqn:E.
  - apply String.eqb_eq in E. subst. intros H1 H2. f_equal. now apply IH.
  - intros H1 H2. apply String.eqb_neq in E. elim E.
    now apply str_leb_antisym.
Qed.

Lemma path_leb_trans (p q r : Path) :
  path_leb p q = true -> path_leb q r = true -> path_leb p r = true.
Proof.
  revert q r. induction p as [|x p IH]; intros [|y q] [|z r]; simpl;
    try discriminate; try reflexivity.
  destruct (String.eqb x y) eqn:E1.
  - apply String.eqb_eq in E1. subst y.
    destruct (String.eqb x z); [apply IH | auto].
  - destruct (String.eqb y z) eqn:E2.
    + apply String.eqb_eq in E2. subst z. now rewrite E1.
    + intros H1 H2. destruct (String.eqb x z) eqn:E3.
      * apply String.eqb_eq in E3. subst z.
        apply String.eqb_neq in E1. elim E1. now apply str_leb_antisym.
      * now apply (str_leb_trans x y z).
Qed.

(** A list sorted by an order is determined by its elements. *)
Lemma sorted_perm_eq {A : Type} (R : A -> A -> Prop) :
  (forall a b, R a b -> R b a -> a = b) ->
  forall l l', StronglySorted R l -> StronglySorted R l' ->
               Permutation l l' -> l = l'.
Proof.
  intros Hanti. induction l as [|x l IH]; intros l' Hs Hs' Hp.
  - apply Permutation_nil in Hp. now subst.
  - destruct l' as [|y l'];
      [apply Permutation_sym, Permutation_nil in Hp; discriminate|].
    inversion Hs as [|? ? Hsl Hx]; subst.
    inversion Hs' as [|? ? Hsl' Hy]; subst.
    assert (Exy : x = y).
    { assert (Hin : In x (y :: l')) by (apply (Permutation_in _ Hp); now left).
      assert (Hin' : In y (x :: l))
        by (apply (Permutation_in _ (Permutation_sym Hp)); now left).
      destruct Hin as [E|Hin]; [now subst|].
      destruct Hin' as [E|Hin']; [now subst|].
      rewrite Forall_forall in Hx, Hy. apply Hanti; auto. }
    subst y. f_equal. apply IH; auto. now apply Permutation_cons_inv in Hp.
Qed.

Lemma sort_by_path_perm (l l' : list Path) :
  Permutation l l' -> sort_by path_leb l = sort_by path_leb l'.
Proof.
  intros Hp.
  apply (sorted_perm_eq (fun a b => path_leb a b = true) path_leb_antisym).
  - apply Sorted_StronglySorted; [|apply sort_by_sorted, path_leb_total].
    intros a b c. apply path_leb_trans.
  - apply Sorted_StronglySorted; [|apply sort_by_sorted, path_leb_total].
    intros a b c. apply path_leb_trans.
  - rewrite (sort_by_perm path_leb l), (sort_by_perm path_leb l'). exact Hp.
Qed.

Lemma StronglySorted_filter {A : Type} (R : A -> A -> Prop) (f : A -> bool)
      (l : list A) :
  StronglySorted R l -> StronglySorted R (filter f l).
Proof.
  induction 1 as [|x l Hs IH Hx]; simpl; [constructor|].
  destruct (f x); [|exact IH]. constructor; [exact IH|].
  rewrite Forall_forall in *. intros y Hy. apply Hx.
  now apply filter_In in Hy.
Qed.

Lemma collect_filter (files : list Path) :
  collect files = collect (filter has_timestamp files).
Proof.
  induction files as [|file rest IH]; simpl; [reflexivity|].
  unfold has_timestamp at 1.
  destruct (parse_transcript_timestamp_total (path_name file)) as [o Ho].
  rewrite Ho. destruct o as [t|]; simpl.
  - rewrite Ho. simpl. now rewrite IH.
  - rewrite IH. now destruct (collect (filter has_timestamp rest)).
Qed.

Lemma filter_map_comm {A B : Type} (f : B -> bool) (g : A -> B) (l : list A) :
  filter f (map g l) = map g (filter (fun a => f (g a)) l).
Proof.
  induction l as [|x l IH]; simpl; [reflexivity|].
  destruct (f (g x)); simpl; now rewrite IH.
Qed.

Lemma filter_filter {A : Type} (f g : A -> bool) (l : list A) :
  filter f (filter g l) = filter (fun a => g a && f a) l.
Proof.
  induction l as [|x l IH]; simpl; [reflexivity|].
  destruct (g x); simpl; [destruct (f x); simpl; now rewrite IH | exact IH].
Qed.

Lemma glob_listed (st : fs) (dir : Path) (names : list string) :
  dir_entries st dir = Some names ->
  glob_txt st dir = Ok (map (path_div dir) (filter (endswith ".txt") names)).
Proof.
  intros H. unfold glob_txt, stat. rewrite H.
  now destruct (file_text st dir).
Qed.

(** The sorted list of transcripts depends on the directory only through
    the entries that become transcripts, whatever their order. *)
Lemma load_transcripts_perm_entries (st st' : fs) (dir : Path)
      (names names' : list string) :
  dir_entries st dir = Some names ->
  dir_entries st' dir = Some names' ->
  Permutation (filter (is_transcript_name dir) names)
              (filter (is_transcript_name dir) names') ->
  load_transcripts st dir = load_transcripts st' dir.
Proof.
  intros Hd Hd' Hp. unfold load_transcripts.
  rewrite (glob_listed st dir names Hd), (glob_listed st' dir names' Hd').
  cbn [bind].
  rewrite (collect_filter (sort_by path_leb _)).
  rewrite (collect_filter (sort_by path_leb (map _ (filter _ names')))).
  assert (Hsorted : forall l,
             StronglySorted (fun a b => path_leb a b = true)
                            (filter has_timestamp (sort_by path_leb l))).
  { intros l. apply StronglySorted_filter.
    apply Sorted_StronglySorted; [|apply sort_by_sorted, path_leb_total].
    intros a b c. apply path_leb_trans. }
  assert (Hrel : forall l,
             Permutation
               (filter has_timestamp
                  (sort_by path_leb (map (path_div dir)
                                         (filter (endswith ".txt") l))))
               (map (path_div dir) (filter (is_transcript_name dir) l))).
  { intros l. rewrite (filter_perm has_timestamp _ _ (sort_by_perm path_leb _)).
    rewrite filter_map_comm, filter_filter. reflexivity. }
  assert (E : filter has_timestamp
                (sort_by path_leb (map (path_div dir)
                                       (filter (endswith ".txt") names)))
              = filter has_timestamp
                  (sort_by path_leb (map (path_div dir)
                                         (filter (endswith ".txt") names')))).
  { apply (sorted_perm_eq (fun a b => path_leb a b = true) path_leb_antisym);
      [apply Hsorted | apply Hsorted |].
    rewrite (Hrel names), (Hrel names'). now apply Permutation_map. }
  now rewrite E.
Qed.

Section SameFiles.
Variables st st' : fs.
Variable mapping : object.
Variable transcripts : list transcript.
Hypothesis same_text : forall p, file_text st' p = file_text st p.

Lemma emit_same tr time acc :
  emit st' mapping tr time acc = emit st mapping tr time acc.
Proof. unfold emit, open_read. now rewrite same_text. Qed.

Lemma match_while_same n line_time :
  forall idx acc,
    match_while st' mapping transcripts n line_time idx acc
    = match_while st mapping transcripts n line_time idx acc.
Proof.
  induction n as [|n IH]; intros idx acc; simpl; [reflexivity|].
  destruct (nth_error transcripts idx) as [tr|]; [|reflexivity].
  rewrite emit_same.
  match goal with |- context [if ?c then _ else _] => destruct c end;
    [|reflexivity].
  destruct (emit st mapping tr _ acc); simpl; [apply IH | reflexivity].
Qed.

Lemma walk_same chat_lines :
  forall idx acc,
    walk st' mapping transcripts chat_lines idx acc
    = walk st mapping transcripts chat_lines idx acc.
Proof.
  induction chat_lines as [|line rest IH]; intros idx acc; simpl; [reflexivity|].
  destruct (parse_chat_line_time line) as [[lt|]|e]; simpl;
    [|apply IH|reflexivity].
  rewrite match_while_same.
  destruct (match_while st mapping transcripts _ lt idx _) as [[i r]|e]; simpl;
    [apply IH | reflexivity].
Qed.

Lemma append_remaining_same js :
  forall acc,
    append_remaining st' mapping transcripts js acc
    = append_remaining st mapping transcripts js acc.
Proof.
  induction js as [|j js IH]; intros acc; simpl; [reflexivity|].
  destruct (nth_error transcripts j) as [tr|]; [|reflexivity].
  rewrite emit_same.
  destruct (emit st mapping tr _ acc); simpl; [apply IH | reflexivity].
Qed.

Lemma merged_lines_same chat :
  merged_lines st' mapping transcripts chat
  = merged_lines st mapping transcripts chat.
Proof.
  unfold merged_lines, open_read. rewrite same_text.
  destruct (file_text st chat) as [content|]; simpl; [|reflexivity].
  rewrite walk_same.
  destruct (walk st mapping transcripts _ 0 []) as [[idx acc]|e]; simpl;
    [apply append_remaining_same | reflexivity].
Qed.
End SameFiles.

(** X12.  The run depends on the transcript directory only through the
    entries whose name ends in [.txt] and gives a timestamp, and not on
    the order in which the scan yields them: on two file systems with the
    same files whose directories have these entries in common, in any
    order and among any other entries, the run has the same outcome and
    leaves the same text at the output path. *)
Theorem merge_scan_order safe_load chat dir out settings (st st' : fs)
        (names names' : list string) :
  dir_entries st dir = Some names ->
  dir_entries st' dir = Some names' ->
  Permutation (filter (is_transcript_name dir) names)
              (filter (is_transcript_name dir) names') ->
  (forall p, file_text st' p = file_text st p) ->
  can_write st' out = can_write st out ->
  (forall p, settings = Some p -> stat st' p = stat st p) ->
  fst (merge_transcripts safe_load chat dir out settings st')
  = fst (merge_transcripts safe_load chat dir out settings st)
  /\ file_text (snd (merge_transcripts safe_load chat dir out settings st')) out
     = file_text (snd (merge_transcripts safe_load chat dir out settings st))
                 out.
Proof.
  intros Hd Hd' Hp Hsame Hw Hstat. unfold merge_transcripts.
  assert (Es : load_settings safe_load st' settings
               = load_settings safe_load st settings).
  { unfold load_settings, path_exists, open_read.
    destruct settings as [p|]; [|reflexivity].
    now rewrite (Hstat p eq_refl), Hsame. }
  rewrite Es.
  destruct (load_settings safe_load st settings) as [mapping|e]; cbn [bind];
    [|auto].
  rewrite <- (load_transcripts_perm_entries st st' dir names names' Hd Hd' Hp).
  destruct (load_transcripts st dir) as [transcripts|e]; cbn [bind]; [|auto].
  rewrite (merged_lines_same st st' mapping transcripts Hsame).
  destruct (merged_lines st mapping transcripts chat) as [lines|e]; [|auto].
  unfold open_write. rewrite Hw.
  destruct (can_write st out); cbn [fst snd]; [auto| |];
    now rewrite !set_text_at.
Qed.

Lemma merge_scan_order_witness :
  fst (merge_transcripts safe_load_examples chat_txt tr_dir out_txt None
         (fs_of [ (chat_txt, "[14:05] Hallo!"); (path t_early, "Frueh");
                  (max_10, "Erster") ]
                [ (tr_dir, ["2024-06-28_13-00-00_Eva.txt"; "notes.md";
                            "2024-06-28_14-05-10_Max.txt"]) ]))
  = fst (merge_transcripts safe_load_examples chat_txt tr_dir out_txt None
                           fs_blocked)
  /\ file_text
       (snd (merge_transcripts safe_load_examples chat_txt tr_dir out_txt None
               (fs_of [ (chat_txt, "[14:05] Hallo!"); (path t_early, "Frueh");
                        (max_10, "Erster") ]
                      [ (tr_dir, ["2024-06-28_13-00-00_Eva.txt"; "notes.md";
                                  "2024-06-28_14-05-10_Max.txt"]) ])))
       out_txt
     = file_text (snd (merge_transcripts safe_load_examples chat_txt tr_dir
                                         out_txt None fs_blocked))
                 out_txt.
Proof.
  apply (merge_scan_order safe_load_examples chat_txt tr_dir out_txt None
           fs_blocked _
           ["2024-06-28_14-05-10_Max.txt"; "2024-06-28_13-00-00_Eva.txt"]
           ["2024-06-28_13-00-00_Eva.txt"; "notes.md";
            "2024-06-28_14-05-10_Max.txt"]).
  - reflexivity.
  - reflexivity.
  - vm_compute. apply perm_swap.
  - reflexivity.
  - reflexivity.
  - discriminate.
Defined.

(** Stable sorting of a list that is in path order gives the order by
    timestamp, then path. *)
Lemma insert_stamp_then_path (x : transcript) (l : list transcript) :
  Forall (fun y => path_leb (path x) (path y) = true) l ->
  Sorted stamp_then_path l ->
  Sorted stamp_then_path (insert ts_leb x l).
Proof.
  intros Hx Hs. induction Hs as [|y l Hs IH Hhd]; simpl; [repeat constructor|].
  inversion Hx as [|? ? Hxy Hxl]; subst.
  destruct (ts_leb x y) eqn:E.
  - constructor; [now constructor|]. constructor. split; auto.
  - constructor; [now apply IH|].
    assert (Hyx : stamp_then_path y x).
    { split; [destruct (ts_leb_total x y); congruence | congruence]. }
    destruct l as [|z l]; simpl; [now constructor|].
    destruct (ts_leb x z); constructor; [exact Hyx | now inversion Hhd].
Qed.

Lemma sort_stamp_then_path (l : list transcript) :
  StronglySorted (fun a b => path_leb (path a) (path b) = true) l ->
  Sorted stamp_then_path (sort_by ts_leb l).
Proof.
  induction 1 as [|x l Hs IH Hx]; simpl; [constructor|].
  apply insert_stamp_then_path; [|exact IH].
  apply (Permutation_Forall (Permutation_sym (sort_by_perm ts_leb l)) Hx).
Qed.

Lemma StronglySorted_map_inv {A B : Type} (R : B -> B -> Prop) (g : A -> B)
      (l : list A) :
  StronglySorted R (map g l) -> StronglySorted (fun a b => R (g a) (g b)) l.
Proof.
  induction l as [|x l IH]; simpl; intros H; [constructor|].
  inversion H as [|? ? Hs Hx]; subst. constructor; [now apply IH|].
  rewrite Forall_forall in *. intros y Hy. apply Hx. now apply in_map.
Qed.

(** X13.  The list of transcripts is in ascending order of timestamp, and
    transcripts with the same timestamp are in the order of their paths:
    each transcript is followed by one with a later timestamp or with the
    same timestamp and a path that is not smaller. *)
Theorem transcripts_by_stamp_then_path (st : fs) (dir : Path)
        (transcripts : list transcript) :
  load_transcripts st dir = Ok transcripts ->
  Sorted stamp_then_path transcripts.
Proof.
  unfold load_transcripts.
  destruct (glob_txt st dir) as [files|e]; cbn [bind]; [|discriminate].
  destruct (collect_spec (sort_by path_leb files)) as [l [Hc [Hm _]]].
  rewrite Hc. simpl. intros [= <-]. apply sort_stamp_then_path.
  apply (StronglySorted_map_inv (fun a b => path_leb a b = true) path l).
  rewrite Hm. apply StronglySorted_filter.
  apply Sorted_StronglySorted; [|apply sort_by_sorted, path_leb_total].
  intros a b c. apply path_leb_trans.
Qed.

Lemma transcripts_by_stamp_then_path_witness :
  Sorted stamp_then_path [t_max_10; t_max_40; t_eva_0730].
Proof.
  apply (transcripts_by_stamp_then_path fs_cluster tr_dir).
  vm_compute. reflexivity.
Defined.

(* ===================================================================== *)
(** * The settings                                                        *)
(* ===================================================================== *)

Lemma dict_get_default (items : list (object * object)) (key : string)
      (default : object) :
  Forall (fun kv => fst kv <> Str key) items ->
  dict_get items key default = default.
Proof.
  induction 1 as [|[k v] items Hk _ IH]; simpl; [reflexivity|].
  destruct k as [k| | |]; try exact IH.
  destruct (String.eqb k key) eqn:E; [|exact IH].
  apply String.eqb_eq in E. subst k. now elim Hk.
Qed.

(** X14.  Settings without a mapping change nothing: when there is no
    file at the settings path, or the file parses to a value that is no
    [dict], or to a [dict] without the key [speaker_mapping], the run is
    the run without settings. *)
Theorem settings_without_mapping safe_load chat dir out p st :
  stat st p = NotFound
  \/ (exists text data,
        file_text st p = Some text /\ safe_load text = Ok data
        /\ ((forall items t, data <> Dict items t)
            \/ exists items t,
                 data = Dict items t
                 /\ Forall (fun kv => fst kv <> Str "speaker_mapping") items)) ->
  merge_transcripts safe_load chat dir out (Some p) st
  = merge_transcripts safe_load chat dir out None st.
Proof.
  intros H.
  assert (E : load_settings safe_load st (Some p)
              = load_settings safe_load st None).
  { unfold load_settings, path_exists, open_read.
    destruct H as [->|[text [data [Ht [Hd Hdata]]]]]; [reflexivity|].
    unfold stat. rewrite Ht. cbn [bind]. rewrite Hd. cbn [bind].
    destruct Hdata as [Hno|[items [t [-> Hk]]]].
    - destruct data as [x|items t|x|x]; try reflexivity. now elim (Hno items t).
    - now rewrite dict_get_default. }
  unfold merge_transcripts. now rewrite E.
Qed.

Lemma settings_without_mapping_witness :
  merge_transcripts safe_load_examples chat_txt tr_dir out_txt
                    (Some ["nowhere.yml"]) fs_cluster
  = merge_transcripts safe_load_examples chat_txt tr_dir out_txt None fs_cluster.
Proof.
  apply (settings_without_mapping safe_load_examples chat_txt tr_dir out_txt
           ["nowhere.yml"] fs_cluster).
  left. reflexivity.
Defined.

(** X15.  The type of [speaker_mapping] is not checked when it is read
    but when it is used: a settings document whose [speaker_mapping] is
    no [dict] aborts the run, with the file system as it was, when the
    directory has a transcript with a timestamp, and changes nothing
    when it has none. *)
Theorem mapping_type_checked_late safe_load chat dir out settings st
        mapping transcripts :
  load_settings safe_load st settings = Ok mapping ->
  (forall items t, mapping <> Dict items t) ->
  load_transcripts st dir = Ok transcripts ->
  (transcripts <> [] ->
   exists e, merge_transcripts safe_load chat dir out settings st = (Raise e, st))
  /\ (transcripts = [] ->
      merge_transcripts safe_load chat dir out settings st
      = merge_transcripts safe_load chat dir out None st).
Proof.
  intros Hs Hno Hl. split.
  - intros Hne.
    destruct (merge_cases safe_load chat dir out settings st)
      as [He|[mapping' [content [transcripts' [Hs' [Hl' [_ [_ [Hr _]]]]]]]]];
      [exact He|].
    exfalso.
    assert (Em : mapping' = mapping) by congruence.
    assert (Et : transcripts' = transcripts) by congruence.
    subst mapping' transcripts'.
    destruct transcripts as [|tr trs]; [now elim Hne|].
    inversion Hr as [|? ? [[speaker Hsp] _] _]; subst.
    unfold infer_speaker_obj in Hsp.
    destruct mapping as [x|items t|x|x]; try discriminate.
    now elim (Hno items t).
  - intros ->. unfold merge_transcripts. rewrite Hs, Hl. cbn [bind load_settings].
    unfold merged_lines. destruct (open_read st chat) as [content|e];
      [|reflexivity].
    cbn [bind].
    assert (E : forall m lines idx acc,
               walk st m [] lines idx acc = walk st no_mapping [] lines idx acc).
    { intros m lines. induction lines as [|line rest IH]; intros idx acc;
        [reflexivity|].
      cbn [walk]. destruct (parse_chat_line_time line) as [[lt|]|e];
        cbn [bind]; [|apply IH|reflexivity].
      replace (length (@nil transcript) - idx)%nat with 0%nat by (simpl; lia).
      cbn [match_while bind]. apply IH. }
    rewrite (E mapping). unfold no_mapping.
    destruct (walk st (Dict [] "{}") [] (splitlines content) 0 [])
      as [[idx acc]|e]; [|reflexivity].
    cbn [bind length]. now replace (0 - idx)%nat with 0%nat by lia.
Qed.

Lemma mapping_type_checked_late_witness :
  (exists e,
      merge_transcripts safe_load_examples chat_txt tr_dir out_txt
                        (Some list_yml) fs_cluster
      = (Raise e, fs_cluster))
  /\ merge_transcripts safe_load_examples chat_txt tr_dir out_txt None fs_cluster
     = (Ok tt, set_text fs_cluster out_txt cluster_document).
Proof.
  split.
  - apply (proj1 (mapping_type_checked_late safe_load_examples chat_txt tr_dir
                    out_txt (Some list_yml) fs_cluster
                    (Other "['max', 'eva']")
                    [t_max_10; t_max_40; t_eva_0730]
                    ltac:(vm_compute; reflexivity)
                    ltac:(discriminate)
                    ltac:(vm_compute; reflexivity))).
    discriminate.
  - vm_compute. reflexivity.
Defined.
